(** * perspector: the anchor classifier, the homography estimator and the
      resampler of [src/perspector.c], and the anchors that [src/gui.c]
      hands over to them, embedded in Rocq.

    Conventions of the embedding.
    - [coord] ([int32_t]) is [Z].  Signed overflow is undefined in C.  The
      subtractions of [comparex] and [comparey] and the sums of the
      barycentre, which the classifier makes on any four anchors, are wrapped
      to 32 bits as the build computes them ([wrap32]); the index and window
      expressions of the resampler are written in [Z], and where the source
      itself guards against overflow (the size precheck of [perspector]) the
      bound [COORD_MAX] is explicit.
    - [double] is the kernel's binary64 ([PrimFloat]), with the C operators
      mapped to the IEEE operations of the same name.  The entries of the
      matrix are what GSL's decomposition returns for the system that
      [init_system_equation] writes; the properties below hold whatever these
      entries are.
    - Library routines the source calls but does not define ([qsort],
      [gsl_linalg_SV_decomp], [calloc]) are parameters of the functions that
      call them.
    - A C function returning [bool] and filling a result through a pointer
      returns an [option]. *)

From Stdlib Require Import ZArith List Bool Lia Permutation Sorted.
From Stdlib Require Import PrimFloat Uint63 FloatOps SpecFloat.
Import ListNotations.

Open Scope Z_scope.

(** ** Data model ([perspector.h]) *)

Definition coord := Z.
Definition COORD_MAX : coord := 2147483647.
Definition INT32_MIN : Z := -2147483648.

(** The value that the build gives to an [int] expression whose exact value
    is [z]: two's complement on 32 bits. *)
Definition wrap32 (z : Z) : Z := (z - INT32_MIN) mod 2 ^ 32 + INT32_MIN.

Record pixel := mkpixel { px : coord; py : coord }.
Arguments mkpixel (px py)%_Z.

Record point := mkpoint { ptx : float; pty : float }.

Record pixelset := mkpixelset { pixels : list pixel; count : nat }.

Record rect := mkrect { bl : pixel; br : pixel; tr : pixel; tl : pixel }.

(** [set->pixels[i]] *)
Definition pix (s : pixelset) (i : nat) : pixel :=
  nth i (pixels s) (mkpixel 0 0).

Definition pixel_eqb (p q : pixel) : bool :=
  (px p =? px q) && (py p =? py q).

(** The four anchors of a full set, as [gui.c] hands them over. *)
Definition anchors_of (a b c d : pixel) : pixelset :=
  mkpixelset [a; b; c; d] 4.

(** ** Conversions between [coord] and [double] *)

(** [(double)z] for an integer that fits 63 bits. *)
Definition double_of_coord (z : Z) : float :=
  if z <? 0 then PrimFloat.opp (PrimFloat.of_uint63 (Uint63.of_Z (- z)))
  else PrimFloat.of_uint63 (Uint63.of_Z z).

Definition fzero : float := PrimFloat.zero.
Definition feq (a b : float) : bool := PrimFloat.eqb a b.
Definition flt (a b : float) : bool := PrimFloat.ltb a b.
Definition fgt (a b : float) : bool := PrimFloat.ltb b a.

(** ** Position of one point with respect to another *)

Inductive position := LEFT | RIGHT | EQUAL | OPPOSED | UNDEF.

(** The enumerators' values. *)
Definition position_code (p : position) : Z :=
  match p with
  | LEFT => 1
  | RIGHT => 2
  | EQUAL => 4
  | OPPOSED => 8
  | UNDEF => 16
  end.

Definition position_eqb (p q : position) : bool :=
  position_code p =? position_code q.

Inductive direction := DIR_X | DIR_Y.

(** [comparex], [comparey]: the difference of two [int32_t], made in [int]. *)
Definition comparex (a b : pixel) : Z := wrap32 (px a - px b).
Definition comparey (a b : pixel) : Z := wrap32 (py a - py b).

(** [pos(p, refn)] *)
Definition pos (p refn : point) : position :=
  if (feq (ptx p) fzero && feq (pty p) fzero)
     || (feq (ptx refn) fzero && feq (pty refn) fzero)
  then UNDEF
  else if feq (PrimFloat.sub (PrimFloat.mul (pty p) (ptx refn))
                             (PrimFloat.mul (pty refn) (ptx p))) fzero
  then (if fgt (PrimFloat.mul (ptx p) (ptx refn)) fzero then EQUAL else OPPOSED)
  else if feq (ptx refn) fzero
  then (if (fgt (pty refn) fzero && flt (ptx p) fzero)
           || (flt (pty refn) fzero && fgt (ptx p) fzero)
        then LEFT else RIGHT)
  else if (flt (ptx refn) fzero
           && flt (pty p)
                  (PrimFloat.div (PrimFloat.mul (ptx p) (pty refn)) (ptx refn)))
          || (fgt (ptx refn) fzero
              && fgt (pty p)
                     (PrimFloat.div (PrimFloat.mul (ptx p) (pty refn)) (ptx refn)))
  then LEFT
  else RIGHT.

(** A pixel relative to the barycentre: [{ p.x - bar.x, p.y - bar.y }]. *)
Definition rel (bar : point) (p : pixel) : point :=
  mkpoint (PrimFloat.sub (double_of_coord (px p)) (ptx bar))
          (PrimFloat.sub (double_of_coord (py p)) (pty bar)).

(** [compare_angle]; the file-scope variables [ref] and [bar] it reads are its
    first two arguments. *)
Definition compare_angle (ref : pixel) (bar : point) (a b : pixel) : Z :=
  let refn := rel bar ref in
  let an := rel bar a in
  let bn := rel bar b in
  let an_refn := pos an refn in
  let an_bn := pos an bn in
  let bn_refn := pos bn refn in
  if position_eqb an_bn EQUAL || position_eqb an_bn UNDEF then 0
  else if position_eqb an_refn EQUAL
          || (position_eqb bn_refn LEFT && position_eqb an_refn LEFT
              && position_eqb an_bn RIGHT)
          || (position_eqb bn_refn RIGHT
              && (position_eqb an_bn RIGHT || position_eqb an_refn LEFT))
          || (position_eqb bn_refn OPPOSED && position_eqb an_refn LEFT)
  then -1
  else 1.

(** [check_order]: the loop looks for the first index [i < order.count] whose
    pixel is [bl] and leaves [i = order.count] when there is none. *)
Fixpoint find_bl (order : pixelset) (bl0 : pixel) (i : nat) (n : nat) : nat :=
  match n with
  | O => i
  | S n' =>
      if pixel_eqb (pix order (i mod 4)) bl0 then i
      else find_bl order bl0 (S i) n'
  end.

Definition CMP_PIXEL (order : pixelset) (i offset : nat) (p : pixel) : bool :=
  pixel_eqb (pix order ((i + offset) mod 4)) p.

Definition check_order (order : pixelset) (bl0 br0 tr0 tl0 : pixel) : bool :=
  let i := find_bl order bl0 0%nat (count order) in
  CMP_PIXEL order i 1 br0 && CMP_PIXEL order i 2 tr0 && CMP_PIXEL order i 3 tl0.

(** ** The classifier, over the C library's [qsort] *)

Section Classifier.

(** [qsort(base, n, size, compar)] on an array of pixels. *)
Variable qsort : (pixel -> pixel -> Z) -> list pixel -> list pixel.

Definition psort (set : pixelset) (dir : direction) : pixelset :=
  let cmp := match dir with DIR_X => comparex | DIR_Y => comparey end in
  mkpixelset (qsort cmp (firstn (count set) (pixels set))
                ++ skipn (count set) (pixels set))
             (count set).

(** The guard of the first branch of [projectable]. *)
Definition direct_case (xs : pixelset) : bool :=
  negb (px (pix xs 1) =? px (pix xs 2))
  && ((py (pix xs 0) <? py (pix xs 2)) || (py (pix xs 0) <? py (pix xs 3))
      || (py (pix xs 1) <? py (pix xs 2)) || (py (pix xs 1) <? py (pix xs 3)))
  && ((py (pix xs 0) >? py (pix xs 2)) || (py (pix xs 0) >? py (pix xs 3))
      || (py (pix xs 1) >? py (pix xs 2)) || (py (pix xs 1) >? py (pix xs 3)))
  && negb (py (pix xs 2) =? py (pix xs 3)).

(** The guard of the second branch. *)
Definition split_axis_case (xs ys : pixelset) : bool :=
  (px (pix xs 1) =? px (pix xs 2)) || (py (pix ys 1) =? py (pix ys 2)).

(** The corner assignment of an X split followed by Y splits. *)
Definition x_split (xs : pixelset) : rect :=
  let '(b, t) := if py (pix xs 0) <? py (pix xs 1)
                 then (pix xs 0, pix xs 1) else (pix xs 1, pix xs 0) in
  let '(b', t') := if py (pix xs 2) <? py (pix xs 3)
                   then (pix xs 2, pix xs 3) else (pix xs 3, pix xs 2) in
  mkrect b b' t' t.

(** The corner assignment of a Y split followed by X splits. *)
Definition y_split (ys : pixelset) : rect :=
  let '(l, r) := if px (pix ys 0) <? px (pix ys 1)
                 then (pix ys 0, pix ys 1) else (pix ys 1, pix ys 0) in
  let '(l', r') := if px (pix ys 2) <? px (pix ys 3)
                   then (pix ys 2, pix ys 3) else (pix ys 3, pix ys 2) in
  mkrect l r r' l'.

Definition x_valid (xs : pixelset) : bool :=
  negb (px (pix xs 1) =? px (pix xs 2))
  && negb (py (pix xs 0) =? py (pix xs 1))
  && negb (py (pix xs 2) =? py (pix xs 3)).

Definition y_valid (ys : pixelset) : bool :=
  negb (py (pix ys 1) =? py (pix ys 2))
  && negb (px (pix ys 0) =? px (pix ys 1))
  && negb (px (pix ys 2) =? px (pix ys 3)).

(** [bar]: the barycentre of the four anchors; the sums are made in [int]
    before the conversion to [double]. *)
Definition barycentre (a b c d : pixel) : point :=
  mkpoint
    (PrimFloat.div (double_of_coord (wrap32 (px a + px b + px c + px d)))
                   (double_of_coord 4))
    (PrimFloat.div (double_of_coord (wrap32 (py a + py b + py c + py d)))
                   (double_of_coord 4)).

(** [unsigned int UNDESIRED = EQUAL | OPPOSED | UNDEF] *)
Definition UNDESIRED : Z :=
  Z.lor (Z.lor (position_code EQUAL) (position_code OPPOSED))
        (position_code UNDEF).

(** The pairwise test that guards the third branch: each [pos] result is
    compared for equality with [UNDESIRED]. *)
Definition undesired_pair (bar : point) (a b c d : pixel) : bool :=
  let an := rel bar a in
  let bn := rel bar b in
  let cn := rel bar c in
  let dn := rel bar d in
  (position_code (pos an bn) =? UNDESIRED)
  || (position_code (pos an cn) =? UNDESIRED)
  || (position_code (pos an dn) =? UNDESIRED)
  || (position_code (pos bn cn) =? UNDESIRED)
  || (position_code (pos bn dn) =? UNDESIRED)
  || (position_code (pos cn dn) =? UNDESIRED).

(** [order]: the anchors sorted by [compare_angle] with [ref = a]. *)
Definition angular_order (anchors : pixelset) : pixelset :=
  let a := pix anchors 0 in
  let b := pix anchors 1 in
  let c := pix anchors 2 in
  let d := pix anchors 3 in
  let bar := barycentre a b c d in
  mkpixelset (qsort (compare_angle a bar) [a; b; c; d]) 4.

Definition x_candidate_ok (order xs : pixelset) : bool :=
  x_valid xs
  && check_order order (bl (x_split xs)) (br (x_split xs))
                       (tr (x_split xs)) (tl (x_split xs)).

Definition y_candidate_ok (order ys : pixelset) : bool :=
  y_valid ys
  && check_order order (bl (y_split ys)) (br (y_split ys))
                       (tr (y_split ys)) (tl (y_split ys)).

(** The third branch of [projectable] (two pairs in two partitions). *)
Definition diagonal_case (anchors xs ys : pixelset) : option rect :=
  let a := pix anchors 0 in
  let b := pix anchors 1 in
  let c := pix anchors 2 in
  let d := pix anchors 3 in
  let bar := barycentre a b c d in
  if undesired_pair bar a b c d then None
  else
    let order := angular_order anchors in
    let x_ok := x_candidate_ok order xs in
    let y_ok := y_candidate_ok order ys in
    if y_ok && negb x_ok then Some (y_split ys)
    else if negb y_ok && x_ok then Some (x_split xs)
    else None.

(** [projectable]: [Some r] when it returns [true] with [*result = r]. *)
Definition projectable (anchors : pixelset) : option rect :=
  let xsorted := psort anchors DIR_X in
  let ysorted := psort anchors DIR_Y in
  if direct_case xsorted then Some (x_split xsorted)
  else if split_axis_case xsorted ysorted then None
  else diagonal_case anchors xsorted ysorted.

End Classifier.

(** ** The homography estimator *)

(** The scalar operations [init_system_equation] uses: those of [double]. *)
Class Scalar (S : Type) := {
  s_of_coord : coord -> S;
  s_zero : S;
  s_one : S;
  s_opp : S -> S;
  s_mul : S -> S -> S
}.

#[global] Instance Scalar_double : Scalar float := {
  s_of_coord := double_of_coord;
  s_zero := PrimFloat.zero;
  s_one := PrimFloat.one;
  s_opp := PrimFloat.opp;
  s_mul := PrimFloat.mul
}.

(** The nine rows written by [MATRIX_ROW] over the zeroed array; the ninth
    row is left at zero by [memset]. *)
Definition system_rows {S : Type} {scalar : Scalar S}
  (bl0 br0 tr0 tl0 : pixel) (width height : coord) : list (list S) :=
  let w := s_of_coord width in
  let h := s_of_coord height in
  let c := s_of_coord in
  let o := s_zero in
  let i := s_one in
  [ [c (px bl0); c (py bl0); i; o; o; o; o; o; o];
    [o; o; o; c (px bl0); c (py bl0); i; o; o; o];
    [c (px br0); c (py br0); i; o; o; o;
       s_mul (s_opp w) (c (px br0)); s_mul (s_opp w) (c (py br0)); s_opp w];
    [o; o; o; c (px br0); c (py br0); i; o; o; o];
    [c (px tr0); c (py tr0); i; o; o; o;
       s_mul (s_opp w) (c (px tr0)); s_mul (s_opp w) (c (py tr0)); s_opp w];
    [o; o; o; c (px tr0); c (py tr0); i;
       s_mul (s_opp h) (c (px tr0)); s_mul (s_opp h) (c (py tr0)); s_opp h];
    [c (px tl0); c (py tl0); i; o; o; o; o; o; o];
    [o; o; o; c (px tl0); c (py tl0); i;
       s_mul (s_opp h) (c (px tl0)); s_mul (s_opp h) (c (py tl0)); s_opp h];
    [o; o; o; o; o; o; o; o; o] ].

(** [init_system_equation]: the 81 cells, row-major. *)
Definition init_system_equation {S : Type} {scalar : Scalar S}
  (bl0 br0 tr0 tl0 : pixel) (width height : coord) : list S :=
  concat (system_rows bl0 br0 tr0 tl0 width height).

Section Estimator.

Context {S : Type} {scalar : Scalar S}.

Variable qsort : (pixel -> pixel -> Z) -> list pixel -> list pixel.

(** [gsl_linalg_SV_decomp] on the 9x9 system: the matrix V it stores in [v],
    row-major. *)
Variable gsl_linalg_SV_decomp : list S -> list S.

(** [v[i * COLS + 8]] for [i] from 0 to 8. *)
Definition last_column (v : list S) : list S :=
  map (fun i => nth (i * 9 + 8) v s_zero) (seq 0 9).

(** [make_transform_matrix]: the last column of V. *)
Definition make_transform_matrix (anchors : pixelset) (width height : coord)
  : option (list S) :=
  match projectable qsort anchors with
  | None => None
  | Some vertices =>
      let system_equation :=
        init_system_equation (bl vertices) (br vertices) (tr vertices)
                             (tl vertices) width height in
      let v := gsl_linalg_SV_decomp system_equation in
      Some (last_column v)
  end.

End Estimator.

Arguments make_transform_matrix {S scalar} qsort gsl_linalg_SV_decomp anchors
  (width height)%_Z.
Arguments init_system_equation {S scalar} bl0 br0 tr0 tl0 (width height)%_Z.
Arguments system_rows {S scalar} bl0 br0 tr0 tl0 (width height)%_Z.

(** ** The resampler *)

(** [color]: four [unsigned char] channels. *)
Record color := mkcolor { blue : Z; green : Z; red : Z; alpha : Z }.
Arguments mkcolor (blue green red alpha)%_Z.

(** A buffer reached through a pointer ([color *], [bool *]), by index. *)
Definition buffer (A : Type) := Z -> A.

Definition store {A : Type} (b : buffer A) (i : Z) (v : A) : buffer A :=
  fun j => if j =? i then v else b j.

(** The destination raster and the mask of the cells the forward mapping
    has set ([sink_data], [transformed_mask]). *)
Record sink_state := mksink {
  sink_data : buffer color;
  transformed_mask : buffer bool
}.

(** *** From [double] to [coord] *)

(** The magnitude [m * 2^e] rounded to the nearest integer, halfway cases
    upwards. *)
Definition round_magnitude (m : positive) (e : Z) : Z :=
  if 0 <=? e then Zpos m * 2 ^ e
  else (2 * Zpos m + 2 ^ (- e)) / (2 * 2 ^ (- e)).

(** The magnitude [m * 2^e] with its fraction dropped. *)
Definition truncate_magnitude (m : positive) (e : Z) : Z :=
  if 0 <=? e then Zpos m * 2 ^ e else Zpos m / 2 ^ (- e).

(** [coord c = round(f)]: [round] goes to the nearest integer, halfway cases
    away from zero; the conversion to [int32_t] is defined when the result is
    in its range, and not defined for infinities and NaN. *)
Definition round_to_coord (f : float) : option coord :=
  match Prim2SF f with
  | S754_zero _ => Some 0
  | S754_finite s m e =>
      let n := round_magnitude m e in
      let z := if s then - n else n in
      if (INT32_MIN <=? z) && (z <=? COORD_MAX) then Some z else None
  | S754_infinity _ => None
  | S754_nan => None
  end.

(** [(char)f] stored in an [unsigned char], for the channel means: the
    fraction is dropped and the value kept modulo 256. *)
Definition double_to_channel (f : float) : Z :=
  match Prim2SF f with
  | S754_finite s m e =>
      (if s then - truncate_magnitude m e else truncate_magnitude m e) mod 256
  | _ => 0
  end.

(** *** Forward mapping *)

(** [gsl_blas_dgemv(CblasNoTrans, 1.0, A, x, 0.0, y)] on a 3x3 row-major
    matrix, as GSL's CBLAS computes it: [y] is zeroed, each row is summed from
    the left in a temporary, and [alpha * temp] is added to [y]. *)
Definition gsl_blas_dgemv (a : list float) (x : list float) : list float :=
  map (fun i =>
         let temp :=
           fold_left (fun t j =>
                        PrimFloat.add t
                          (PrimFloat.mul (nth j x PrimFloat.zero)
                                         (nth (3 * i + j) a PrimFloat.zero)))
                     (seq 0 3) PrimFloat.zero in
         PrimFloat.add PrimFloat.zero (PrimFloat.mul PrimFloat.one temp))
      (seq 0 3).

(** The destination pixel (x2, y2) of the source pixel (x, y); [None] when a
    conversion to [coord] is not defined. *)
Definition project (transform_matrix : list float) (x y : coord)
  : option (coord * coord) :=
  let pin := [double_of_coord x; double_of_coord y; PrimFloat.one] in
  let pout := gsl_blas_dgemv transform_matrix pin in
  let pout0 := nth 0 pout PrimFloat.zero in
  let pout1 := nth 1 pout PrimFloat.zero in
  let pout2 := nth 2 pout PrimFloat.zero in
  match round_to_coord (PrimFloat.div pout0 pout2),
        round_to_coord (PrimFloat.div pout1 pout2) with
  | Some x2, Some y2 => Some (x2, y2)
  | _, _ => None
  end.

(** [0 .. n-1] *)
Definition upto (n : Z) : list Z := map Z.of_nat (seq 0 (Z.to_nat n)).

(** [lo .. hi] *)
Definition zrange (lo hi : Z) : list Z :=
  map (fun k => lo + Z.of_nat k) (seq 0 (Z.to_nat (hi - lo + 1))).

(** The pixels of a [w] x [h] raster in the order of the loops
    [for (x = 0; x < w; x++) for (y = 0; y < h; y++)]. *)
Definition scan (w h : Z) : list (Z * Z) :=
  flat_map (fun x => map (fun y => (x, y)) (upto h)) (upto w).

(** A loop over a list whose body may stop the run. *)
Fixpoint for_each {A S : Type} (l : list A) (body : S -> A -> option S) (s : S)
  : option S :=
  match l with
  | [] => Some s
  | a :: l' =>
      match body s a with
      | Some s' => for_each l' body s'
      | None => None
      end
  end.

Definition in_sink (sink_width sink_height x2 y2 : coord) : bool :=
  (x2 >=? 0) && (y2 >=? 0) && (x2 <? sink_width) && (y2 <? sink_height).

(** The body of the forward-mapping loops. *)
Definition forward_pixel (transform_matrix : list float)
  (sink_width sink_height : coord) (bg_data : buffer color) (bg_width : coord)
  (st : sink_state) (p : Z * Z) : option sink_state :=
  let '(x, y) := p in
  match project transform_matrix x y with
  | None => None
  | Some (x2, y2) =>
      if in_sink sink_width sink_height x2 y2 then
        Some (mksink
                (store (sink_data st) (y2 * sink_width + x2)
                       (bg_data (y * bg_width + x)))
                (store (transformed_mask st) (y2 * sink_width + x2) true))
      else Some st
  end.

Definition forward_pass (transform_matrix : list float)
  (sink_width sink_height : coord)
  (bg_data : buffer color) (bg_width bg_height : coord) (st : sink_state)
  : option sink_state :=
  for_each (scan bg_width bg_height)
           (forward_pixel transform_matrix sink_width sink_height
                          bg_data bg_width) st.

(** *** Gap filling *)

(** [count] and the four channel sums. *)
Record accumulator := mkacc {
  acc_count : Z;
  red_buf : float;
  green_buf : float;
  blue_buf : float;
  alpha_buf : float
}.

Definition acc_zero : accumulator :=
  mkacc 0 PrimFloat.zero PrimFloat.zero PrimFloat.zero PrimFloat.zero.

(** The body of the two inner loops of the search, at the cell (i, j). *)
Definition sample (mask : buffer bool) (sink : buffer color)
  (sink_width : coord) (i j : coord) (acc : accumulator) : accumulator :=
  let index := j * sink_width + i in
  if mask index then
    mkacc (acc_count acc + 1)
          (PrimFloat.add (red_buf acc) (double_of_coord (red (sink index))))
          (PrimFloat.add (green_buf acc) (double_of_coord (green (sink index))))
          (PrimFloat.add (blue_buf acc) (double_of_coord (blue (sink index))))
          (PrimFloat.add (alpha_buf acc) (double_of_coord (alpha (sink index))))
  else acc.

(** [for (i = lo; i <= hi; i += step) body]; the step may be zero, so the
    loop is run on fuel. *)
Fixpoint stepped (fuel : nat) (i hi step : Z)
  (body : Z -> accumulator -> accumulator) (acc : accumulator)
  : option accumulator :=
  match fuel with
  | O => None
  | S fuel' =>
      if i <=? hi then stepped fuel' (i + step) hi step body (body i acc)
      else Some acc
  end.

Definition clip_low (v : coord) : coord := if v <? 0 then 0 else v.
Definition clip_high (v bound : coord) : coord :=
  if v >=? bound then bound - 1 else v.

(** One turn of the radius loop: the two columns, then the two rows, of the
    window clipped to the raster. *)
Definition ring (fuel : nat) (mask : buffer bool) (sink : buffer color)
  (sink_width sink_height x y radius : coord) (acc : accumulator)
  : option accumulator :=
  let x_min := clip_low (x - radius) in
  let x_max := clip_high (x + radius) sink_width in
  let y_min := clip_low (y - radius) in
  let y_max := clip_high (y + radius) sink_height in
  match stepped fuel x_min x_max (x_max - x_min)
          (fun i a =>
             fold_left (fun a' j => sample mask sink sink_width i j a')
                       (zrange y_min y_max) a) acc with
  | None => None
  | Some acc' =>
      stepped fuel y_min y_max (y_max - y_min)
        (fun j a =>
           fold_left (fun a' i => sample mask sink sink_width i j a')
                     (zrange x_min x_max) a) acc'
  end.

(** [for (radius = ...; !count; radius++)] *)
Fixpoint search (fuel : nat) (mask : buffer bool) (sink : buffer color)
  (sink_width sink_height x y radius : coord) (acc : accumulator)
  : option accumulator :=
  match fuel with
  | O => None
  | S fuel' =>
      if acc_count acc =? 0 then
        match ring fuel' mask sink sink_width sink_height x y radius acc with
        | None => None
        | Some acc' =>
            search fuel' mask sink sink_width sink_height x y (radius + 1) acc'
        end
      else Some acc
  end.

(** The channel means written to the interpolated pixel. *)
Definition mean_color (acc : accumulator) : color :=
  let n := double_of_coord (acc_count acc) in
  mkcolor (double_to_channel (PrimFloat.div (blue_buf acc) n))
          (double_to_channel (PrimFloat.div (green_buf acc) n))
          (double_to_channel (PrimFloat.div (red_buf acc) n))
          (double_to_channel (PrimFloat.div (alpha_buf acc) n)).

(** The body of the interpolation loops; [None] when the search runs out of
    fuel. *)
Definition fill_pixel (fuel : nat) (mask : buffer bool)
  (sink_width sink_height : coord) (sink : buffer color) (p : Z * Z)
  : option (buffer color) :=
  let '(x, y) := p in
  if mask (y * sink_width + x) then Some sink
  else
    match search fuel mask sink sink_width sink_height x y 1 acc_zero with
    | None => None
    | Some acc => Some (store sink (y * sink_width + x) (mean_color acc))
    end.

Definition fill_pass (fuel : nat) (mask : buffer bool)
  (sink_width sink_height : coord) (sink : buffer color)
  : option (buffer color) :=
  for_each (scan sink_width sink_height)
           (fill_pixel fuel mask sink_width sink_height) sink.

(** *** [perspector] *)

Inductive failure := Not_projectable | Too_big | Mask_allocation.

Inductive undefined_behaviour :=
  Division_by_zero | Mask_size_overflow | Conversion_out_of_range.

(** How a call of [perspector] ends.  [Returns_false] is a [return false]:
    [Not_projectable] and [Too_big] are the returns before the call of
    [calloc], [Mask_allocation] the one after it; the raster is the state of
    [sink_data] at the return. *)
Inductive outcome :=
| Returns_false (why : failure) (sink : buffer color)
| Returns_true (sink : buffer color)
| Undefined (what : undefined_behaviour)
| Out_of_fuel.

Section Perspector.

Variable qsort : (pixel -> pixel -> Z) -> list pixel -> list pixel.
Variable gsl_linalg_SV_decomp : list float -> list float.

(** Whether [calloc(n, sizeof (bool))] returns a block. *)
Variable calloc : Z -> bool.

Definition size_t_of (n : Z) : Z := n mod 2 ^ 64.

Definition perspector (fuel : nat)
  (sink_data0 : buffer color) (sink_width sink_height : coord)
  (bg_data : buffer color) (bg_width bg_height : coord)
  (anchors : pixelset) : outcome :=
  match make_transform_matrix qsort gsl_linalg_SV_decomp anchors
                              sink_width sink_height with
  | None => Returns_false Not_projectable sink_data0
  | Some transform_matrix =>
      if sink_width =? 0 then Undefined Division_by_zero
      else if Z.quot COORD_MAX sink_width <? sink_height
      then Returns_false Too_big sink_data0
      else if negb ((INT32_MIN <=? sink_width * sink_height)
                    && (sink_width * sink_height <=? COORD_MAX))
      then Undefined Mask_size_overflow
      else if negb (calloc (size_t_of (sink_width * sink_height)))
      then Returns_false Mask_allocation sink_data0
      else
        match forward_pass transform_matrix sink_width sink_height
                bg_data bg_width bg_height
                (mksink sink_data0 (fun _ => false)) with
        | None => Undefined Conversion_out_of_range
        | Some st =>
            match fill_pass fuel (transformed_mask st)
                    sink_width sink_height (sink_data st) with
            | None => Out_of_fuel
            | Some sink => Returns_true sink
            end
        end
  end.

End Perspector.

(** *** A [qsort] to run the classifier on *)

(** A [qsort]: stable insertion sort.  Any comparison sort returns the same
    array when the comparison is a strict total order on the input. *)
Fixpoint sort_insert (cmp : pixel -> pixel -> Z) (p : pixel) (l : list pixel)
  : list pixel :=
  match l with
  | [] => [p]
  | q :: l' => if cmp p q <=? 0 then p :: l else q :: sort_insert cmp p l'
  end.

Definition insertion_sort (cmp : pixel -> pixel -> Z) (l : list pixel)
  : list pixel :=
  fold_right (sort_insert cmp) [] l.

(** ** The anchors of the user interface ([gui.c]) *)

(** [a[i] = p] on an array; the index is below the length of the array at
    the two places where [gui.c] stores an anchor. *)
Fixpoint array_set (l : list pixel) (i : nat) (p : pixel) : list pixel :=
  match l, i with
  | [], _ => []
  | _ :: l', O => p :: l'
  | q :: l', S i' => q :: array_set l' i' p
  end.

(** [static pixelset anchors = { .count = 0 }] *)
Definition anchors_initial : pixelset :=
  mkpixelset (repeat (mkpixel 0 0) 4) 0.

(** The anchors in use: [anchors.pixels[0 .. anchors.count - 1]]. *)
Definition placed (s : pixelset) : list pixel := firstn (count s) (pixels s).

(** [sizeof anchors.pixels / sizeof anchors.pixels[0]] *)
Definition ANCHORS_MAX : nat := 4.

(** [event_button_press], primary button, at the pixel (x, y) the pointer
    position is converted to. *)
Definition add_anchor (s : pixelset) (x y : coord) : pixelset :=
  if (ANCHORS_MAX <=? count s)%nat then s
  else if existsb (fun p => pixel_eqb p (mkpixel x y)) (placed s) then s
  else mkpixelset (array_set (pixels s) (count s) (mkpixel x y))
                  (S (count s)).

(** The test of the secondary button: (x, y) is within [radius] of the
    anchor on both axes. *)
Definition in_reach (x y radius : coord) (p : pixel) : bool :=
  (x <=? px p + radius) && (x >=? px p - radius)
  && (y <=? py p + radius) && (y >=? py p - radius).

(** The loop [do ... while (i-- != 0)] from [i = n - 1]: the highest index
    below [n] whose anchor is in reach. *)
Fixpoint last_in_reach (s : pixelset) (x y radius : coord) (n : nat)
  : option nat :=
  match n with
  | O => None
  | S i =>
      if in_reach x y radius (pix s i) then Some i
      else last_in_reach s x y radius i
  end.

(** [event_button_press], secondary button: the anchor found is overwritten
    with the last one, and the count decremented. *)
Definition remove_anchor (s : pixelset) (x y radius : coord) : pixelset :=
  match last_in_reach s x y radius (count s) with
  | Some i =>
      mkpixelset (array_set (pixels s) i (pix s (Nat.pred (count s))))
                 (Nat.pred (count s))
  | None => s
  end.

Inductive button_press :=
| Primary (x y : coord)
| Secondary (x y radius : coord).

(** [event_button_press] on the anchors, once the drawing surface exists. *)
Definition event_button_press (s : pixelset) (e : button_press) : pixelset :=
  match e with
  | Primary x y => add_anchor s x y
  | Secondary x y radius => remove_anchor s x y radius
  end.

(** The body of the loop of [event_process] over the anchors, on
    (minx, miny, maxx, maxy). *)
Definition box_step (box : coord * coord * coord * coord) (p : pixel)
  : coord * coord * coord * coord :=
  let '(minx, miny, maxx, maxy) := box in
  (if px p <? minx then px p else minx,
   if py p <? miny then py p else miny,
   if px p >? maxx then px p else maxx,
   if py p >? maxy then py p else maxy).

(** The loop, from the first anchor. *)
Definition bounding_box (s : pixelset) : coord * coord * coord * coord :=
  fold_left box_step (placed s)
            (px (pix s 0), py (pix s 0), px (pix s 0), py (pix s 0)).

(** [sink_width] and [sink_height] of [event_process], before they are
    adjusted to the ratio. *)
Definition sink_size (s : pixelset) : coord * coord :=
  let '(minx, miny, maxx, maxy) := bounding_box s in
  (maxx - minx, maxy - miny).

(** * Properties *)

(** ** Facts about sorting *)

Definition le_by {A : Type} (cmp : A -> A -> Z) (p q : A) : Prop := cmp p q <= 0.

(** [cmp] is a total preorder on the elements of [l]: what the C standard asks
    of a comparison function for the array being sorted. *)
Definition consistent_on {A : Type} (cmp : A -> A -> Z) (l : list A) : Prop :=
  forall p q, In p l -> In q l ->
    (le_by cmp p q \/ le_by cmp q p)
    /\ forall r, In r l -> le_by cmp p q -> le_by cmp q r -> le_by cmp p r.

(** The contract of [qsort]: the array is permuted, and it is in ascending
    order whenever the comparison function is consistent on it. *)
Definition qsort_contract
  (qsort : (pixel -> pixel -> Z) -> list pixel -> list pixel) : Prop :=
  forall cmp l,
    Permutation l (qsort cmp l)
    /\ (consistent_on cmp l -> StronglySorted (le_by cmp) (qsort cmp l)).

Lemma sort_insert_perm cmp p l : Permutation (p :: l) (sort_insert cmp p l).
Proof.
  induction l as [|q l IH]; simpl.
  - apply Permutation_refl.
  - destruct (cmp p q <=? 0).
    + apply Permutation_refl.
    + eapply perm_trans; [apply perm_swap|]. now apply perm_skip.
Qed.

Lemma insertion_sort_perm cmp l : Permutation l (insertion_sort cmp l).
Proof.
  induction l as [|p l IH]; simpl.
  - apply perm_nil.
  - eapply perm_trans; [apply perm_skip, IH|]. apply sort_insert_perm.
Qed.

Lemma consistent_on_incl {A : Type} (cmp : A -> A -> Z) (l l' : list A) :
  incl l' l -> consistent_on cmp l -> consistent_on cmp l'.
Proof.
  intros Hi Hc p q Hp Hq. destruct (Hc p q (Hi _ Hp) (Hi _ Hq)) as [Htot Htr].
  split; [exact Htot|]. intros r Hr. apply Htr, Hi, Hr.
Qed.

Lemma sort_insert_sorted cmp p l :
  consistent_on cmp (p :: l) ->
  StronglySorted (le_by cmp) l ->
  StronglySorted (le_by cmp) (sort_insert cmp p l).
Proof.
  intros Hc Hs. induction Hs as [|q l Hs IH Hq]; simpl.
  - constructor; constructor.
  - destruct (Z.leb_spec (cmp p q) 0) as [Hle|Hgt].
    + constructor; [constructor; assumption|].
      constructor; [exact Hle|].
      rewrite Forall_forall in *. intros z Hz.
      destruct (Hc p q) as [_ Ht]; simpl; auto.
      apply Ht; simpl; auto.
    + constructor.
      * apply IH. apply (consistent_on_incl cmp (p :: q :: l)); [|exact Hc].
        intros w Hw; simpl in *; tauto.
      * rewrite Forall_forall in *. intros z Hz.
        apply (Permutation_in _ (Permutation_sym (sort_insert_perm cmp p l))) in Hz.
        destruct Hz as [<-|Hz]; [|auto].
        destruct (Hc p q) as [[H|H] _]; simpl; auto.
        unfold le_by in H. lia.
Qed.

Lemma insertion_sort_sorted cmp l :
  consistent_on cmp l -> StronglySorted (le_by cmp) (insertion_sort cmp l).
Proof.
  induction l as [|p l IH]; intros Hc; simpl.
  - constructor.
  - apply sort_insert_sorted.
    + apply (consistent_on_incl cmp (p :: l)); [|exact Hc].
      intros w [->|Hw]; [now left|right].
      now apply (Permutation_in _ (Permutation_sym (insertion_sort_perm cmp l))).
    + apply IH. apply (consistent_on_incl cmp (p :: l)); [|exact Hc].
      intros w Hw; now right.
Qed.

Lemma insertion_sort_contract : qsort_contract insertion_sort.
Proof.
  intros cmp l. split.
  - apply insertion_sort_perm.
  - apply insertion_sort_sorted.
Qed.

(** Two ascending arrangements of the same elements coincide when the order
    is antisymmetric on them. *)
Lemma sorted_perm_unique {A : Type} (R : A -> A -> Prop) (l1 : list A) :
  forall l2,
  (forall p q, In p l1 -> In q l1 -> R p q -> R q p -> p = q) ->
  Permutation l1 l2 ->
  StronglySorted R l1 -> StronglySorted R l2 -> l1 = l2.
Proof.
  induction l1 as [|p l1 IH]; intros l2 Hanti Hp H1 H2.
  - apply Permutation_nil in Hp. now subst.
  - destruct l2 as [|q l2].
    { apply Permutation_sym, Permutation_nil in Hp. discriminate. }
    assert (Hpq : p = q).
    { inversion H1 as [|? ? _ Hf1]; subst. inversion H2 as [|? ? _ Hf2]; subst.
      rewrite Forall_forall in Hf1, Hf2.
      assert (Hq : In q (p :: l1))
        by (apply (Permutation_in _ (Permutation_sym Hp)); now left).
      assert (Hp' : In p (q :: l2)) by (apply (Permutation_in _ Hp); now left).
      destruct Hq as [Hq|Hq]; [assumption|].
      destruct Hp' as [Hp'|Hp']; [now symmetry|].
      apply Hanti; simpl; auto. }
    subst q. f_equal.
    apply IH.
    + intros u v Hu Hv. apply Hanti; simpl; auto.
    + now apply Permutation_cons_inv in Hp.
    + now inversion H1.
    + now inversion H2.
Qed.

(** A decidable sufficient condition for [qsort]'s result to be determined:
    [cmp] is a total order on the elements of [l]. *)
Definition total_order_on (cmp : pixel -> pixel -> Z) (l : list pixel) : bool :=
  forallb (fun p =>
    forallb (fun q =>
      ((cmp p q <=? 0) || (cmp q p <=? 0))
      && implb ((cmp p q <=? 0) && (cmp q p <=? 0)) (pixel_eqb p q)
      && forallb (fun r =>
           implb ((cmp p q <=? 0) && (cmp q r <=? 0)) (cmp p r <=? 0)) l) l) l.

Lemma pixel_eqb_eq p q : pixel_eqb p q = true <-> p = q.
Proof.
  destruct p as [x1 y1], q as [x2 y2]; unfold pixel_eqb; simpl.
  rewrite andb_true_iff, !Z.eqb_eq. split.
  - intros [-> ->]; reflexivity.
  - intros H; inversion H; auto.
Qed.

Lemma pixel_eqb_refl p : pixel_eqb p p = true.
Proof. now apply pixel_eqb_eq. Qed.

Lemma pixel_eqb_neq p q : p <> q -> pixel_eqb p q = false.
Proof.
  intros H. destruct (pixel_eqb p q) eqn:E; [|reflexivity].
  apply pixel_eqb_eq in E. contradiction.
Qed.

Lemma total_order_on_spec cmp l :
  total_order_on cmp l = true ->
  consistent_on cmp l
  /\ forall p q, In p l -> In q l -> le_by cmp p q -> le_by cmp q p -> p = q.
Proof.
  unfold total_order_on. rewrite forallb_forall. intros H. split.
  - intros p q Hp Hq. specialize (H p Hp). rewrite forallb_forall in H.
    specialize (H q Hq). rewrite !andb_true_iff in H. destruct H as [[Ht _] Htr].
    split.
    + rewrite orb_true_iff, !Z.leb_le in Ht. exact Ht.
    + intros r Hr Hpq Hqr. rewrite forallb_forall in Htr. specialize (Htr r Hr).
      unfold le_by in *.
      destruct (Z.leb_spec (cmp p q) 0); [|lia].
      destruct (Z.leb_spec (cmp q r) 0); [|lia].
      simpl in Htr. now apply Z.leb_le.
  - intros p q Hp Hq Hpq Hqp. specialize (H p Hp). rewrite forallb_forall in H.
    specialize (H q Hq). rewrite !andb_true_iff in H. destruct H as [[_ Ha] _].
    unfold le_by in *.
    destruct (Z.leb_spec (cmp p q) 0); [|lia].
    destruct (Z.leb_spec (cmp q p) 0); [|lia].
    simpl in Ha. now apply pixel_eqb_eq.
Qed.

(** Every conforming [qsort] agrees with insertion sort on such an array. *)
Lemma qsort_determined qsort cmp l :
  qsort_contract qsort -> total_order_on cmp l = true ->
  qsort cmp l = insertion_sort cmp l.
Proof.
  intros Hq Ht. apply total_order_on_spec in Ht. destruct Ht as [Hc Ha].
  destruct (Hq cmp l) as [Hp Hs]. specialize (Hs Hc).
  pose proof (insertion_sort_perm cmp l) as Hp'.
  pose proof (insertion_sort_sorted cmp l Hc) as Hs'.
  apply (sorted_perm_unique (le_by cmp)); auto.
  - intros p q Hin1 Hin2. apply Ha.
    + now apply (Permutation_in _ (Permutation_sym Hp)).
    + now apply (Permutation_in _ (Permutation_sym Hp)).
  - eapply perm_trans; [apply Permutation_sym, Hp|exact Hp'].
Qed.

(** *** The comparisons by a coordinate *)

Definition fits_int32 (z : Z) : bool := (INT32_MIN <=? z) && (z <=? COORD_MAX).

(** The differences of the coordinates of any two pixels of [l] are in the
    range of [int]: [comparex] and [comparey] do not overflow on [l]. *)
Definition differences_fit (l : list pixel) : bool :=
  forallb (fun p =>
    forallb (fun q =>
      fits_int32 (px p - px q) && fits_int32 (py p - py q)) l) l.

Lemma wrap32_fits z : fits_int32 z = true -> wrap32 z = z.
Proof.
  unfold fits_int32, wrap32, INT32_MIN, COORD_MAX.
  rewrite andb_true_iff, !Z.leb_le. intros H.
  rewrite Z.mod_small; lia.
Qed.

Lemma differences_fit_spec l :
  differences_fit l = true ->
  forall p q, In p l -> In q l ->
    comparex p q = px p - px q /\ comparey p q = py p - py q.
Proof.
  unfold differences_fit. rewrite forallb_forall. intros H p q Hp Hq.
  specialize (H p Hp). rewrite forallb_forall in H. specialize (H q Hq).
  apply andb_true_iff in H. destruct H as [Hx Hy].
  unfold comparex, comparey. now rewrite !wrap32_fits.
Qed.

Lemma differences_fit_perm l l' :
  Permutation l l' -> differences_fit l = true -> differences_fit l' = true.
Proof.
  intros Hp. unfold differences_fit. rewrite !forallb_forall.
  intros H p Hin. rewrite forallb_forall. intros q Hq.
  apply (Permutation_in _ (Permutation_sym Hp)) in Hin, Hq.
  specialize (H p Hin). rewrite forallb_forall in H. now apply H.
Qed.

(** A comparison that is a difference on [l] is consistent on [l], and an
    array of pixels of [l] in ascending order for it has ascending keys. *)
Lemma difference_consistent (cmp : pixel -> pixel -> Z) (f : pixel -> Z) l :
  (forall p q, In p l -> In q l -> cmp p q = f p - f q) ->
  consistent_on cmp l.
Proof.
  intros Hcmp p q Hp Hq. unfold le_by. rewrite !Hcmp by assumption.
  split; [lia|]. intros r Hr. rewrite !Hcmp by assumption. lia.
Qed.

Lemma difference_sorted (cmp : pixel -> pixel -> Z) (f : pixel -> Z) l :
  (forall p q, In p l -> In q l -> cmp p q = f p - f q) ->
  StronglySorted (le_by cmp) l -> StronglySorted Z.le (map f l).
Proof.
  intros Hcmp Hs. induction Hs as [|p l Hs IH Hf]; simpl; constructor.
  - apply IH. intros u v Hu Hv. apply Hcmp; now right.
  - rewrite Forall_forall in *. intros z Hz.
    apply in_map_iff in Hz. destruct Hz as (q & <- & Hq).
    specialize (Hf q Hq). unfold le_by in Hf.
    rewrite Hcmp in Hf; [lia|now left|now right].
Qed.

Lemma comparex_consistent l :
  differences_fit l = true -> consistent_on comparex l.
Proof.
  intros H. apply (difference_consistent comparex px).
  intros p q Hp Hq. apply (differences_fit_spec l H p q Hp Hq).
Qed.

Lemma comparey_consistent l :
  differences_fit l = true -> consistent_on comparey l.
Proof.
  intros H. apply (difference_consistent comparey py).
  intros p q Hp Hq. apply (differences_fit_spec l H p q Hp Hq).
Qed.

(** ** Facts about the classifier *)



Lemma psort_anchors qsort a b c d dir :
  psort qsort (anchors_of a b c d) dir
  = mkpixelset
      (qsort (match dir with DIR_X => comparex | DIR_Y => comparey end)
             [a; b; c; d]) 4.
Proof. unfold psort, anchors_of; simpl. now rewrite app_nil_r. Qed.

(** [projectable] on the anchors of [gui.c] is determined by the contract of
    [qsort] when the three comparisons are total orders on the anchors. *)
Lemma projectable_determined qsort a b c d :
  qsort_contract qsort ->
  total_order_on comparex [a; b; c; d] = true ->
  total_order_on comparey [a; b; c; d] = true ->
  total_order_on (compare_angle a (barycentre a b c d)) [a; b; c; d] = true ->
  projectable qsort (anchors_of a b c d)
  = projectable insertion_sort (anchors_of a b c d).
Proof.
  intros Hq Hx Hy Ha.
  unfold projectable, diagonal_case, angular_order.
  rewrite !psort_anchors.
  change (pix (anchors_of a b c d) 0) with a.
  change (pix (anchors_of a b c d) 1) with b.
  change (pix (anchors_of a b c d) 2) with c.
  change (pix (anchors_of a b c d) 3) with d.
  rewrite (qsort_determined qsort comparex _ Hq Hx).
  rewrite (qsort_determined qsort comparey _ Hq Hy).
  rewrite (qsort_determined qsort _ _ Hq Ha).
  reflexivity.
Qed.

(** The corner sequence (bl, br, tr, tl) of an assignment. *)
Definition corners (r : rect) : list pixel := [bl r; br r; tr r; tl r].

(** [s] reads [o] cyclically from some starting index. *)
Definition is_rotation (s o : list pixel) : Prop :=
  exists k, (k < length o)%nat /\ s = skipn k o ++ firstn k o.

Ltac pixel_cases :=
  repeat match goal with
  | |- context [pixel_eqb ?p ?p] => rewrite (pixel_eqb_refl p)
  | H : ?p <> ?q |- context [pixel_eqb ?p ?q] =>
      rewrite (pixel_eqb_neq p q H)
  | H : ?q <> ?p |- context [pixel_eqb ?p ?q] =>
      rewrite (pixel_eqb_neq p q (not_eq_sym H))
  end.

Lemma NoDup4_inv (o0 o1 o2 o3 : pixel) :
  NoDup [o0; o1; o2; o3] ->
  o0 <> o1 /\ o0 <> o2 /\ o0 <> o3 /\ o1 <> o2 /\ o1 <> o3 /\ o2 <> o3.
Proof.
  intros H.
  inversion H as [|? ? H0 H']; subst.
  inversion H' as [|? ? H1 H'']; subst.
  inversion H'' as [|? ? H2 _]; subst.
  simpl in *. intuition congruence.
Qed.

(** [check_order] decides whether (bl, br, tr, tl) is a rotation of [order],
    for an order without repetition that contains [bl]. *)
Lemma check_order_rotation o0 o1 o2 o3 bl0 br0 tr0 tl0 :
  NoDup [o0; o1; o2; o3] -> In bl0 [o0; o1; o2; o3] ->
  check_order (mkpixelset [o0; o1; o2; o3] 4) bl0 br0 tr0 tl0 = true
  <-> is_rotation [bl0; br0; tr0; tl0] [o0; o1; o2; o3].
Proof.
  intros Hnd Hin. apply NoDup4_inv in Hnd.
  destruct Hnd as (H01 & H02 & H03 & H12 & H13 & H23).
  unfold check_order, CMP_PIXEL, is_rotation; simpl count; simpl length.
  assert (Hrot : forall s : list pixel,
    (exists k, (k < 4)%nat /\ s = skipn k [o0; o1; o2; o3] ++ firstn k [o0; o1; o2; o3])
    <-> s = [o0; o1; o2; o3] \/ s = [o1; o2; o3; o0]
        \/ s = [o2; o3; o0; o1] \/ s = [o3; o0; o1; o2]).
  { intros s. split.
    - intros (k & Hk & ->).
      destruct k as [|[|[|[|k]]]]; simpl; auto. lia.
    - intros [ -> | [ -> | [ -> | -> ] ] ];
        [exists 0%nat|exists 1%nat|exists 2%nat|exists 3%nat]; simpl; split; auto; lia. }
  rewrite Hrot. clear Hrot.
  destruct Hin as [ <- | [ <- | [ <- | [ <- | [] ] ] ] ].
  - replace (find_bl _ _ _ _) with 0%nat
      by (cbn [find_bl Nat.modulo Nat.divmod snd fst Nat.sub pix pixels nth];
          pixel_cases; reflexivity).
    cbn [Nat.add Nat.modulo Nat.divmod snd fst Nat.sub pix pixels nth].
    rewrite !andb_true_iff, !pixel_eqb_eq.
    split;
     [ intros [[-> ->] ->]; auto
     | intros [H|[H|[H|H]]]; inversion H; subst; auto; congruence ].
  - replace (find_bl _ _ _ _) with 1%nat
      by (cbn [find_bl Nat.modulo Nat.divmod snd fst Nat.sub pix pixels nth];
          pixel_cases; reflexivity).
    cbn [Nat.add Nat.modulo Nat.divmod snd fst Nat.sub pix pixels nth].
    rewrite !andb_true_iff, !pixel_eqb_eq.
    split;
     [ intros [[-> ->] ->]; auto
     | intros [H|[H|[H|H]]]; inversion H; subst; auto; congruence ].
  - replace (find_bl _ _ _ _) with 2%nat
      by (cbn [find_bl Nat.modulo Nat.divmod snd fst Nat.sub pix pixels nth];
          pixel_cases; reflexivity).
    cbn [Nat.add Nat.modulo Nat.divmod snd fst Nat.sub pix pixels nth].
    rewrite !andb_true_iff, !pixel_eqb_eq.
    split;
     [ intros [[-> ->] ->]; auto
     | intros [H|[H|[H|H]]]; inversion H; subst; auto; congruence ].
  - replace (find_bl _ _ _ _) with 3%nat
      by (cbn [find_bl Nat.modulo Nat.divmod snd fst Nat.sub pix pixels nth];
          pixel_cases; reflexivity).
    cbn [Nat.add Nat.modulo Nat.divmod snd fst Nat.sub pix pixels nth].
    rewrite !andb_true_iff, !pixel_eqb_eq.
    split;
     [ intros [[-> ->] ->]; auto
     | intros [H|[H|[H|H]]]; inversion H; subst; auto; congruence ].
Qed.

(** Under a permuting [qsort], the sorted anchors are four of the anchors. *)
Lemma sorted_anchors_inv
  (qsort : (pixel -> pixel -> Z) -> list pixel -> list pixel) cmp a b c d :
  (forall cmp l, Permutation l (qsort cmp l)) ->
  exists p0 p1 p2 p3,
    qsort cmp [a; b; c; d] = [p0; p1; p2; p3]
    /\ Permutation [a; b; c; d] [p0; p1; p2; p3].
Proof.
  intros Hp. pose proof (Hp cmp [a; b; c; d]) as H.
  pose proof (Permutation_length H) as Hl.
  destruct (qsort cmp [a; b; c; d]) as [|p0 [|p1 [|p2 [|p3 [|p4 l]]]]];
    try discriminate.
  now exists p0, p1, p2, p3.
Qed.

Lemma perm4_in (a b c d p0 p1 p2 p3 : pixel) :
  Permutation [a; b; c; d] [p0; p1; p2; p3] ->
  In p0 [a; b; c; d] /\ In p1 [a; b; c; d]
  /\ In p2 [a; b; c; d] /\ In p3 [a; b; c; d].
Proof.
  intros H. apply Permutation_sym in H.
  repeat split; apply (Permutation_in _ H); simpl; auto.
Qed.





(** ** The classifier: accepted and rejected anchors *)

(** Inputs of [tests/tests.c], and variations of them. *)
Definition anchors_square : pixelset :=
  anchors_of (mkpixel 0 0) (mkpixel 1 0) (mkpixel 1 1) (mkpixel 0 1).
Definition anchors_ambiguous : pixelset :=
  anchors_of (mkpixel (-2) 1) (mkpixel (-1) 2) (mkpixel 2 (-1)) (mkpixel 1 (-2)).
Definition anchors_order_dependent : pixelset :=
  anchors_of (mkpixel 0 0) (mkpixel 3 2) (mkpixel 4 3) (mkpixel 1 1).
Definition anchors_three_aligned : pixelset :=
  anchors_of (mkpixel 0 0) (mkpixel 2 0) (mkpixel 2 2) (mkpixel 1 1).
(** The test named Middle pair aligned on X, mirrored in x and with its two
    pixels of equal x moved apart. *)
Definition anchors_low_pair_level : pixelset :=
  anchors_of (mkpixel (-2) 0) (mkpixel (-1) 0) (mkpixel 0 1) (mkpixel 1 (-1)).

(** The expectations of [tests/tests.c] ([test_project]), in its order. *)
Example tests_c_expectations :
  let t a b c d e f g h :=
    match projectable insertion_sort
            (anchors_of (mkpixel a b) (mkpixel c d) (mkpixel e f) (mkpixel g h))
    with Some _ => true | None => false end in
  [ t 0 0 1 2 1 3 0 1; t 0 0 1 0 3 1 2 1; t 0 0 3 2 2 2 0 1;
    t 0 1 0 (-1) 1 0 2 0; t (-1) 0 1 0 0 1 0 2; t (-1) 0 0 1 1 0 0 (-1);
    t 0 0 1 0 1 1 0 1; t 0 0 2 0 2 2 1 1; t 0 0 3 2 4 3 1 1;
    t (-2) 1 (-1) 2 2 (-1) 1 (-2); t 0 0 0 0 0 1 1 1; t 0 0 1 1 2 2 3 3 ]
  = [ true; true; false; false; false; false;
      true; true; true; false; false; false ].
Proof. vm_compute. reflexivity. Qed.


(** The same rejection under every conforming [qsort]. *)
Lemma separated_pairs_rejected_any_qsort qsort :
  qsort_contract qsort -> projectable qsort anchors_ambiguous = None.
Proof.
  intros Hq. unfold anchors_ambiguous.
  rewrite (projectable_determined qsort); auto; vm_compute; reflexivity.
Qed.





Lemma NoDup_order_dependent :
  NoDup [mkpixel 0 0; mkpixel 3 2; mkpixel 4 3; mkpixel 1 1].
Proof. repeat constructor; simpl; intuition discriminate. Qed.


(** C4, on the code: the anchors of the test named Order dependent reach the
    third branch, the directions of its first and third anchors from the
    barycentre are OPPOSED, and [projectable] accepts under every conforming
    [qsort]: [pos] returns a single enumerator, which never equals the mask
    [UNDESIRED], so the pairwise rejection cannot fire. *)
Theorem C4_opposed_pair_accepted :
  let a := mkpixel 0 0 in
  let b := mkpixel 3 2 in
  let c := mkpixel 4 3 in
  let d := mkpixel 1 1 in
  let bar := barycentre a b c d in
  let xs := psort insertion_sort anchors_order_dependent DIR_X in
  let ys := psort insertion_sort anchors_order_dependent DIR_Y in
  direct_case xs = false
  /\ split_axis_case xs ys = false
  /\ pos (rel bar a) (rel bar c) = OPPOSED
  /\ pos (rel bar b) (rel bar d) = OPPOSED
  /\ (forall p, position_code p <> UNDESIRED)
  /\ (forall qsort, qsort_contract qsort ->
        projectable qsort anchors_order_dependent
        = Some (mkrect a b c d)).
Proof.
  cbv zeta.
  split; [vm_compute; reflexivity|]. split; [vm_compute; reflexivity|].
  split; [vm_compute; reflexivity|]. split; [vm_compute; reflexivity|].
  split.
  - intros p. destruct p; discriminate.
  - intros qsort Hq. unfold anchors_order_dependent.
    rewrite (projectable_determined qsort); auto; vm_compute; reflexivity.
Qed.

(** With insertion sort as [qsort], anchors whose fourth pixel is the
    barycentre (its direction is UNDEF against every other), and four
    anchors on one line, are accepted as well. *)
Example undefined_pairs_accepted :
  let a := mkpixel 0 0 in
  let b := mkpixel 1 0 in
  let c := mkpixel 5 3 in
  let d := mkpixel 2 1 in
  let bar := barycentre a b c d in
  pos (rel bar a) (rel bar d) = UNDEF
  /\ projectable insertion_sort (anchors_of a b c d)
     = Some (mkrect a b c d)
  /\ projectable insertion_sort
       (anchors_of (mkpixel 0 0) (mkpixel 1 1) (mkpixel 5 5) (mkpixel 2 2))
     = Some (mkrect (mkpixel 0 0) (mkpixel 1 1) (mkpixel 5 5) (mkpixel 2 2)).
Proof. cbv zeta. repeat split; vm_compute; reflexivity. Qed.

(** A pixel pair on the x split axis is always rejected. *)
Lemma middle_x_equal_rejected
  (qsort : (pixel -> pixel -> Z) -> list pixel -> list pixel)
  (anchors : pixelset) :
  px (pix (psort qsort anchors DIR_X) 1) = px (pix (psort qsort anchors DIR_X) 2) ->
  projectable qsort anchors = None.
Proof.
  intros H. unfold projectable, direct_case, split_axis_case.
  apply Z.eqb_eq in H. rewrite H. reflexivity.
Qed.

(** The test named Middle pair aligned on X is rejected; its mirror image in
    x is accepted. *)
Example mirrored_test_accepted :
  projectable insertion_sort
    (anchors_of (mkpixel 0 1) (mkpixel 0 (-1)) (mkpixel 1 0) (mkpixel 2 0))
  = None
  /\ projectable insertion_sort
       (anchors_of (mkpixel 0 1) (mkpixel 0 (-1)) (mkpixel (-1) 0)
                   (mkpixel (-2) 0))
     = Some (mkrect (mkpixel (-1) 0) (mkpixel 0 (-1)) (mkpixel 0 1)
                    (mkpixel (-2) 0)).
Proof. split; vm_compute; reflexivity. Qed.

(** C5, on the code: four distinct pixels whose two middle y-values are equal
    (the x-low pair is level, the x-high pair straddles it) are accepted by
    the first branch, which tests the y-values of the x-high pair only. *)
Theorem C5_level_low_pair_accepted :
  NoDup (pixels anchors_low_pair_level)
  /\ forall qsort, qsort_contract qsort ->
       py (pix (psort qsort anchors_low_pair_level DIR_Y) 1)
       = py (pix (psort qsort anchors_low_pair_level DIR_Y) 2)
       /\ projectable qsort anchors_low_pair_level
          = Some (mkrect (mkpixel (-1) 0) (mkpixel 1 (-1))
                         (mkpixel 0 1) (mkpixel (-2) 0)).
Proof.
  split.
  - repeat constructor; simpl; intuition discriminate.
  - intros qsort Hq.
    assert (Hx : qsort comparex (pixels anchors_low_pair_level)
                 = insertion_sort comparex (pixels anchors_low_pair_level)).
    { apply qsort_determined; auto. }
    split.
    + unfold anchors_low_pair_level. rewrite psort_anchors.
      destruct (Hq comparey [mkpixel (-2) 0; mkpixel (-1) 0; mkpixel 0 1;
                             mkpixel 1 (-1)]) as [Hp Hs].
      assert (Hfit : differences_fit
                       [mkpixel (-2) 0; mkpixel (-1) 0; mkpixel 0 1;
                        mkpixel 1 (-1)] = true) by reflexivity.
      specialize (Hs (comparey_consistent _ Hfit)).
      assert (Hm : map py (qsort comparey
                     [mkpixel (-2) 0; mkpixel (-1) 0; mkpixel 0 1; mkpixel 1 (-1)])
                   = [-1; 0; 0; 1]).
      { symmetry. apply (sorted_perm_unique Z.le).
        - intros; lia.
        - eapply perm_trans; [|apply Permutation_map, Hp].
          simpl. apply (Permutation_app_comm [-1] [0; 0; 1]).
        - repeat constructor; lia.
        - apply (difference_sorted comparey py); [|exact Hs].
          intros p q Hin Hin'.
          apply (differences_fit_spec _ (differences_fit_perm _ _ Hp Hfit)
                   p q Hin Hin'). }
      destruct (qsort comparey _) as [|q0 [|q1 [|q2 [|q3 l]]]]; try discriminate.
      simpl in Hm. unfold pix; simpl. congruence.
    + unfold projectable.
      assert (Hd : direct_case (psort qsort anchors_low_pair_level DIR_X) = true).
      { unfold anchors_low_pair_level at 1. rewrite psort_anchors.
        unfold anchors_low_pair_level in Hx. simpl pixels in Hx. rewrite Hx.
        vm_compute. reflexivity. }
      rewrite Hd. f_equal.
      unfold anchors_low_pair_level at 1. rewrite psort_anchors.
      unfold anchors_low_pair_level in Hx. simpl pixels in Hx. rewrite Hx.
      vm_compute. reflexivity.
Qed.

(** ** The estimator *)

(** A decomposition whose V has the given last column. *)
Definition decomposition_with_last_column {S : Type} {scalar : Scalar S}
  (m : list S) : list S -> list S :=
  fun _ => flat_map (fun c => repeat s_zero 8 ++ [c]) m.

(** A matrix divided by its norm: the last column of V has norm one. *)
Definition normalised (m : list float) : list float :=
  let n := PrimFloat.sqrt
             (fold_right (fun e acc => PrimFloat.add (PrimFloat.mul e e) acc)
                         PrimFloat.zero m) in
  map (fun e => PrimFloat.div e n) m.

(** The matrix of (x, y) -> (10^8 (x - 10^8), 10^8 (y - 10^8)), which sends
    the unit square at offset 10^8 to the square of side 10^8. *)
Definition matrix_far_square : list float :=
  map double_of_coord
      [100000000; 0; -10000000000000000;
       0; 100000000; -10000000000000000;
       0; 0; 1].

(** What [project] returns depends on the rounding of the entries of the
    matrix, so on the scale that the decomposition gives to the last column
    of V: [matrix_far_square] sends the four corners of the unit square at
    offset 10^8, which [projectable] accepts, to the corners of the
    destination of side 10^8; divided by its norm, it sends br to
    (99999999, 0). *)
Example project_depends_on_rounding :
  let t := 100000000 in
  let corners := [(t, t); (t + 1, t); (t + 1, t + 1); (t, t + 1)] in
  projectable insertion_sort
    (anchors_of (mkpixel t t) (mkpixel (t + 1) t) (mkpixel (t + 1) (t + 1))
                (mkpixel t (t + 1)))
  = Some (mkrect (mkpixel t t) (mkpixel (t + 1) t) (mkpixel (t + 1) (t + 1))
                 (mkpixel t (t + 1)))
  /\ map (fun c => project matrix_far_square (fst c) (snd c)) corners
     = [Some (0, 0); Some (t, 0); Some (t, t); Some (0, t)]
  /\ map (fun c => project (normalised matrix_far_square) (fst c) (snd c))
         corners
     = [Some (0, 0); Some (99999999, 0); Some (99999999, 99999999);
        Some (0, 99999999)].
Proof.
  cbv zeta. split; [vm_compute; reflexivity|].
  split; vm_compute; reflexivity.
Qed.

(** ** Facts about the scan order *)

(** The order of the loops: x first, then y. *)
Definition lex_lt (p q : Z * Z) : Prop :=
  fst p < fst q \/ (fst p = fst q /\ snd p < snd q).

Definition lex_le (p q : Z * Z) : Prop := p = q \/ lex_lt p q.

Lemma In_upto n k : In k (upto n) <-> 0 <= k < n.
Proof.
  unfold upto. rewrite in_map_iff. split.
  - intros (i & <- & Hi). apply in_seq in Hi. lia.
  - intros Hk. exists (Z.to_nat k). split; [lia|]. apply in_seq. lia.
Qed.

Lemma In_zrange lo hi k : In k (zrange lo hi) <-> lo <= k <= hi.
Proof.
  unfold zrange. rewrite in_map_iff. split.
  - intros (i & <- & Hi). apply in_seq in Hi. lia.
  - intros Hk. exists (Z.to_nat (k - lo)). split; [lia|]. apply in_seq. lia.
Qed.

Lemma In_scan w h x y : In (x, y) (scan w h) <-> 0 <= x < w /\ 0 <= y < h.
Proof.
  unfold scan. rewrite in_flat_map. split.
  - intros (x' & Hx & Hy). apply in_map_iff in Hy.
    destruct Hy as (y' & E & Hy). inversion E; subst.
    apply In_upto in Hx, Hy. tauto.
  - intros [Hx Hy]. exists x. split; [now apply In_upto|].
    apply in_map_iff. exists y. split; [reflexivity|now apply In_upto].
Qed.

Lemma StronglySorted_app_intro {A : Type} (R : A -> A -> Prop) (l1 l2 : list A) :
  StronglySorted R l1 -> StronglySorted R l2 ->
  (forall a b, In a l1 -> In b l2 -> R a b) ->
  StronglySorted R (l1 ++ l2).
Proof.
  intros H1 H2 H. induction H1 as [|a l1 H1 IH Ha]; simpl; [assumption|].
  constructor.
  - apply IH. intros u v Hu Hv. apply H; simpl; auto.
  - rewrite Forall_forall in *. intros z Hz. apply in_app_or in Hz.
    destruct Hz as [Hz|Hz]; [auto|]. apply H; simpl; auto.
Qed.

Lemma seq_sorted start len :
  StronglySorted Z.lt (map Z.of_nat (seq start len)).
Proof.
  revert start. induction len as [|len IH]; intros start; simpl; constructor.
  - apply IH.
  - rewrite Forall_forall. intros z Hz. apply in_map_iff in Hz.
    destruct Hz as (i & <- & Hi). apply in_seq in Hi. lia.
Qed.

Lemma upto_sorted n : StronglySorted Z.lt (upto n).
Proof. apply seq_sorted. Qed.

Lemma column_sorted x (ys : list Z) :
  StronglySorted Z.lt ys -> StronglySorted lex_lt (map (fun y => (x, y)) ys).
Proof.
  induction 1 as [|y ys Hs IH Hy]; simpl; constructor; [assumption|].
  rewrite Forall_forall in *. intros z Hz. apply in_map_iff in Hz.
  destruct Hz as (y' & <- & Hy'). right. simpl. split; [reflexivity|auto].
Qed.

Lemma columns_sorted (xs ys : list Z) :
  StronglySorted Z.lt xs -> StronglySorted Z.lt ys ->
  StronglySorted lex_lt (flat_map (fun x => map (fun y => (x, y)) ys) xs).
Proof.
  intros Hx Hy. induction Hx as [|x xs Hs IH Hf]; simpl; [constructor|].
  apply StronglySorted_app_intro.
  - now apply column_sorted.
  - exact IH.
  - intros a b Ha Hb. apply in_map_iff in Ha. destruct Ha as (y & <- & _).
    apply in_flat_map in Hb. destruct Hb as (x' & Hx' & Hb).
    apply in_map_iff in Hb. destruct Hb as (y' & <- & _).
    left. simpl. rewrite Forall_forall in Hf. auto.
Qed.

(** The loops visit the pixels in increasing lexicographic order of (x, y). *)
Lemma scan_sorted w h : StronglySorted lex_lt (scan w h).
Proof. apply columns_sorted; apply upto_sorted. Qed.

Lemma lex_lt_irrefl p : ~ lex_lt p p.
Proof. unfold lex_lt. lia. Qed.

Lemma sorted_NoDup (l : list (Z * Z)) : StronglySorted lex_lt l -> NoDup l.
Proof.
  induction 1 as [|p l Hs IH Hf]; constructor; [|assumption].
  intros Hin. rewrite Forall_forall in Hf. apply (lex_lt_irrefl p). auto.
Qed.

(** Cells of a raster of positive width have distinct indices. *)
Lemma index_injective W i j i' j' :
  0 <= i < W -> 0 <= i' < W -> j * W + i = j' * W + i' -> i = i' /\ j = j'.
Proof.
  intros Hi Hi' E.
  assert (Hj : j = j') by nia.
  subst. split; lia.
Qed.

(** ** Facts about the forward mapping *)

Section ForwardPass.

Variable transform_matrix : list float.
Variables sink_width sink_height : coord.
Variable bg_data : buffer color.
Variables bg_width bg_height : coord.

(** The index written for the source pixel [p], if any. *)
Definition dest_index (p : Z * Z) : option Z :=
  match project transform_matrix (fst p) (snd p) with
  | Some (x2, y2) =>
      if in_sink sink_width sink_height x2 y2
      then Some (y2 * sink_width + x2) else None
  | None => None
  end.

Definition writes (p : Z * Z) (k : Z) : bool :=
  match dest_index p with
  | Some k' => k' =? k
  | None => false
  end.

(** The last pixel of [l] that writes the index [k]. *)
Fixpoint last_writer (l : list (Z * Z)) (k : Z) : option (Z * Z) :=
  match l with
  | [] => None
  | p :: l' =>
      match last_writer l' k with
      | Some q => Some q
      | None => if writes p k then Some p else None
      end
  end.

Lemma forward_pixel_at st p st' k :
  forward_pixel transform_matrix sink_width sink_height bg_data bg_width st p
  = Some st' ->
  if writes p k
  then sink_data st' k = bg_data (snd p * bg_width + fst p)
       /\ transformed_mask st' k = true
  else sink_data st' k = sink_data st k
       /\ transformed_mask st' k = transformed_mask st k.
Proof.
  destruct p as [x y]. unfold forward_pixel, writes, dest_index; simpl.
  destruct (project transform_matrix x y) as [[x2 y2]|]; [|discriminate].
  destruct (in_sink sink_width sink_height x2 y2).
  - intros E; inversion E; subst; clear E. simpl. unfold store.
    rewrite (Z.eqb_sym k). destruct (y2 * sink_width + x2 =? k); auto.
  - intros E; inversion E; subst; auto.
Qed.

Lemma for_each_forward l : forall st st' k,
  for_each l (forward_pixel transform_matrix sink_width sink_height
                            bg_data bg_width) st = Some st' ->
  match last_writer l k with
  | Some p => sink_data st' k = bg_data (snd p * bg_width + fst p)
              /\ transformed_mask st' k = true
  | None => sink_data st' k = sink_data st k
            /\ transformed_mask st' k = transformed_mask st k
  end.
Proof.
  induction l as [|p l IH]; intros st st' k; simpl.
  - intros E; inversion E; auto.
  - destruct (forward_pixel _ _ _ _ _ st p) as [st1|] eqn:E1; [|discriminate].
    intros E. specialize (IH st1 st' k E).
    pose proof (forward_pixel_at st p st1 k E1) as H1.
    destruct (last_writer l k) as [q|]; [exact IH|].
    destruct (writes p k); destruct IH as [-> ->]; exact H1.
Qed.

Lemma last_writer_sorted l k :
  StronglySorted lex_lt l ->
  match last_writer l k with
  | Some p => In p l /\ writes p k = true
              /\ forall q, In q l -> writes q k = true -> lex_le q p
  | None => forall q, In q l -> writes q k = false
  end.
Proof.
  induction 1 as [|a l Hs IH Hf]; simpl.
  - intros q [].
  - rewrite Forall_forall in Hf.
    destruct (last_writer l k) as [p|].
    + destruct IH as (Hin & Hw & Hmax). repeat split; auto.
      intros q [<-|Hq] Hq'; [right; auto|auto].
    + destruct (writes a k) eqn:Ha.
      * repeat split; auto.
        intros q [<-|Hq] Hq'; [now left|]. rewrite (IH q Hq) in Hq'. discriminate.
      * intros q [<-|Hq]; auto.
Qed.

Lemma lex_le_antisym p q : lex_le p q -> lex_le q p -> p = q.
Proof.
  unfold lex_le, lex_lt. destruct p, q; simpl.
  intros [E|H1] [E'|H2]; try congruence; lia.
Qed.

Lemma dest_index_in_sink p k :
  dest_index p = Some k ->
  exists i j, project transform_matrix (fst p) (snd p) = Some (i, j)
              /\ 0 <= i < sink_width /\ 0 <= j < sink_height
              /\ k = j * sink_width + i.
Proof.
  unfold dest_index.
  destruct (project _ _ _) as [[x2 y2]|]; [|discriminate].
  destruct (in_sink _ _ x2 y2) eqn:Hin; [|discriminate].
  intros E; inversion E; subst. exists x2, y2.
  unfold in_sink in Hin. rewrite !andb_true_iff in Hin.
  destruct Hin as [[[H1 H2] H3] H4]. repeat split; auto; lia.
Qed.

Lemma writes_cell p i j :
  0 <= i < sink_width -> 0 <= j < sink_height ->
  (writes p (j * sink_width + i) = true
   <-> project transform_matrix (fst p) (snd p) = Some (i, j)).
Proof.
  intros Hi Hj. unfold writes. split.
  - destruct (dest_index p) as [k|] eqn:E; [|discriminate].
    intros Hk. apply Z.eqb_eq in Hk. subst k.
    apply dest_index_in_sink in E.
    destruct E as (i' & j' & Hp & Hi' & Hj' & E).
    destruct (index_injective sink_width i j i' j' Hi Hi' E) as [-> ->].
    exact Hp.
  - intros Hp. unfold dest_index. rewrite Hp.
    unfold in_sink.
    replace (i >=? 0) with true by (symmetry; apply Z.geb_le; lia).
    replace (j >=? 0) with true by (symmetry; apply Z.geb_le; lia).
    replace (i <? sink_width) with true by (symmetry; apply Z.ltb_lt; lia).
    replace (j <? sink_height) with true by (symmetry; apply Z.ltb_lt; lia).
    simpl. apply Z.eqb_refl.
Qed.

End ForwardPass.

(** [round_magnitude] is the nearest integer, a magnitude halfway between two
    integers going to the larger one. *)
Lemma round_magnitude_nearest m e :
  let n := round_magnitude m e in
  (0 <= e -> n = Zpos m * 2 ^ e)
  /\ (e < 0 ->
      2 * 2 ^ (- e) * n <= 2 * Zpos m + 2 ^ (- e) < 2 * 2 ^ (- e) * (n + 1)).
Proof.
  unfold round_magnitude. split; intros He.
  - replace (0 <=? e) with true by (symmetry; apply Z.leb_le; lia). reflexivity.
  - replace (0 <=? e) with false by (symmetry; apply Z.leb_gt; lia).
    assert (Hd : 0 < 2 ^ (- e)) by (apply Z.pow_pos_nonneg; lia).
    pose proof (Z.div_mod (2 * Zpos m + 2 ^ (- e)) (2 * 2 ^ (- e))) as Hdm.
    pose proof (Z.mod_pos_bound (2 * Zpos m + 2 ^ (- e)) (2 * 2 ^ (- e))) as Hb.
    lia.
Qed.

(** Halfway cases of [round] go away from zero. *)
Example round_to_coord_halfway :
  map round_to_coord
      [PrimFloat.div (double_of_coord 1) (double_of_coord 2);
       PrimFloat.div (double_of_coord (-1)) (double_of_coord 2);
       PrimFloat.div (double_of_coord 5) (double_of_coord 2);
       PrimFloat.div (double_of_coord (-5)) (double_of_coord 2);
       PrimFloat.div (double_of_coord 7) (double_of_coord 5);
       PrimFloat.div (double_of_coord 0) (double_of_coord 0);
       PrimFloat.div (double_of_coord 1) (double_of_coord 0)]
  = [Some 1; Some (-1); Some 3; Some (-3); Some 1; None; None].
Proof. vm_compute. reflexivity. Qed.

(** C6: the forward-mapping pass visits the source pixels in increasing
    lexicographic order of (x, y), x being the outer loop; a source pixel
    goes to the rounded quotients of [project]; after the pass, a cell of the
    destination to which source pixels were sent holds the colour of the
    last of them in that order and is marked, a cell to which none was sent
    is as before, and so is every index that no source pixel reaches within
    the bounds of the destination. *)
Theorem C6_forward_pass_last_in_scan_order
  (transform_matrix : list float) (sink_width sink_height : coord)
  (bg_data : buffer color) (bg_width bg_height : coord) (st st' : sink_state) :
  forward_pass transform_matrix sink_width sink_height
               bg_data bg_width bg_height st = Some st' ->
  (StronglySorted lex_lt (scan bg_width bg_height)
   /\ forall x y, In (x, y) (scan bg_width bg_height)
                  <-> 0 <= x < bg_width /\ 0 <= y < bg_height)
  /\ (forall i j, 0 <= i < sink_width -> 0 <= j < sink_height ->
      (forall x y,
         0 <= x < bg_width -> 0 <= y < bg_height ->
         project transform_matrix x y = Some (i, j) ->
         (forall x' y', 0 <= x' < bg_width -> 0 <= y' < bg_height ->
                        project transform_matrix x' y' = Some (i, j) ->
                        lex_le (x', y') (x, y)) ->
         sink_data st' (j * sink_width + i) = bg_data (y * bg_width + x)
         /\ transformed_mask st' (j * sink_width + i) = true)
      /\ ((forall x y, 0 <= x < bg_width -> 0 <= y < bg_height ->
                       project transform_matrix x y <> Some (i, j)) ->
          sink_data st' (j * sink_width + i) = sink_data st (j * sink_width + i)
          /\ transformed_mask st' (j * sink_width + i)
             = transformed_mask st (j * sink_width + i)))
  /\ (forall k,
      (forall x y, 0 <= x < bg_width -> 0 <= y < bg_height ->
                   dest_index transform_matrix sink_width sink_height (x, y)
                   <> Some k) ->
      sink_data st' k = sink_data st k
      /\ transformed_mask st' k = transformed_mask st k)
  /\ (forall x y k,
      dest_index transform_matrix sink_width sink_height (x, y) = Some k ->
      exists i j, project transform_matrix x y = Some (i, j)
                  /\ 0 <= i < sink_width /\ 0 <= j < sink_height
                  /\ k = j * sink_width + i).
Proof.
  unfold forward_pass. intros Hrun.
  split; [split; [apply scan_sorted|apply In_scan]|].
  assert (Hat : forall k,
    match last_writer transform_matrix sink_width sink_height
                      (scan bg_width bg_height) k with
    | Some p => sink_data st' k = bg_data (snd p * bg_width + fst p)
                /\ transformed_mask st' k = true
    | None => sink_data st' k = sink_data st k
              /\ transformed_mask st' k = transformed_mask st k
    end).
  { intros k. eapply for_each_forward; eauto. }
  assert (Hlw : forall k,
    match last_writer transform_matrix sink_width sink_height
                      (scan bg_width bg_height) k with
    | Some p => In p (scan bg_width bg_height)
                /\ writes transform_matrix sink_width sink_height p k = true
                /\ forall q, In q (scan bg_width bg_height) ->
                     writes transform_matrix sink_width sink_height q k = true ->
                     lex_le q p
    | None => forall q, In q (scan bg_width bg_height) ->
                writes transform_matrix sink_width sink_height q k = false
    end).
  { intros k. apply last_writer_sorted, scan_sorted. }
  split; [|split].
  - intros i j Hi Hj. specialize (Hat (j * sink_width + i)).
    specialize (Hlw (j * sink_width + i)). split.
    + intros x y Hx Hy Hp Hmax.
      destruct (last_writer _ _ _ _ _) as [[x0 y0]|].
      * destruct Hlw as (Hin & Hw & Hq).
        assert (E : (x0, y0) = (x, y)).
        { apply lex_le_antisym.
          - apply In_scan in Hin. apply Hmax; try tauto.
            apply (writes_cell transform_matrix sink_width sink_height
                               (x0, y0) i j Hi Hj). exact Hw.
          - apply Hq; [apply In_scan; tauto|].
            apply (writes_cell transform_matrix sink_width sink_height
                               (x, y) i j Hi Hj). exact Hp. }
        inversion E; subst. exact Hat.
      * assert (Hf : writes transform_matrix sink_width sink_height (x, y)
                            (j * sink_width + i) = false)
          by (apply Hlw, In_scan; tauto).
        assert (Ht : writes transform_matrix sink_width sink_height (x, y)
                            (j * sink_width + i) = true)
          by (apply (writes_cell _ _ _ (x, y) i j Hi Hj); exact Hp).
        congruence.
    + intros Hnone.
      destruct (last_writer _ _ _ _ _) as [[x0 y0]|]; [|exact Hat].
      destruct Hlw as (Hin & Hw & _). apply In_scan in Hin.
      exfalso. apply (Hnone x0 y0); try tauto.
      apply (writes_cell transform_matrix sink_width sink_height
                         (x0, y0) i j Hi Hj). exact Hw.
  - intros k Hnone. specialize (Hat k). specialize (Hlw k).
    destruct (last_writer _ _ _ _ _) as [[x0 y0]|]; [|exact Hat].
    destruct Hlw as (Hin & Hw & _). apply In_scan in Hin.
    exfalso. apply (Hnone x0 y0); try tauto.
    unfold writes in Hw.
    destruct (dest_index _ _ _ (x0, y0)) as [k'|]; [|discriminate].
    apply Z.eqb_eq in Hw. now subst.
  - intros x y k. apply (dest_index_in_sink _ _ _ (x, y) k).
Qed.

(** A source raster whose colours tell the indices apart, and an empty
    destination. *)
Definition bg_demo : buffer color := fun k => mkcolor k (2 * k) (3 * k) 255.
Definition sink_blank : sink_state :=
  mksink (fun _ => mkcolor 0 0 0 0) (fun _ => false).

(** A matrix that sends (x, y) to (x, 0). *)
Definition matrix_flatten : list float :=
  map double_of_coord [1; 0; 0; 0; 0; 0; 0; 0; 1].

(** The theorem applies to a 2x2 source flattened onto the first row of a
    2x2 destination: the cell (0, 0) receives (0, 0) and then (0, 1), and
    keeps the colour of the latter. *)
Lemma C6_forward_pass_last_in_scan_order_witness :
  let st' := match forward_pass matrix_flatten 2 2 bg_demo 2 2 sink_blank with
             | Some s => s
             | None => sink_blank
             end in
  sink_data st' 0 = bg_demo 2 /\ transformed_mask st' 0 = true.
Proof.
  cbv zeta.
  assert (Hrun : forward_pass matrix_flatten 2 2 bg_demo 2 2 sink_blank
                 = Some (match forward_pass matrix_flatten 2 2 bg_demo 2 2
                                 sink_blank with
                         | Some s => s
                         | None => sink_blank
                         end)) by (vm_compute; reflexivity).
  apply (proj1 (proj1 (proj2 (C6_forward_pass_last_in_scan_order
                                matrix_flatten 2 2 bg_demo 2 2 sink_blank _ Hrun))
                      0 0 ltac:(lia) ltac:(lia))
               0 1 ltac:(lia) ltac:(lia)).
  - vm_compute. reflexivity.
  - intros x' y' Hx Hy.
    assert (Hx' : x' = 0 \/ x' = 1) by lia.
    assert (Hy' : y' = 0 \/ y' = 1) by lia.
    destruct Hx' as [-> | ->], Hy' as [-> | ->]; intros E; vm_compute in E;
      try discriminate E.
    + right. right. simpl. lia.
    + now left.
Defined.

(** ** Facts about the gap filling *)

Section GapFilling.

Variable mask : buffer bool.
Variables sink_width sink_height : coord.

(** The cells sampled at one radius, in the order of the loops: the two
    columns of the clipped window, then its two rows. *)
Definition ring_cells (x y radius : coord) : list (Z * Z) :=
  let x_min := clip_low (x - radius) in
  let x_max := clip_high (x + radius) sink_width in
  let y_min := clip_low (y - radius) in
  let y_max := clip_high (y + radius) sink_height in
  flat_map (fun i => map (fun j => (i, j)) (zrange y_min y_max)) [x_min; x_max]
  ++ flat_map (fun j => map (fun i => (i, j)) (zrange x_min x_max)) [y_min; y_max].

(** The border of the window of a radius around (x, y), clipped to the
    raster. *)
Definition on_border (x y radius i j : coord) : Prop :=
  let x_min := Z.max 0 (x - radius) in
  let x_max := Z.min (sink_width - 1) (x + radius) in
  let y_min := Z.max 0 (y - radius) in
  let y_max := Z.min (sink_height - 1) (y + radius) in
  x_min <= i <= x_max /\ y_min <= j <= y_max
  /\ (i = x_min \/ i = x_max \/ j = y_min \/ j = y_max).

Definition accumulate (sink : buffer color) (cells : list (Z * Z))
  (acc : accumulator) : accumulator :=
  fold_left (fun a c => sample mask sink sink_width (fst c) (snd c) a) cells acc.

Definition marked (c : Z * Z) : bool := mask (snd c * sink_width + fst c).

Lemma clip_low_max v : clip_low v = Z.max 0 v.
Proof. unfold clip_low. destruct (Z.ltb_spec v 0); lia. Qed.

Lemma clip_high_min v bound : clip_high v bound = Z.min (bound - 1) v.
Proof.
  unfold clip_high. rewrite Z.geb_leb. destruct (Z.leb_spec bound v); lia.
Qed.

Lemma ring_cells_border x y radius i j :
  0 <= x < sink_width -> 0 <= y < sink_height -> 0 <= radius ->
  (In (i, j) (ring_cells x y radius) <-> on_border x y radius i j).
Proof.
  intros Hx Hy Hr. unfold ring_cells, on_border.
  rewrite !clip_low_max, !clip_high_min. cbv zeta.
  assert (Hxw : Z.max 0 (x - radius) <= Z.min (sink_width - 1) (x + radius))
    by lia.
  assert (Hyw : Z.max 0 (y - radius) <= Z.min (sink_height - 1) (y + radius))
    by lia.
  revert Hxw Hyw.
  set (x_min := Z.max 0 (x - radius)).
  set (x_max := Z.min (sink_width - 1) (x + radius)).
  set (y_min := Z.max 0 (y - radius)).
  set (y_max := Z.min (sink_height - 1) (y + radius)).
  intros Hxw Hyw.
  rewrite in_app_iff, !in_flat_map. split.
  - intros [(i' & Hi' & Hc)|(j' & Hj' & Hc)];
      apply in_map_iff in Hc; destruct Hc as (k & E & Hk);
      inversion E; subst; clear E; apply In_zrange in Hk; simpl in *.
    + destruct Hi' as [ <- | [ <- | [] ] ]; lia.
    + destruct Hj' as [ <- | [ <- | [] ] ]; lia.
  - intros (Hi & Hj & [ -> | [ -> | [ -> | -> ] ] ]).
    + left. exists x_min. split; [simpl; auto|].
      apply in_map_iff. exists j. split; [reflexivity|now apply In_zrange].
    + left. exists x_max. split; [simpl; auto|].
      apply in_map_iff. exists j. split; [reflexivity|now apply In_zrange].
    + right. exists y_min. split; [simpl; auto|].
      apply in_map_iff. exists i. split; [reflexivity|now apply In_zrange].
    + right. exists y_max. split; [simpl; auto|].
      apply in_map_iff. exists i. split; [reflexivity|now apply In_zrange].
Qed.

Lemma sample_unmarked sink i j acc :
  mask (j * sink_width + i) = false -> sample mask sink sink_width i j acc = acc.
Proof. unfold sample. now intros ->. Qed.

Lemma accumulate_unmarked sink cells : forall acc,
  (forall c, In c cells -> marked c = false) ->
  accumulate sink cells acc = acc.
Proof.
  unfold accumulate, marked.
  induction cells as [|c cells IH]; intros acc H; simpl; [reflexivity|].
  rewrite sample_unmarked by (apply H; now left).
  apply IH. intros c' Hc'. apply H. now right.
Qed.

Lemma sample_count_le sink i j acc :
  acc_count acc <= acc_count (sample mask sink sink_width i j acc).
Proof. unfold sample. destruct (mask _); simpl; lia. Qed.

Lemma accumulate_count_le sink cells : forall acc,
  acc_count acc <= acc_count (accumulate sink cells acc).
Proof.
  unfold accumulate.
  induction cells as [|c cells IH]; intros acc; simpl; [lia|].
  apply Z.le_trans with
    (acc_count (sample mask sink sink_width (fst c) (snd c) acc));
    [apply sample_count_le|apply IH].
Qed.

Lemma accumulate_cons sink c cells acc :
  accumulate sink (c :: cells) acc
  = accumulate sink cells (sample mask sink sink_width (fst c) (snd c) acc).
Proof. reflexivity. Qed.

Lemma accumulate_marked sink cells : forall acc c,
  In c cells -> marked c = true ->
  acc_count acc < acc_count (accumulate sink cells acc).
Proof.
  unfold marked.
  induction cells as [|c' cells IH]; intros acc c Hin Hm; [destruct Hin|].
  rewrite accumulate_cons.
  destruct Hin as [E|Hin].
  - subst c'.
    apply Z.lt_le_trans with
      (acc_count (sample mask sink sink_width (fst c) (snd c) acc));
      [|apply accumulate_count_le].
    unfold sample. rewrite Hm. simpl. lia.
  - apply Z.le_lt_trans with
      (acc_count (sample mask sink sink_width (fst c') (snd c') acc));
      [apply sample_count_le|apply (IH _ c Hin Hm)].
Qed.

(** The stepped loop over two distinct bounds runs its body at both. *)
Lemma stepped_two fuel lo hi body acc :
  lo < hi ->
  stepped (S (S (S fuel))) lo hi (hi - lo) body acc
  = Some (body hi (body lo acc)).
Proof.
  intros H. simpl.
  replace (lo <=? hi) with true by (symmetry; apply Z.leb_le; lia).
  replace (lo + (hi - lo)) with hi by lia.
  rewrite Z.leb_refl.
  replace (hi + (hi - lo) <=? hi) with false by (symmetry; apply Z.leb_gt; lia).
  reflexivity.
Qed.

(** With a zero step the loop does not end. *)
Lemma stepped_zero fuel : forall lo hi body acc,
  lo <= hi -> stepped fuel lo hi 0 body acc = None.
Proof.
  induction fuel as [|fuel IH]; intros lo hi body acc H; simpl; [reflexivity|].
  replace (lo <=? hi) with true by (symmetry; apply Z.leb_le; lia).
  rewrite Z.add_0_r. now apply IH.
Qed.

Lemma fold_column sink i ys acc :
  fold_left (fun a' j => sample mask sink sink_width i j a') ys acc
  = accumulate sink (map (fun j => (i, j)) ys) acc.
Proof.
  unfold accumulate. revert acc.
  induction ys as [|j ys IH]; intros acc; simpl; [reflexivity|apply IH].
Qed.

Lemma fold_row sink j xs acc :
  fold_left (fun a' i => sample mask sink sink_width i j a') xs acc
  = accumulate sink (map (fun i => (i, j)) xs) acc.
Proof.
  unfold accumulate. revert acc.
  induction xs as [|i xs IH]; intros acc; simpl; [reflexivity|apply IH].
Qed.

Lemma accumulate_app sink l1 l2 acc :
  accumulate sink (l1 ++ l2) acc = accumulate sink l2 (accumulate sink l1 acc).
Proof. unfold accumulate. apply fold_left_app. Qed.

(** One turn of the radius loop, when the clipped window has two distinct
    columns and two distinct rows. *)
Lemma ring_accumulates fuel sink x y radius acc :
  clip_low (x - radius) < clip_high (x + radius) sink_width ->
  clip_low (y - radius) < clip_high (y + radius) sink_height ->
  ring (S (S (S fuel))) mask sink sink_width sink_height x y radius acc
  = Some (accumulate sink (ring_cells x y radius) acc).
Proof.
  intros Hx Hy. unfold ring, ring_cells.
  rewrite (stepped_two fuel _ _ _ _ Hx).
  rewrite (stepped_two fuel _ _ _ _ Hy).
  rewrite !fold_column, !fold_row. simpl flat_map.
  rewrite !app_nil_r, !accumulate_app. reflexivity.
Qed.

(** In a raster of at least two columns and two rows, the window of any
    radius >= 1 around a cell has two distinct columns and rows. *)
Lemma window_proper bound v radius :
  2 <= bound -> 0 <= v < bound -> 1 <= radius ->
  clip_low (v - radius) < clip_high (v + radius) bound.
Proof.
  intros. rewrite clip_low_max, clip_high_min. lia.
Qed.

End GapFilling.

Section SearchTermination.

Variable mask : buffer bool.
Variables sink_width sink_height : coord.

Definition ring_marked (x y radius : coord) : bool :=
  existsb (marked mask sink_width) (ring_cells sink_width sink_height x y radius).

(** The search returns the sums of the first ring that holds a marked
    pixel, given fuel for the empty rings before it. *)
Lemma search_first_marked_ring sink x y :
  2 <= sink_width -> 2 <= sink_height ->
  0 <= x < sink_width -> 0 <= y < sink_height ->
  forall (n fuel : nat) (radius : coord),
  1 <= radius -> (n + 4 <= fuel)%nat ->
  (forall m, (m < n)%nat -> ring_marked x y (radius + Z.of_nat m) = false) ->
  ring_marked x y (radius + Z.of_nat n) = true ->
  search fuel mask sink sink_width sink_height x y radius acc_zero
  = Some (accumulate mask sink_width sink
            (ring_cells sink_width sink_height x y (radius + Z.of_nat n))
            acc_zero).
Proof.
  intros wide high Hx Hy.
  induction n as [|n IH]; intros fuel radius Hr Hfuel Hempty Hfull.
  - destruct fuel as [|[|[|[|fuel]]]]; try lia.
    replace (radius + Z.of_nat 0) with radius in * by lia.
    cbn [search]. change (acc_count acc_zero =? 0) with true. cbv iota.
    rewrite ring_accumulates by (apply window_proper; assumption).
    unfold ring_marked in Hfull. apply existsb_exists in Hfull.
    destruct Hfull as (c & Hc & Hm).
    pose proof (accumulate_marked mask sink_width sink _ acc_zero c Hc Hm) as Hpos.
    change (acc_count acc_zero) with 0 in Hpos.
    replace (acc_count _ =? 0) with false by (symmetry; apply Z.eqb_neq; lia).
    reflexivity.
  - destruct fuel as [|fuel]; try lia.
    cbn [search]. change (acc_count acc_zero =? 0) with true. cbv iota.
    destruct fuel as [|[|[|fuel]]]; try lia.
    rewrite ring_accumulates by (apply window_proper; assumption).
    rewrite accumulate_unmarked.
    + replace (radius + Z.of_nat (S n)) with (radius + 1 + Z.of_nat n) by lia.
      apply IH; try lia.
      * intros m Hm. replace (radius + 1 + Z.of_nat m)
          with (radius + Z.of_nat (S m)) by lia.
        apply Hempty. lia.
      * replace (radius + 1 + Z.of_nat n) with (radius + Z.of_nat (S n)) by lia.
        exact Hfull.
    + intros c Hc. specialize (Hempty 0%nat ltac:(lia)).
      replace (radius + Z.of_nat 0) with radius in Hempty by lia.
      unfold ring_marked in Hempty.
      destruct (marked mask sink_width c) eqn:E; [|reflexivity].
      assert (Ht : existsb (marked mask sink_width)
                     (ring_cells sink_width sink_height x y radius) = true)
        by (apply existsb_exists; eauto).
      congruence.
Qed.

(** The least index at which a test succeeds, below one where it does. *)
Lemma least_true (P : nat -> bool) (k : nat) :
  P k = true ->
  exists n, (n <= k)%nat /\ P n = true /\ forall m, (m < n)%nat -> P m = false.
Proof.
  intros Hk.
  assert (H : forall j, (forall m, (m < j)%nat -> P m = false)
                        \/ exists n, (n < j)%nat /\ P n = true
                                     /\ forall m, (m < n)%nat -> P m = false).
  { induction j as [|j [IH|IH]].
    - left. intros m Hm. lia.
    - destruct (P j) eqn:E.
      + right. exists j. repeat split; auto.
      + left. intros m Hm. destruct (Nat.eq_dec m j) as [->|Hne]; auto.
        apply IH. lia.
    - right. destruct IH as (n & Hn & Hp & Hl). exists n. repeat split; auto. }
  destruct (H k) as [Hnone|(n & Hn & Hp & Hl)].
  - exists k. repeat split; auto.
  - exists n. repeat split; auto. lia.
Qed.

(** A marked pixel other than (x, y) lies on the border of the window whose
    radius is its distance to (x, y). *)
Lemma marked_on_some_border x y i j :
  0 <= x < sink_width -> 0 <= y < sink_height ->
  0 <= i < sink_width -> 0 <= j < sink_height ->
  mask (y * sink_width + x) = false -> mask (j * sink_width + i) = true ->
  let d := Z.max (Z.abs (i - x)) (Z.abs (j - y)) in
  1 <= d /\ on_border sink_width sink_height x y d i j.
Proof.
  intros Hx Hy Hi Hj Hu Hm d.
  assert (Hne : i <> x \/ j <> y).
  { destruct (Z.eq_dec i x) as [->|]; [|now left].
    destruct (Z.eq_dec j y) as [->|]; [|now right]. congruence. }
  unfold on_border, d. lia.
Qed.

(** The first ring that holds a marked pixel, and a bound on its radius. *)
Lemma first_marked_ring_exists x y :
  0 <= x < sink_width -> 0 <= y < sink_height ->
  mask (y * sink_width + x) = false ->
  (exists i j, 0 <= i < sink_width /\ 0 <= j < sink_height
               /\ mask (j * sink_width + i) = true) ->
  exists n : nat,
    1 + Z.of_nat n <= Z.max (sink_width - 1) (sink_height - 1)
    /\ ring_marked x y (1 + Z.of_nat n) = true
    /\ forall m, (m < n)%nat -> ring_marked x y (1 + Z.of_nat m) = false.
Proof.
  intros Hx Hy Hu (i & j & Hi & Hj & Hm).
  destruct (marked_on_some_border x y i j Hx Hy Hi Hj Hu Hm) as [Hd Hb].
  set (d := Z.max (Z.abs (i - x)) (Z.abs (j - y))) in *.
  set (P := fun n : nat => ring_marked x y (1 + Z.of_nat n)).
  assert (HP : P (Z.to_nat (d - 1)) = true).
  { unfold P, ring_marked. apply existsb_exists. exists (i, j). split.
    - apply ring_cells_border; try lia.
      replace (1 + Z.of_nat (Z.to_nat (d - 1))) with d by lia. exact Hb.
    - exact Hm. }
  destruct (least_true P _ HP) as (n & Hle & Hn & Hless).
  exists n. repeat split; auto. unfold d in *. lia.
Qed.

End SearchTermination.

(** With a window of a single column the search does not end, whatever the
    fuel. *)
Lemma search_single_column fuel mask sink sink_width sink_height x y radius :
  clip_low (x - radius) = clip_high (x + radius) sink_width ->
  search fuel mask sink sink_width sink_height x y radius acc_zero = None.
Proof.
  intros E. destruct fuel as [|fuel]; [reflexivity|].
  cbn [search]. change (acc_count acc_zero =? 0) with true. cbv iota.
  unfold ring. rewrite E, Z.sub_diag.
  rewrite stepped_zero by lia. reflexivity.
Qed.

(** *** The forward pass marks at most one cell per source pixel *)

Definition marked_among (mask : buffer bool) (cells : list Z) : nat :=
  length (filter mask cells).

Lemma store_marked_among (mask : buffer bool) k cells :
  NoDup cells ->
  (marked_among (store mask k true) cells <= S (marked_among mask cells))%nat.
Proof.
  unfold marked_among. induction 1 as [|c cells Hnotin Hnd IH]; simpl; [lia|].
  unfold store at 1. destruct (Z.eqb_spec c k) as [->|Hne].
  - assert (E : filter (store mask k true) cells = filter mask cells).
    { apply filter_ext_in. intros c' Hc'. unfold store.
      destruct (Z.eqb_spec c' k) as [->|_]; [contradiction|reflexivity]. }
    rewrite E. destruct (mask k); simpl; lia.
  - destruct (mask c); simpl; lia.
Qed.

Lemma for_each_forward_marked_among transform_matrix sink_width sink_height
  bg_data bg_width cells l :
  NoDup cells ->
  forall st st',
  for_each l (forward_pixel transform_matrix sink_width sink_height
                            bg_data bg_width) st = Some st' ->
  (marked_among (transformed_mask st') cells
   <= marked_among (transformed_mask st) cells + length l)%nat.
Proof.
  intros Hnd. induction l as [|p l IH]; intros st st' Hrun; simpl in *.
  - inversion Hrun; subst. lia.
  - destruct (forward_pixel _ _ _ _ _ st p) as [st1|] eqn:E1; [|discriminate].
    specialize (IH st1 st' Hrun).
    assert (H1 : (marked_among (transformed_mask st1) cells
                  <= S (marked_among (transformed_mask st) cells))%nat).
    { destruct p as [x y]. unfold forward_pixel in E1.
      destruct (project transform_matrix x y) as [[x2 y2]|]; [|discriminate].
      destruct (in_sink sink_width sink_height x2 y2);
        inversion E1; subst; simpl; [now apply store_marked_among|lia]. }
    lia.
Qed.

Lemma some_unmarked (mask : buffer bool) cells :
  (marked_among mask cells < length cells)%nat ->
  exists k, In k cells /\ mask k = false.
Proof.
  unfold marked_among. induction cells as [|c cells IH]; simpl; [lia|].
  destruct (mask c) eqn:E; simpl; intros H.
  - destruct IH as (k & Hk & Hm); [lia|]. exists k. auto.
  - exists c. auto.
Qed.

Lemma for_each_stuck {A S : Type} (body : S -> A -> option S) (p : A) l :
  In p l -> (forall s, body s p = None) -> forall s, for_each l body s = None.
Proof.
  intros Hin Hp. induction l as [|a l IH]; intros s; [destruct Hin|]. simpl.
  destruct Hin as [->|Hin]; [now rewrite Hp|].
  destruct (body s a); [now apply IH|reflexivity].
Qed.

(** In a destination one pixel wide, the interpolation loops do not end as
    soon as one cell is unmarked. *)
Lemma fill_pass_single_column fuel mask sink_height sink y :
  0 <= y < sink_height -> mask y = false ->
  fill_pass fuel mask 1 sink_height sink = None.
Proof.
  intros Hy Hm. unfold fill_pass.
  apply (for_each_stuck _ (0, y)).
  - apply In_scan. lia.
  - intros s. unfold fill_pixel.
    replace (y * 1 + 0) with y by lia. rewrite Hm.
    rewrite search_single_column by reflexivity. reflexivity.
Qed.

(** Of the four corners of the destination rectangle, to which the
    classified anchors are sent, only (0, 0) is a cell of the destination. *)
Lemma far_corners_outside sink_width sink_height :
  in_sink sink_width sink_height sink_width 0 = false
  /\ in_sink sink_width sink_height sink_width sink_height = false
  /\ in_sink sink_width sink_height 0 sink_height = false.
Proof.
  unfold in_sink. rewrite !Z.ltb_irrefl.
  repeat split; repeat rewrite ?andb_false_r, ?andb_false_l; reflexivity.
Qed.

Lemma projectable_square :
  projectable insertion_sort anchors_square
  = Some (mkrect (mkpixel 0 0) (mkpixel 1 0) (mkpixel 1 1) (mkpixel 0 1)).
Proof. vm_compute. reflexivity. Qed.

(** Whatever the decomposition returns, a 2x2 source marks at most four of
    the five cells of a destination of width 1 and height 5, and the call
    does not return true. *)
Lemma never_returns_1x5 :
  forall svd calloc fuel sink,
    perspector insertion_sort svd calloc fuel (sink_data sink_blank) 1 5
               bg_demo 2 2 anchors_square
    <> Returns_true sink.
Proof.
  intros svd calloc fuel sink. unfold perspector, make_transform_matrix.
  rewrite projectable_square.
  change (1 =? 0) with false. cbv iota.
  change (Z.quot COORD_MAX 1 <? 5) with false. cbv iota.
  change (negb ((INT32_MIN <=? 1 * 5) && (1 * 5 <=? COORD_MAX))) with false.
  cbv iota.
  destruct (calloc _); simpl negb; cbv iota; [|discriminate].
  destruct (forward_pass _ 1 5 bg_demo 2 2 _) as [st|] eqn:Hst; [|discriminate].
  unfold forward_pass in Hst.
  pose proof (for_each_forward_marked_among _ _ _ _ _ [0; 1; 2; 3; 4] _
                ltac:(repeat constructor; simpl; intuition discriminate)
                _ _ Hst) as Hcount.
  change (marked_among (transformed_mask (mksink _ _)) _) with 0%nat in Hcount.
  change (length (scan 2 2)) with 4%nat in Hcount.
  destruct (some_unmarked (transformed_mask st) [0; 1; 2; 3; 4]) as (k & Hk & Hm).
  { simpl length. lia. }
  rewrite (fill_pass_single_column fuel _ 5 _ k); [discriminate| |exact Hm].
  simpl in Hk. lia.
Qed.

(** The matrix of (x, y) -> (x, 5 y), which sends the unit square to the
    rectangle of width 1 and height 5, scaled to norm one. *)
Definition matrix_unit_square_1x5 : list float :=
  let n := PrimFloat.sqrt (double_of_coord 27) in
  map (fun z => PrimFloat.div (double_of_coord z) n) [1; 0; 0; 0; 5; 0; 0; 0; 1].

(** C8, on the code: on a 2x2 source with the unit square as anchors (which
    [projectable] accepts) and a destination of width 1 and height 5, the
    forward pass marks the cell (0, 0) only, and the search for the cell
    (0, 1) never ends: in a window of one column [x_max - x_min] is zero, so
    the loop [for (i = x_min; i <= x_max; i += x_max - x_min)] never leaves
    its first column.  The call does not return true whatever the
    decomposition and the allocator return. *)
Lemma C8_single_column_never_returns :
  let svd := decomposition_with_last_column matrix_unit_square_1x5 in
  (exists v, projectable insertion_sort anchors_square = Some v)
  /\ (exists st,
        forward_pass matrix_unit_square_1x5 1 5 bg_demo 2 2 sink_blank = Some st
        /\ map (transformed_mask st) [0; 1; 2; 3; 4]
           = [true; false; false; false; false]
        /\ forall fuel,
             search fuel (transformed_mask st) (sink_data st) 1 5 0 1 1 acc_zero
             = None)
  /\ (forall fuel,
        perspector insertion_sort svd (fun _ => true) fuel
                   (sink_data sink_blank) 1 5 bg_demo 2 2 anchors_square
        = Out_of_fuel)
  /\ (forall svd' calloc fuel sink,
        perspector insertion_sort svd' calloc fuel
                   (sink_data sink_blank) 1 5 bg_demo 2 2 anchors_square
        <> Returns_true sink).
Proof.
  cbv zeta.
  assert (Hf : exists st,
    forward_pass matrix_unit_square_1x5 1 5 bg_demo 2 2 sink_blank = Some st
    /\ map (transformed_mask st) [0; 1; 2; 3; 4]
       = [true; false; false; false; false]).
  { eexists. split; [vm_compute; reflexivity|]. vm_compute. reflexivity. }
  destruct Hf as (st & Hst & Hmask).
  split; [eexists; vm_compute; reflexivity|split; [|split]].
  2: { intros fuel. unfold perspector.
    replace (make_transform_matrix insertion_sort
               (decomposition_with_last_column matrix_unit_square_1x5)
               anchors_square 1 5)
      with (Some matrix_unit_square_1x5) by (vm_compute; reflexivity).
    cbn [Z.eqb Z.quot Z.ltb negb andb Z.mul Z.leb Z.compare Pos.compare
         Pos.compare_cont COORD_MAX INT32_MIN Z.quotrem fst Pos.mul].
    change (Z.quot COORD_MAX 1 <? 5) with false. cbv iota.
    change (negb ((INT32_MIN <=? 1 * 5) && (1 * 5 <=? COORD_MAX))) with false.
    cbv iota. simpl negb. cbv iota.
    change (mksink (sink_data sink_blank) (fun _ : Z => false)) with sink_blank.
    rewrite Hst.
    unfold fill_pass.
    change (scan 1 5) with [(0, 0); (0, 1); (0, 2); (0, 3); (0, 4)].
    inversion Hmask as [[H0 H1]].
    cbn [for_each fill_pixel].
    change (0 * 1 + 0) with 0. rewrite H0.
    change (1 * 1 + 0) with 1. rewrite H1.
    rewrite search_single_column by reflexivity. reflexivity. }
  - exists st. repeat split; auto.
    intros fuel. apply search_single_column. reflexivity.
  - apply never_returns_1x5.
Qed.

(** X21: in a destination of at least two columns and two rows in which
    some pixel is marked, the search for an unmarked pixel ends: there is a radius >= 1 whose clipped window border holds a
    marked pixel while no smaller radius does, and with fuel for that many
    turns the search returns the sums over that border, with a positive
    count. *)
Theorem X21_search_ends_at_first_marked_border
  (mask : buffer bool) (sink : buffer color)
  (sink_width sink_height x y : coord) :
  2 <= sink_width -> 2 <= sink_height ->
  0 <= x < sink_width -> 0 <= y < sink_height ->
  mask (y * sink_width + x) = false ->
  (exists i j, 0 <= i < sink_width /\ 0 <= j < sink_height
               /\ mask (j * sink_width + i) = true) ->
  exists radius : coord,
    1 <= radius <= Z.max (sink_width - 1) (sink_height - 1)
    /\ (forall r i j, 1 <= r < radius ->
          on_border sink_width sink_height x y r i j ->
          mask (j * sink_width + i) = false)
    /\ (exists i j, on_border sink_width sink_height x y radius i j
                    /\ mask (j * sink_width + i) = true)
    /\ forall fuel, (Z.to_nat radius + 3 <= fuel)%nat ->
         exists acc,
           search fuel mask sink sink_width sink_height x y 1 acc_zero = Some acc
           /\ 0 < acc_count acc
           /\ acc = accumulate mask sink_width sink
                      (ring_cells sink_width sink_height x y radius) acc_zero.
Proof.
  intros HW HH Hx Hy Hu Hmarked.
  destruct (first_marked_ring_exists mask sink_width sink_height x y
              Hx Hy Hu Hmarked) as (n & Hbound & Hn & Hless).
  exists (1 + Z.of_nat n).
  split; [lia|split; [|split]].
  - intros r i' j' Hr Hb'.
    specialize (Hless (Z.to_nat (r - 1)) ltac:(lia)).
    unfold ring_marked in Hless.
    replace (1 + Z.of_nat (Z.to_nat (r - 1))) with r in Hless by lia.
    apply (ring_cells_border sink_width sink_height) in Hb'; try lia.
    destruct (mask (j' * sink_width + i')) eqn:E; [|reflexivity].
    assert (Ht : existsb (marked mask sink_width)
                   (ring_cells sink_width sink_height x y r) = true).
    { apply existsb_exists. exists (i', j'). split; [exact Hb'|exact E]. }
    congruence.
  - unfold ring_marked in Hn. apply existsb_exists in Hn.
    destruct Hn as ([i' j'] & Hc & Hm'). exists i', j'. split.
    + apply (ring_cells_border sink_width sink_height); try lia. exact Hc.
    + exact Hm'.
  - intros fuel Hfuel. eexists. split; [|split; [|reflexivity]].
    + apply (search_first_marked_ring mask sink_width sink_height
               sink x y HW HH Hx Hy n fuel 1); try lia.
      * intros m Hlt. apply Hless. exact Hlt.
      * exact Hn.
    + unfold ring_marked in Hn. apply existsb_exists in Hn.
      destruct Hn as (c & Hc & Hm').
      apply (accumulate_marked mask sink_width sink _ acc_zero c Hc Hm').
Qed.

(** A mask that marks the cell (0, 0) only. *)
Definition mask_origin : buffer bool := fun k => k =? 0.

(** The theorem applies to the far corner of a 3x3 destination in which the
    cell (0, 0) alone is marked. *)
Lemma X21_search_ends_at_first_marked_border_witness :
  exists radius : coord,
    1 <= radius <= Z.max (3 - 1) (3 - 1)
    /\ (forall r i j, 1 <= r < radius ->
          on_border 3 3 2 2 r i j -> mask_origin (j * 3 + i) = false)
    /\ (exists i j, on_border 3 3 2 2 radius i j
                    /\ mask_origin (j * 3 + i) = true)
    /\ forall fuel, (Z.to_nat radius + 3 <= fuel)%nat ->
         exists acc,
           search fuel mask_origin bg_demo 3 3 2 2 1 acc_zero = Some acc
           /\ 0 < acc_count acc
           /\ acc = accumulate mask_origin 3 bg_demo (ring_cells 3 3 2 2 radius)
                      acc_zero.
Proof.
  apply (X21_search_ends_at_first_marked_border mask_origin bg_demo 3 3 2 2);
    try lia.
  - reflexivity.
  - exists 0, 0. repeat split; try lia.
Defined.

Lemma for_each_total {A S : Type} (body : S -> A -> option S) (l : list A) :
  (forall p, In p l -> forall s, exists s', body s p = Some s') ->
  forall s, exists s', for_each l body s = Some s'.
Proof.
  induction l as [|a l IH]; intros Hb s; simpl; [eauto|].
  destruct (Hb a (or_introl eq_refl) s) as (s1 & ->).
  apply IH. intros p Hp. apply Hb. now right.
Qed.

(** Under the same conditions the whole interpolation pass returns, given
    fuel for as many turns as the destination is wide or high. *)
Lemma fill_pass_ends (mask : buffer bool) (sink_width sink_height : coord) :
  2 <= sink_width -> 2 <= sink_height ->
  (exists i j, 0 <= i < sink_width /\ 0 <= j < sink_height
               /\ mask (j * sink_width + i) = true) ->
  forall fuel sink,
  (Z.to_nat (Z.max sink_width sink_height) + 3 <= fuel)%nat ->
  exists sink', fill_pass fuel mask sink_width sink_height sink = Some sink'.
Proof.
  intros HW HH Hmarked fuel sink Hfuel. unfold fill_pass.
  apply for_each_total. intros [x y] Hin s. apply In_scan in Hin.
  destruct Hin as [Hx Hy]. unfold fill_pixel.
  destruct (mask (y * sink_width + x)) eqn:Hu; [eauto|].
  destruct (first_marked_ring_exists mask sink_width sink_height x y
              Hx Hy Hu Hmarked) as (n & Hbound & Hn & Hless).
  rewrite (search_first_marked_ring mask sink_width sink_height
             s x y HW HH Hx Hy n fuel 1); try lia; eauto.
Qed.

(** X13: [perspector] returns true when the anchors are accepted, the
    destination has at least two columns and two rows and fits [COORD_MAX],
    the mask is allocated, and the forward pass ends and marks some pixel of
    the destination; fuel for as many turns as the destination is wide or high
    is enough. *)
Lemma perspector_returns_true
  (qsort : (pixel -> pixel -> Z) -> list pixel -> list pixel)
  (svd : list float -> list float) (calloc : Z -> bool)
  (sink : buffer color) (sink_width sink_height : coord)
  (bg_data : buffer color) (bg_width bg_height : coord)
  (anchors : pixelset) (m : list float) (st : sink_state) :
  make_transform_matrix qsort svd anchors sink_width sink_height = Some m ->
  2 <= sink_width -> 2 <= sink_height ->
  sink_width * sink_height <= COORD_MAX ->
  calloc (size_t_of (sink_width * sink_height)) = true ->
  forward_pass m sink_width sink_height bg_data bg_width bg_height
               (mksink sink (fun _ => false)) = Some st ->
  (exists i j, 0 <= i < sink_width /\ 0 <= j < sink_height
               /\ transformed_mask st (j * sink_width + i) = true) ->
  forall fuel,
  (Z.to_nat (Z.max sink_width sink_height) + 3 <= fuel)%nat ->
  exists sink',
    perspector qsort svd calloc fuel sink sink_width sink_height
               bg_data bg_width bg_height anchors = Returns_true sink'.
Proof.
  intros Hm HW HH Hfit Hcalloc Hfwd Hmarked fuel Hfuel.
  unfold perspector. rewrite Hm.
  replace (sink_width =? 0) with false by (symmetry; apply Z.eqb_neq; lia).
  replace (Z.quot COORD_MAX sink_width <? sink_height) with false.
  2: { symmetry. apply Z.ltb_ge.
       rewrite Z.quot_div_nonneg by (unfold COORD_MAX; lia).
       apply Z.div_le_lower_bound; lia. }
  replace (INT32_MIN <=? sink_width * sink_height) with true
    by (symmetry; apply Z.leb_le; unfold INT32_MIN; nia).
  replace (sink_width * sink_height <=? COORD_MAX) with true
    by (symmetry; apply Z.leb_le; lia).
  rewrite Hcalloc. simpl negb. cbv iota. rewrite Hfwd.
  destruct (fill_pass_ends (transformed_mask st) sink_width sink_height
              HW HH Hmarked fuel (sink_data st) Hfuel) as (sink' & ->).
  eauto.
Qed.

(** ** The gap filling reads the forward pass only *)

Section FillPass.

Variable mask : buffer bool.
Variables sink_width sink_height : coord.

(** Two rasters that hold the same colours at the marked indices. *)
Definition agree_on_marked (s1 s2 : buffer color) : Prop :=
  forall k, mask k = true -> s1 k = s2 k.

Lemma sample_agree s1 s2 i j acc :
  agree_on_marked s1 s2 ->
  sample mask s1 sink_width i j acc = sample mask s2 sink_width i j acc.
Proof.
  intros H. unfold sample.
  destruct (mask (j * sink_width + i)) eqn:E; [|reflexivity].
  now rewrite (H _ E).
Qed.

Lemma stepped_agree (body1 body2 : Z -> accumulator -> accumulator) fuel :
  (forall i a, body1 i a = body2 i a) ->
  forall lo hi step acc,
  stepped fuel lo hi step body1 acc = stepped fuel lo hi step body2 acc.
Proof.
  intros Hb. induction fuel as [|fuel IH]; intros lo hi step acc; simpl;
    [reflexivity|].
  destruct (lo <=? hi); [|reflexivity]. rewrite Hb. apply IH.
Qed.

Lemma fold_sample_agree {A : Type} (s1 s2 : buffer color)
  (f : A -> Z * Z) (l : list A) :
  agree_on_marked s1 s2 ->
  forall acc,
  fold_left (fun a' k => sample mask s1 sink_width (fst (f k)) (snd (f k)) a') l acc
  = fold_left (fun a' k => sample mask s2 sink_width (fst (f k)) (snd (f k)) a') l acc.
Proof.
  intros H. induction l as [|k l IH]; intros acc; simpl; [reflexivity|].
  rewrite (sample_agree s1 s2 _ _ _ H). apply IH.
Qed.

Lemma ring_agree s1 s2 fuel x y radius acc :
  agree_on_marked s1 s2 ->
  ring fuel mask s1 sink_width sink_height x y radius acc
  = ring fuel mask s2 sink_width sink_height x y radius acc.
Proof.
  intros H. unfold ring.
  rewrite (stepped_agree
             (fun i a => fold_left (fun a' j => sample mask s1 sink_width i j a')
                                   (zrange (clip_low (y - radius))
                                           (clip_high (y + radius) sink_height)) a)
             (fun i a => fold_left (fun a' j => sample mask s2 sink_width i j a')
                                   (zrange (clip_low (y - radius))
                                           (clip_high (y + radius) sink_height)) a)).
  - destruct (stepped fuel _ _ _ _ acc) as [acc'|]; [|reflexivity].
    apply stepped_agree. intros j a.
    apply (fold_sample_agree s1 s2 (fun i => (i, j)) _ H).
  - intros i a. apply (fold_sample_agree s1 s2 (fun j => (i, j)) _ H).
Qed.

(** The search reads the raster at marked indices only. *)
Lemma search_agree s1 s2 fuel x y :
  agree_on_marked s1 s2 ->
  forall radius acc,
  search fuel mask s1 sink_width sink_height x y radius acc
  = search fuel mask s2 sink_width sink_height x y radius acc.
Proof.
  intros H. induction fuel as [|fuel IH]; intros radius acc; simpl;
    [reflexivity|].
  destruct (acc_count acc =? 0); [|reflexivity].
  rewrite (ring_agree s1 s2 fuel x y radius acc H).
  destruct (ring fuel mask s2 _ _ x y radius acc); [apply IH|reflexivity].
Qed.

Definition cell_index (p : Z * Z) : Z := snd p * sink_width + fst p.

(** The interpolation loops over a list of cells with distinct indices. *)
Lemma fill_cells fuel (sink0 : buffer color) (l : list (Z * Z)) :
  NoDup (map cell_index l) ->
  forall s s',
  agree_on_marked s sink0 ->
  for_each l (fill_pixel fuel mask sink_width sink_height) s = Some s' ->
  (forall p, In p l -> mask (cell_index p) = false ->
     exists acc,
       search fuel mask sink0 sink_width sink_height (fst p) (snd p) 1 acc_zero
       = Some acc
       /\ s' (cell_index p) = mean_color acc)
  /\ (forall k, (forall p, In p l -> mask (cell_index p) = false ->
                           cell_index p <> k) ->
                s' k = s k).
Proof.
  induction l as [|p l IH]; intros Hnd s s' Hag Hrun.
  - simpl in Hrun. inversion Hrun; subst. split; [intros p []|reflexivity].
  - simpl in Hnd. inversion Hnd as [|? ? Hnotin Hnd']; subst.
    simpl in Hrun.
    destruct (fill_pixel fuel mask sink_width sink_height s p) as [s1|] eqn:E1;
      [|discriminate].
    assert (Hs1 : agree_on_marked s1 sink0
                  /\ (mask (cell_index p) = true -> s1 = s)
                  /\ (mask (cell_index p) = false ->
                      exists acc,
                        search fuel mask sink0 sink_width sink_height
                               (fst p) (snd p) 1 acc_zero = Some acc
                        /\ s1 = store s (cell_index p) (mean_color acc))).
    { destruct p as [x y]. unfold fill_pixel in E1. unfold cell_index; simpl.
      destruct (mask (y * sink_width + x)) eqn:Em.
      - inversion E1; subst. repeat split; auto. discriminate.
      - rewrite (search_agree s sink0 fuel x y Hag) in E1.
        destruct (search fuel mask sink0 _ _ x y 1 acc_zero) as [acc|];
          [|discriminate].
        inversion E1; subst. repeat split; try discriminate.
        + intros k Hk. unfold store.
          destruct (Z.eqb_spec k (y * sink_width + x)) as [->|_];
            [congruence|auto].
        + intros _. exists acc. auto. }
    destruct Hs1 as (Hag1 & Hmarked & Hunmarked).
    destruct (IH Hnd' s1 s' Hag1 Hrun) as [IHcells IHother].
    split.
    + intros q [<-|Hq] Hm.
      * destruct (Hunmarked Hm) as (acc & Hacc & ->).
        exists acc. split; [exact Hacc|].
        rewrite IHother.
        -- unfold store. now rewrite Z.eqb_refl.
        -- intros q Hq _ Heq. apply Hnotin. rewrite <- Heq.
           now apply in_map.
      * now apply IHcells.
    + intros k Hk. rewrite IHother.
      * destruct (mask (cell_index p)) eqn:Em.
        -- now rewrite (Hmarked eq_refl).
        -- destruct (Hunmarked eq_refl) as (acc & _ & ->). unfold store.
           destruct (Z.eqb_spec k (cell_index p)) as [->|_]; [|reflexivity].
           exfalso. apply (Hk p); simpl; auto.
      * intros q Hq. apply Hk. now right.
Qed.

Lemma NoDup_map_on {A B : Type} (f : A -> B) (l : list A) :
  (forall a b, In a l -> In b l -> f a = f b -> a = b) ->
  NoDup l -> NoDup (map f l).
Proof.
  intros Hinj Hnd. induction Hnd as [|a l Hnotin Hnd IH]; simpl; constructor.
  - intros Hin. apply in_map_iff in Hin. destruct Hin as (b & E & Hb).
    assert (b = a) by (apply Hinj; simpl; auto). subst. contradiction.
  - apply IH. intros u v Hu Hv. apply Hinj; simpl; auto.
Qed.

Lemma scan_indices_NoDup : NoDup (map cell_index (scan sink_width sink_height)).
Proof.
  apply NoDup_map_on.
  - intros [x y] [x' y'] Hin Hin' E. apply In_scan in Hin, Hin'.
    unfold cell_index in E; simpl in E.
    destruct (index_injective sink_width x y x' y') as [-> ->]; tauto.
  - apply sorted_NoDup, scan_sorted.
Qed.

End FillPass.

(** C9: the gap-filling pass takes the mask as it was left by the forward
    pass and has no write to it; a sample adds a pixel to the sums only when
    the pixel is marked; the search gives the same sums on two rasters that
    agree at the marked indices; a step of the pass changes no index but that
    of its own cell; and after the pass a marked cell holds its
    forward-mapped colour, an unmarked cell holds the means of the search run
    on the raster of the forward pass, and no other index was written.  So no
    interpolated value enters the interpolation of another pixel. *)
Theorem C9_fill_pass_reads_forward_pass_only
  (fuel : nat) (mask : buffer bool) (sink_width sink_height : coord)
  (sink0 sink' : buffer color) :
  fill_pass fuel mask sink_width sink_height sink0 = Some sink' ->
  (forall sink i j acc,
     mask (j * sink_width + i) = false ->
     sample mask sink sink_width i j acc = acc)
  /\ (forall s1 s2 x y radius acc,
        agree_on_marked mask s1 s2 ->
        search fuel mask s1 sink_width sink_height x y radius acc
        = search fuel mask s2 sink_width sink_height x y radius acc)
  /\ (forall s s' x y k,
        fill_pixel fuel mask sink_width sink_height s (x, y) = Some s' ->
        k <> y * sink_width + x -> s' k = s k)
  /\ (forall x y, 0 <= x < sink_width -> 0 <= y < sink_height ->
        (mask (y * sink_width + x) = true ->
         sink' (y * sink_width + x) = sink0 (y * sink_width + x))
        /\ (mask (y * sink_width + x) = false ->
            exists acc,
              search fuel mask sink0 sink_width sink_height x y 1 acc_zero
              = Some acc
              /\ sink' (y * sink_width + x) = mean_color acc))
  /\ (forall k,
        (forall x y, 0 <= x < sink_width -> 0 <= y < sink_height ->
                     mask (y * sink_width + x) = false ->
                     y * sink_width + x <> k) ->
        sink' k = sink0 k).
Proof.
  unfold fill_pass. intros Hrun.
  destruct (fill_cells mask sink_width sink_height fuel sink0
              (scan sink_width sink_height)
              (scan_indices_NoDup sink_width sink_height)
              sink0 sink' (fun k _ => eq_refl) Hrun) as [Hcells Hother].
  split; [|split; [|split; [|split]]].
  - intros sink i j acc. apply sample_unmarked.
  - intros s1 s2 x y radius acc H. now apply search_agree.
  - intros s s' x y k Hstep Hk. unfold fill_pixel in Hstep.
    destruct (mask (y * sink_width + x)); [now inversion Hstep|].
    destruct (search fuel mask s sink_width sink_height x y 1 acc_zero);
      [|discriminate].
    inversion Hstep; subst. unfold store.
    destruct (Z.eqb_spec k (y * sink_width + x)); [contradiction|reflexivity].
  - intros x y Hx Hy. split.
    + intros Hm. apply Hother. intros [x' y'] _ Hu E.
      unfold cell_index in *; simpl in *. congruence.
    + intros Hu.
      apply (Hcells (x, y)); [apply In_scan; tauto|exact Hu].
  - intros k Hk. apply Hother. intros [x y] Hin Hu.
    apply In_scan in Hin. unfold cell_index in *; simpl in *.
    apply Hk; tauto.
Qed.

(** The theorem applies to a 2x2 destination in which the cell (0, 0) alone
    is marked: that cell keeps its colour, and the cell (1, 1) receives the
    means of the search run on the raster before the pass. *)
Lemma C9_fill_pass_reads_forward_pass_only_witness :
  let sink' := match fill_pass 8 mask_origin 2 2 bg_demo with
               | Some s => s
               | None => bg_demo
               end in
  sink' 0 = bg_demo 0
  /\ exists acc,
       search 8 mask_origin bg_demo 2 2 1 1 1 acc_zero = Some acc
       /\ sink' 3 = mean_color acc.
Proof.
  cbv zeta.
  assert (Hrun : fill_pass 8 mask_origin 2 2 bg_demo
                 = Some (match fill_pass 8 mask_origin 2 2 bg_demo with
                         | Some s => s
                         | None => bg_demo
                         end)) by (vm_compute; reflexivity).
  pose proof (proj1 (proj2 (proj2 (proj2 (C9_fill_pass_reads_forward_pass_only
                                            8 mask_origin 2 2 bg_demo _ Hrun)))))
    as H.
  split.
  - apply (proj1 (H 0 0 ltac:(lia) ltac:(lia))). reflexivity.
  - apply (proj2 (H 1 1 ltac:(lia) ltac:(lia))). reflexivity.
Defined.

(** ** The size precheck of [perspector] *)

(** C7, as stated, fails: with the width and the height both -65536 the
    product exceeds [COORD_MAX], the precheck compares -32767 with -65536 and
    lets the call go on to the computation of the size of the mask, which
    overflows. *)
Lemma C7_negative_sizes_pass_the_precheck :
  COORD_MAX < (-65536) * (-65536)
  /\ forall svd calloc fuel sink bg_data bg_width bg_height,
       perspector insertion_sort svd calloc fuel sink (-65536) (-65536)
                  bg_data bg_width bg_height anchors_square
       = Undefined Mask_size_overflow.
Proof.
  split; [reflexivity|].
  intros. unfold perspector, make_transform_matrix.
  rewrite projectable_square. reflexivity.
Qed.

(** C7, amended: for a destination of width >= 1 and height >= 1 whose
    product exceeds [COORD_MAX], [perspector] returns false at one of the two
    returns that precede the call of [calloc], with the destination raster as
    it was. *)
Theorem C7_oversized_sink_rejected
  (qsort : (pixel -> pixel -> Z) -> list pixel -> list pixel)
  (svd : list float -> list float) (calloc : Z -> bool) (fuel : nat)
  (sink : buffer color) (sink_width sink_height : coord)
  (bg_data : buffer color) (bg_width bg_height : coord) (anchors : pixelset) :
  1 <= sink_width -> 1 <= sink_height ->
  COORD_MAX < sink_width * sink_height ->
  perspector qsort svd calloc fuel sink sink_width sink_height
             bg_data bg_width bg_height anchors
  = Returns_false Not_projectable sink
  \/ perspector qsort svd calloc fuel sink sink_width sink_height
                bg_data bg_width bg_height anchors
     = Returns_false Too_big sink.
Proof.
  intros HW HH Hbig. unfold perspector.
  destruct (make_transform_matrix qsort svd anchors sink_width sink_height);
    [right|left; reflexivity].
  replace (sink_width =? 0) with false by (symmetry; apply Z.eqb_neq; lia).
  replace (Z.quot COORD_MAX sink_width <? sink_height) with true; [reflexivity|].
  symmetry. apply Z.ltb_lt.
  rewrite Z.quot_div_nonneg by (unfold COORD_MAX; lia).
  apply Z.div_lt_upper_bound; lia.
Qed.

(** The theorem applies to a destination of 65536 x 65536. *)
Lemma C7_oversized_sink_rejected_witness :
  perspector insertion_sort (fun v => v) (fun _ => true) 0
             (sink_data sink_blank) 65536 65536 bg_demo 2 2 anchors_square
  = Returns_false Not_projectable (sink_data sink_blank)
  \/ perspector insertion_sort (fun v => v) (fun _ => true) 0
                (sink_data sink_blank) 65536 65536 bg_demo 2 2 anchors_square
     = Returns_false Too_big (sink_data sink_blank).
Proof.
  apply (C7_oversized_sink_rejected insertion_sort (fun v => v) (fun _ => true)
           0 (sink_data sink_blank) 65536 65536 bg_demo 2 2 anchors_square);
    unfold COORD_MAX; lia.
Defined.

(** C10: when [projectable] accepts the anchors, [perspector] reaches the
    division of [COORD_MAX] by the destination width, and this is a division
    by zero exactly when the width is zero; no test of the width precedes it. *)
Theorem C10_zero_width_divides_by_zero
  (qsort : (pixel -> pixel -> Z) -> list pixel -> list pixel)
  (svd : list float -> list float) (calloc : Z -> bool) (fuel : nat)
  (sink : buffer color) (sink_width sink_height : coord)
  (bg_data : buffer color) (bg_width bg_height : coord)
  (anchors : pixelset) (v : rect) :
  projectable qsort anchors = Some v ->
  (perspector qsort svd calloc fuel sink sink_width sink_height
              bg_data bg_width bg_height anchors
   = Undefined Division_by_zero
   <-> sink_width = 0).
Proof.
  intros Hp. unfold perspector, make_transform_matrix. rewrite Hp.
  destruct (Z.eqb_spec sink_width 0) as [E|E].
  - split; auto.
  - split; [|contradiction].
    destruct (_ <? _); [discriminate|].
    destruct (negb _); [discriminate|].
    destruct (negb _); [discriminate|].
    destruct (forward_pass _ _ _ _ _ _ _); [|discriminate].
    destruct (fill_pass _ _ _ _ _); discriminate.
Qed.

(** The theorem applies to the unit square and a destination of width 0 and
    height 1. *)
Lemma C10_zero_width_divides_by_zero_witness :
  perspector insertion_sort (fun v => v) (fun _ => true) 0
             (sink_data sink_blank) 0 1 bg_demo 2 2 anchors_square
  = Undefined Division_by_zero.
Proof.
  apply (proj2 (C10_zero_width_divides_by_zero
                  insertion_sort (fun v => v) (fun _ => true) 0
                  (sink_data sink_blank) 0 1 bg_demo 2 2 anchors_square _
                  projectable_square)).
  reflexivity.
Defined.

(** ** A complete run *)

(** The unit square of a 2x2 source scaled onto a 3x3 destination: the
    forward pass sets the cell (0, 0) alone (the other three source pixels go
    to column 3 or row 3), and every other cell receives its colour as the
    mean over the first border that holds it. *)
Example perspector_unit_square_3x3 :
  let svd :=
    decomposition_with_last_column
      (map double_of_coord [3; 0; 0; 0; 3; 0; 0; 0; 1]) in
  match perspector insertion_sort svd (fun _ => true) 8
                   (sink_data sink_blank) 3 3 bg_demo 2 2 anchors_square with
  | Returns_true sink => map sink (upto 9) = repeat (bg_demo 0) 9
  | _ => False
  end.
Proof. vm_compute. reflexivity. Qed.

(** * Further properties *)

(** ** The classifier *)

(** The anchors sorted along one axis by a conforming [qsort]. *)
Lemma sorted_anchors_ascending
  (qsort : (pixel -> pixel -> Z) -> list pixel -> list pixel)
  (f : pixel -> Z) (cmp : pixel -> pixel -> Z) a b c d :
  qsort_contract qsort ->
  (forall p q, In p [a; b; c; d] -> In q [a; b; c; d] -> cmp p q = f p - f q) ->
  exists p0 p1 p2 p3,
    qsort cmp [a; b; c; d] = [p0; p1; p2; p3]
    /\ Permutation [a; b; c; d] [p0; p1; p2; p3]
    /\ f p0 <= f p1 /\ f p1 <= f p2 /\ f p2 <= f p3.
Proof.
  intros Hq Hcmp.
  destruct (sorted_anchors_inv qsort cmp a b c d (fun cmp l => proj1 (Hq cmp l)))
    as (p0 & p1 & p2 & p3 & E & Hperm).
  exists p0, p1, p2, p3. split; [exact E|]. split; [exact Hperm|].
  destruct (Hq cmp [a; b; c; d]) as [_ Hs]. rewrite E in Hs.
  specialize (Hs (difference_consistent cmp f _ Hcmp)).
  apply (difference_sorted cmp f) in Hs.
  - simpl in Hs.
    inversion Hs as [|? ? Hs1 Hf0]; subst.
    inversion Hs1 as [|? ? Hs2 Hf1]; subst.
    inversion Hs2 as [|? ? _ Hf2]; subst.
    inversion Hf0 as [|? ? H01 _]; subst.
    inversion Hf1 as [|? ? H12 _]; subst.
    inversion Hf2 as [|? ? H23 _]; subst.
    lia.
  - intros p q Hp Hq'.
    apply Hcmp; now apply (Permutation_in _ (Permutation_sym Hperm)).
Qed.

Lemma sorted_by_x
  (qsort : (pixel -> pixel -> Z) -> list pixel -> list pixel) a b c d :
  qsort_contract qsort -> differences_fit [a; b; c; d] = true ->
  exists p0 p1 p2 p3,
    qsort comparex [a; b; c; d] = [p0; p1; p2; p3]
    /\ Permutation [a; b; c; d] [p0; p1; p2; p3]
    /\ px p0 <= px p1 /\ px p1 <= px p2 /\ px p2 <= px p3.
Proof.
  intros Hq Hfit. apply (sorted_anchors_ascending qsort px); [exact Hq|].
  intros p q Hp Hq'. apply (differences_fit_spec _ Hfit p q Hp Hq').
Qed.

Lemma sorted_by_y
  (qsort : (pixel -> pixel -> Z) -> list pixel -> list pixel) a b c d :
  qsort_contract qsort -> differences_fit [a; b; c; d] = true ->
  exists p0 p1 p2 p3,
    qsort comparey [a; b; c; d] = [p0; p1; p2; p3]
    /\ Permutation [a; b; c; d] [p0; p1; p2; p3]
    /\ py p0 <= py p1 /\ py p1 <= py p2 /\ py p2 <= py p3.
Proof.
  intros Hq Hfit. apply (sorted_anchors_ascending qsort py); [exact Hq|].
  intros p q Hp Hq'. apply (differences_fit_spec _ Hfit p q Hp Hq').
Qed.

Ltac perm4 :=
  repeat first
    [ apply Permutation_refl
    | apply perm_skip
    | apply (Permutation_cons_app [_] [] _); cbn [app]
    | apply (Permutation_cons_app [_] [_] _); cbn [app]
    | apply (Permutation_cons_app [_] [_; _] _); cbn [app]
    | apply (Permutation_cons_app [_; _] [] _); cbn [app]
    | apply (Permutation_cons_app [_; _] [_] _); cbn [app]
    | apply (Permutation_cons_app [_; _; _] [] _); cbn [app] ].

Lemma x_split_corners p0 p1 p2 p3 :
  Permutation [p0; p1; p2; p3] (corners (x_split (mkpixelset [p0; p1; p2; p3] 4))).
Proof.
  unfold x_split, corners, pix; simpl.
  destruct (py p0 <? py p1), (py p2 <? py p3); simpl; perm4.
Qed.

Lemma y_split_corners p0 p1 p2 p3 :
  Permutation [p0; p1; p2; p3] (corners (y_split (mkpixelset [p0; p1; p2; p3] 4))).
Proof.
  unfold y_split, corners, pix; simpl.
  destruct (px p0 <? px p1), (px p2 <? px p3); simpl; perm4.
Qed.

(** The accepted assignment is one of the two candidates. *)
Lemma projectable_candidates
  (qsort : (pixel -> pixel -> Z) -> list pixel -> list pixel) anchors r :
  projectable qsort anchors = Some r ->
  let xs := psort qsort anchors DIR_X in
  let ys := psort qsort anchors DIR_Y in
  (r = x_split xs
   /\ (direct_case xs = true \/ x_valid xs = true))
  \/ (r = y_split ys /\ y_valid ys = true).
Proof.
  intros H xs ys. unfold projectable in H. fold xs ys in H.
  destruct (direct_case xs) eqn:Hd.
  - inversion H; auto.
  - destruct (split_axis_case xs ys); [discriminate|].
    unfold diagonal_case in H.
    destruct (undesired_pair _ _ _ _ _); [discriminate|].
    unfold x_candidate_ok, y_candidate_ok in H.
    destruct (y_valid ys); simpl in H.
    + destruct (check_order _ (bl (y_split ys)) _ _ _); simpl in H.
      * destruct (x_valid xs); simpl in H.
        -- destruct (check_order _ (bl (x_split xs)) _ _ _); simpl in H;
             [discriminate|]. inversion H; auto.
        -- inversion H; auto.
      * destruct (x_valid xs); simpl in H; [|discriminate].
        destruct (check_order _ (bl (x_split xs)) _ _ _); simpl in H;
          [|discriminate]. inversion H; auto.
    + destruct (x_valid xs); simpl in H; [|discriminate].
      destruct (check_order _ (bl (x_split xs)) _ _ _); simpl in H;
        [|discriminate]. inversion H; auto.
Qed.

(** X1: an accepted assignment uses each of the four anchors exactly once:
    its corners (bl, br, tr, tl) are a permutation of the anchors, whatever
    the permutation [qsort] returns. *)
Theorem X1_accepted_corners_are_the_anchors
  (qsort : (pixel -> pixel -> Z) -> list pixel -> list pixel)
  (a b c d : pixel) (r : rect) :
  (forall cmp l, Permutation l (qsort cmp l)) ->
  projectable qsort (anchors_of a b c d) = Some r ->
  Permutation [a; b; c; d] (corners r).
Proof.
  intros Hp H. apply projectable_candidates in H. cbv zeta in H.
  rewrite !psort_anchors in H.
  destruct (sorted_anchors_inv qsort comparex a b c d Hp)
    as (p0 & p1 & p2 & p3 & Ex & Hx).
  destruct (sorted_anchors_inv qsort comparey a b c d Hp)
    as (q0 & q1 & q2 & q3 & Ey & Hy).
  rewrite Ex, Ey in H.
  destruct H as [[-> _]|[-> _]].
  - eapply perm_trans; [exact Hx|apply x_split_corners].
  - eapply perm_trans; [exact Hy|apply y_split_corners].
Qed.

(** The theorem applies to anchors that the third branch accepts. *)
Lemma X1_accepted_corners_are_the_anchors_witness :
  Permutation
    [mkpixel 0 0; mkpixel 3 2; mkpixel 4 3; mkpixel 1 1]
    (corners (mkrect (mkpixel 0 0) (mkpixel 3 2) (mkpixel 4 3) (mkpixel 1 1))).
Proof.
  apply (X1_accepted_corners_are_the_anchors insertion_sort).
  - intros cmp l. apply insertion_sort_perm.
  - vm_compute. reflexivity.
Defined.

(** X2: the orientation of an accepted assignment, for a conforming [qsort]
    and anchors on which [comparex] and [comparey] do not overflow (no two
    anchors more than 2^31 - 1 apart on an axis).  Either it comes from the
    split in x: the two left corners are strictly left of the two right
    corners, bl is not above tl and br is strictly below tr; or it comes from
    the split in y: the two bottom corners are strictly below the two top
    corners, and bl, tl are strictly left of br, tr. *)
Theorem X2_accepted_assignment_is_oriented
  (qsort : (pixel -> pixel -> Z) -> list pixel -> list pixel)
  (a b c d : pixel) (r : rect) :
  qsort_contract qsort ->
  differences_fit [a; b; c; d] = true ->
  projectable qsort (anchors_of a b c d) = Some r ->
  (Z.max (px (bl r)) (px (tl r)) < Z.min (px (br r)) (px (tr r))
   /\ py (bl r) <= py (tl r) /\ py (br r) < py (tr r))
  \/ (Z.max (py (bl r)) (py (br r)) < Z.min (py (tl r)) (py (tr r))
      /\ px (bl r) < px (br r) /\ px (tl r) < px (tr r)).
Proof.
  intros Hq Hfit H. apply projectable_candidates in H. cbv zeta in H.
  rewrite !psort_anchors in H.
  destruct (sorted_by_x qsort a b c d Hq Hfit)
    as (p0 & p1 & p2 & p3 & Ex & _ & Hx01 & Hx12 & Hx23).
  destruct (sorted_by_y qsort a b c d Hq Hfit)
    as (q0 & q1 & q2 & q3 & Ey & _ & Hy01 & Hy12 & Hy23).
  rewrite Ex, Ey in H.
  destruct H as [[-> Hv]|[-> Hv]].
  - left.
    assert (Hs : px p1 <> px p2 /\ py p2 <> py p3).
    { destruct Hv as [Hv|Hv].
      - unfold direct_case, pix in Hv; simpl in Hv.
        rewrite !andb_true_iff, !negb_true_iff, !Z.eqb_neq in Hv. tauto.
      - unfold x_valid, pix in Hv; simpl in Hv.
        rewrite !andb_true_iff, !negb_true_iff, !Z.eqb_neq in Hv. tauto. }
    unfold x_split, pix; simpl.
    destruct (Z.ltb_spec (py p0) (py p1)), (Z.ltb_spec (py p2) (py p3)); simpl; lia.
  - right.
    unfold y_valid, pix in Hv; simpl in Hv.
    rewrite !andb_true_iff, !negb_true_iff, !Z.eqb_neq in Hv.
    unfold y_split, pix; simpl.
    destruct (Z.ltb_spec (px q0) (px q1)), (Z.ltb_spec (px q2) (px q3)); simpl; lia.
Qed.

(** The theorem applies to the unit square of [tests/tests.c]. *)
Lemma X2_accepted_assignment_is_oriented_witness :
  let r := mkrect (mkpixel 0 0) (mkpixel 1 0) (mkpixel 1 1) (mkpixel 0 1) in
  (Z.max (px (bl r)) (px (tl r)) < Z.min (px (br r)) (px (tr r))
   /\ py (bl r) <= py (tl r) /\ py (br r) < py (tr r))
  \/ (Z.max (py (bl r)) (py (br r)) < Z.min (py (tl r)) (py (tr r))
      /\ px (bl r) < px (br r) /\ px (tl r) < px (tr r)).
Proof.
  apply (X2_accepted_assignment_is_oriented insertion_sort
           (mkpixel 0 0) (mkpixel 1 0) (mkpixel 1 1) (mkpixel 0 1)).
  - exact insertion_sort_contract.
  - reflexivity.
  - vm_compute. reflexivity.
Defined.

(** The number of pixels that pass a test is the same in every arrangement of
    an array. *)
Lemma filter_length_perm {A : Type} (f : A -> bool) (l l' : list A) :
  Permutation l l' -> length (filter f l) = length (filter f l').
Proof.
  induction 1 as [|x l l' _ IH|x y l|l l' l'' _ IH1 _ IH2]; simpl.
  - reflexivity.
  - destruct (f x); simpl; congruence.
  - destruct (f x), (f y); reflexivity.
  - congruence.
Qed.

(** X3: three anchors on one vertical line, or on one horizontal line, are
    rejected, whatever the fourth anchor and the conforming [qsort], when
    [comparex] and [comparey] do not overflow on the anchors (no two anchors
    more than 2^31 - 1 apart on an axis). *)
Theorem X3_three_anchors_on_an_axis_line_rejected
  (qsort : (pixel -> pixel -> Z) -> list pixel -> list pixel)
  (a b c d : pixel) (v : coord) :
  qsort_contract qsort ->
  differences_fit [a; b; c; d] = true ->
  (3 <= length (filter (fun p => Z.eqb (px p) v) [a; b; c; d]))%nat
  \/ (3 <= length (filter (fun p => Z.eqb (py p) v) [a; b; c; d]))%nat ->
  projectable qsort (anchors_of a b c d) = None.
Proof.
  intros Hq Hfit H3. unfold projectable. rewrite !psort_anchors.
  destruct (sorted_by_x qsort a b c d Hq Hfit)
    as (p0 & p1 & p2 & p3 & Ex & Hpx & Hx01 & Hx12 & Hx23).
  destruct (sorted_by_y qsort a b c d Hq Hfit)
    as (q0 & q1 & q2 & q3 & Ey & Hpy & Hy01 & Hy12 & Hy23).
  rewrite Ex, Ey.
  unfold direct_case, split_axis_case, pix; simpl.
  destruct H3 as [H3|H3].
  - rewrite (filter_length_perm _ _ _ Hpx) in H3. simpl in H3.
    assert (E : px p1 = px p2).
    { destruct (Z.eqb_spec (px p0) v), (Z.eqb_spec (px p1) v),
               (Z.eqb_spec (px p2) v), (Z.eqb_spec (px p3) v);
        simpl in H3; lia. }
    rewrite E, Z.eqb_refl. reflexivity.
  - pose proof H3 as H3'.
    rewrite (filter_length_perm _ _ _ Hpx) in H3. simpl in H3.
    rewrite (filter_length_perm _ _ _ Hpy) in H3'. simpl in H3'.
    assert (E : py q1 = py q2).
    { destruct (Z.eqb_spec (py q0) v), (Z.eqb_spec (py q1) v),
               (Z.eqb_spec (py q2) v), (Z.eqb_spec (py q3) v);
        simpl in H3'; lia. }
    rewrite E, Z.eqb_refl, orb_true_r.
    match goal with
    | |- (if ?g then _ else _) = _ => destruct g eqn:Hd; [exfalso|reflexivity]
    end.
    rewrite !andb_true_iff, !orb_true_iff, !negb_true_iff, !Z.eqb_neq,
            !Z.ltb_lt, !Z.gtb_gt in Hd.
    destruct (Z.eqb_spec (py p0) v), (Z.eqb_spec (py p1) v),
             (Z.eqb_spec (py p2) v), (Z.eqb_spec (py p3) v);
      simpl in H3; lia.
Qed.

(** The theorem applies to three anchors on the line y = 0. *)
Lemma X3_three_anchors_on_an_axis_line_rejected_witness :
  projectable insertion_sort
    (anchors_of (mkpixel 0 0) (mkpixel 1 0) (mkpixel 2 0) (mkpixel 3 5)) = None.
Proof.
  apply (X3_three_anchors_on_an_axis_line_rejected insertion_sort _ _ _ _ 0).
  - exact insertion_sort_contract.
  - reflexivity.
  - right. vm_compute. lia.
Defined.

Lemma NoDup_map_injective {A B : Type} (f : A -> B) (l : list A) :
  NoDup (map f l) -> forall p q, In p l -> In q l -> f p = f q -> p = q.
Proof.
  induction l as [|x l IH]; intros Hnd p q Hp Hq E; [destruct Hp|].
  simpl in Hnd. inversion Hnd as [|? ? Hnotin Hnd']; subst.
  destruct Hp as [<-|Hp], Hq as [<-|Hq]; auto.
  - exfalso. apply Hnotin. rewrite E. now apply in_map.
  - exfalso. apply Hnotin. rewrite <- E. now apply in_map.
Qed.

(** The condition on the differences is needed: the difference of 0 and
    -2^31 wraps, so that each of the two pixels compares below the other, and
    with insertion sort as [qsort] three anchors on one vertical line are
    accepted. *)
Example comparex_wraps :
  let a := mkpixel INT32_MIN 0 in
  let b := mkpixel 0 3 in
  let c := mkpixel INT32_MIN 1 in
  let d := mkpixel INT32_MIN 2 in
  comparex a b < 0 /\ comparex b a < 0
  /\ differences_fit [a; b; c; d] = false
  /\ projectable insertion_sort (anchors_of a b c d) = Some (mkrect a c d b).
Proof. cbv zeta. repeat split; vm_compute; reflexivity. Qed.

(** X4: when no two anchors have the same x, [comparex] does not overflow
    on the anchors (no two anchors more than 2^31 - 1 apart on an axis) and
    the anchors sorted by x pass the test of the first branch, the result of
    [projectable] does not depend on the order in which the anchors are
    given, nor on the conforming [qsort] used. *)
Theorem X4_first_branch_independent_of_anchor_order
  (qsort qsort' : (pixel -> pixel -> Z) -> list pixel -> list pixel)
  (a b c d a' b' c' d' : pixel) :
  qsort_contract qsort -> qsort_contract qsort' ->
  Permutation [a; b; c; d] [a'; b'; c'; d'] ->
  NoDup (map px [a; b; c; d]) ->
  differences_fit [a; b; c; d] = true ->
  direct_case (psort qsort (anchors_of a b c d) DIR_X) = true ->
  projectable qsort' (anchors_of a' b' c' d')
  = projectable qsort (anchors_of a b c d).
Proof.
  intros Hq Hq' Hperm Hnd Hfit Hd.
  assert (E : qsort' comparex [a'; b'; c'; d'] = qsort comparex [a; b; c; d]).
  { destruct (Hq comparex [a; b; c; d]) as [Hp Hs].
    destruct (Hq' comparex [a'; b'; c'; d']) as [Hp' Hs'].
    specialize (Hs (comparex_consistent _ Hfit)).
    specialize (Hs' (comparex_consistent _
                       (differences_fit_perm _ _ Hperm Hfit))).
    symmetry. apply (sorted_perm_unique (le_by comparex)); auto.
    - intros p q Hin Hin' H1 H2.
      apply (Permutation_in _ (Permutation_sym Hp)) in Hin, Hin'.
      apply (NoDup_map_injective px [a; b; c; d] Hnd); auto.
      destruct (differences_fit_spec _ Hfit p q Hin Hin') as [E1 _].
      destruct (differences_fit_spec _ Hfit q p Hin' Hin) as [E2 _].
      unfold le_by in *. lia.
    - eapply perm_trans; [apply Permutation_sym, Hp|].
      eapply perm_trans; [exact Hperm|exact Hp']. }
  unfold projectable. rewrite !psort_anchors in *. rewrite E, Hd. reflexivity.
Qed.

(** The theorem applies to four anchors of the first branch, given in two
    orders. *)
Lemma X4_first_branch_independent_of_anchor_order_witness :
  projectable insertion_sort
    (anchors_of (mkpixel 7 9) (mkpixel 0 1) (mkpixel 6 0) (mkpixel 1 8))
  = projectable insertion_sort
      (anchors_of (mkpixel 0 1) (mkpixel 1 8) (mkpixel 6 0) (mkpixel 7 9)).
Proof.
  apply X4_first_branch_independent_of_anchor_order.
  - exact insertion_sort_contract.
  - exact insertion_sort_contract.
  - perm4.
  - vm_compute. repeat constructor; simpl; intuition discriminate.
  - reflexivity.
  - vm_compute. reflexivity.
Defined.

Lemma pixel_eq_dec (p q : pixel) : {p = q} + {p <> q}.
Proof. decide equality; apply Z.eq_dec. Defined.

(** X5: what [check_order] decides, for an order of four distinct pixels.  It
    accepts (bl, br, tr, tl) when the sequence is the order read cyclically
    from one of its elements; when bl is not in the order the loop ends with
    the index 4, which is read modulo 4, so the three other corners are
    compared with the entries 1, 2 and 3 and bl is not looked at.  The order
    read backwards is rejected. *)
Theorem X5_check_order_accepts_rotations
  (o0 o1 o2 o3 bl0 br0 tr0 tl0 : pixel) :
  NoDup [o0; o1; o2; o3] ->
  (check_order (mkpixelset [o0; o1; o2; o3] 4) bl0 br0 tr0 tl0 = true
   <-> is_rotation [bl0; br0; tr0; tl0] [o0; o1; o2; o3]
       \/ (~ In bl0 [o0; o1; o2; o3] /\ br0 = o1 /\ tr0 = o2 /\ tl0 = o3))
  /\ check_order (mkpixelset [o0; o1; o2; o3] 4) o0 o3 o2 o1 = false.
Proof.
  intros Hnd. split.
  - destruct (in_dec pixel_eq_dec bl0 [o0; o1; o2; o3]) as [Hin|Hout].
    + rewrite (check_order_rotation _ _ _ _ _ _ _ _ Hnd Hin). tauto.
    + split.
      * intros H. right. split; [exact Hout|].
        unfold check_order, CMP_PIXEL in H. simpl count in H.
        assert (E : find_bl (mkpixelset [o0; o1; o2; o3] 4) bl0 0 4 = 4%nat).
        { cbn [find_bl Nat.modulo Nat.divmod snd fst Nat.sub pix pixels nth].
          rewrite !pixel_eqb_neq; [reflexivity| | | |];
            intros ->; apply Hout; simpl; auto. }
        rewrite E in H.
        cbn [Nat.add Nat.modulo Nat.divmod snd fst Nat.sub pix pixels nth] in H.
        rewrite !andb_true_iff, !pixel_eqb_eq in H. intuition congruence.
      * intros [(k & Hk & E)|(_ & -> & -> & ->)].
        -- exfalso. apply Hout. simpl in Hk.
           destruct k as [|[|[|[|k]]]]; simpl in E; inversion E; subst;
             simpl; auto. lia.
        -- unfold check_order, CMP_PIXEL. simpl count.
           assert (E : find_bl (mkpixelset [o0; o1; o2; o3] 4) bl0 0 4 = 4%nat).
           { cbn [find_bl Nat.modulo Nat.divmod snd fst Nat.sub pix pixels nth].
             rewrite !pixel_eqb_neq; [reflexivity| | | |];
               intros ->; apply Hout; simpl; auto. }
           rewrite E.
           cbn [Nat.add Nat.modulo Nat.divmod snd fst Nat.sub pix pixels nth].
           now rewrite !pixel_eqb_refl.
  - destruct (check_order _ o0 o3 o2 o1) eqn:E; [exfalso|reflexivity].
    apply (check_order_rotation _ _ _ _ _ _ _ _ Hnd) in E; [|simpl; auto].
    apply NoDup4_inv in Hnd.
    destruct E as (k & Hk & E). simpl in Hk.
    destruct Hnd as (H01 & H02 & H03 & H12 & H13 & H23).
    destruct k as [|[|[|[|k]]]]; simpl in E; inversion E; subst;
      try contradiction; try lia; try (now (exfalso; auto)).
Qed.

(** The theorem applies to the corners of the unit square: read from the
    third corner they are accepted, and so is a sequence whose first pixel is
    not in the order. *)
Lemma X5_check_order_accepts_rotations_witness :
  check_order (mkpixelset [mkpixel 0 0; mkpixel 1 0; mkpixel 1 1; mkpixel 0 1] 4)
              (mkpixel 1 1) (mkpixel 0 1) (mkpixel 0 0) (mkpixel 1 0) = true
  /\ check_order (mkpixelset [mkpixel 0 0; mkpixel 1 0; mkpixel 1 1; mkpixel 0 1] 4)
                 (mkpixel 9 9) (mkpixel 1 0) (mkpixel 1 1) (mkpixel 0 1) = true.
Proof.
  assert (Hnd : NoDup [mkpixel 0 0; mkpixel 1 0; mkpixel 1 1; mkpixel 0 1]).
  { repeat constructor; simpl; intuition discriminate. }
  split.
  - apply (proj1 (X5_check_order_accepts_rotations _ _ _ _ _ _ _ _ Hnd)).
    left. exists 2%nat. simpl. split; [lia|reflexivity].
  - apply (proj1 (X5_check_order_accepts_rotations _ _ _ _ _ _ _ _ Hnd)).
    right. simpl. intuition discriminate.
Defined.

(** ** The sign test of [pos], in exact arithmetic *)

(** [k / 4] in [double]. *)
Definition quarter (k : Z) : float :=
  PrimFloat.div (double_of_coord k) (double_of_coord 4).

(** What [pos] tests, on two vectors given in quarters of a pixel and in
    exact arithmetic: UNDEF for a zero vector; for aligned vectors (zero
    cross product) EQUAL or OPPOSED by the sign of the product of the x
    components; else LEFT or RIGHT by the sign of the cross product. *)
Definition pos_exact (ux uy vx vy : Z) : position :=
  if ((ux =? 0) && (uy =? 0)) || ((vx =? 0) && (vy =? 0)) then UNDEF
  else if uy * vx - vy * ux =? 0
  then (if 0 <? ux * vx then EQUAL else OPPOSED)
  else if 0 <? uy * vx - vy * ux then LEFT else RIGHT.

Definition within (lo hi : Z) (p : pixel) : bool :=
  (lo <=? px p) && (px p <=? hi) && (lo <=? py p) && (py p <=? hi).

(** [pos] and [pos_exact] agree on all vectors of components between
    [- M / 4] and [M / 4]. *)
Definition pos_agrees_upto (M : Z) : bool :=
  let r := map (fun k => (k, quarter k)) (zrange (- M) M) in
  forallb (fun ux => forallb (fun uy => forallb (fun vx => forallb (fun vy =>
    position_eqb (pos (mkpoint (snd ux) (snd uy)) (mkpoint (snd vx) (snd vy)))
                 (pos_exact (fst ux) (fst uy) (fst vx) (fst vy))) r) r) r) r.

Lemma position_eqb_eq p q : position_eqb p q = true -> p = q.
Proof. destruct p, q; simpl; intros H; try reflexivity; discriminate. Qed.

Lemma pos_agrees_upto_spec M :
  pos_agrees_upto M = true ->
  forall ux uy vx vy,
    - M <= ux <= M -> - M <= uy <= M -> - M <= vx <= M -> - M <= vy <= M ->
    pos (mkpoint (quarter ux) (quarter uy)) (mkpoint (quarter vx) (quarter vy))
    = pos_exact ux uy vx vy.
Proof.
  unfold pos_agrees_upto. cbv zeta. intros H ux uy vx vy Hux Huy Hvx Hvy.
  assert (Hin : forall k, - M <= k <= M ->
            In (k, quarter k) (map (fun k => (k, quarter k)) (zrange (- M) M))).
  { intros k Hk. apply in_map_iff. exists k. split; [reflexivity|].
    now apply In_zrange. }
  rewrite forallb_forall in H. specialize (H _ (Hin ux Hux)).
  rewrite forallb_forall in H. specialize (H _ (Hin uy Huy)).
  rewrite forallb_forall in H. specialize (H _ (Hin vx Hvx)).
  rewrite forallb_forall in H. specialize (H _ (Hin vy Hvy)).
  apply position_eqb_eq. exact H.
Qed.

Lemma pos_agrees_upto_24 : pos_agrees_upto 24 = true.
Proof. vm_compute. reflexivity. Qed.

(** A coordinate of an anchor seen from the barycentre is the quarter of
    four times the coordinate minus the sum: the sum, its division by four
    and the subtraction are exact. *)
Lemma rel_coordinate_exact x s :
  -4 <= x <= 4 -> -16 <= s <= 16 ->
  PrimFloat.sub (double_of_coord x)
                (PrimFloat.div (double_of_coord (wrap32 s)) (double_of_coord 4))
  = quarter (4 * x - s).
Proof.
  intros Hx Hs.
  assert (Hall : Forall (fun c : Z * Z =>
            PrimFloat.sub (double_of_coord (fst c))
              (PrimFloat.div (double_of_coord (wrap32 (snd c)))
                             (double_of_coord 4))
            = quarter (4 * fst c - snd c))
            (list_prod (zrange (-4) 4) (zrange (-16) 16))).
  { let l := eval vm_compute in (list_prod (zrange (-4) 4) (zrange (-16) 16)) in
    change (list_prod (zrange (-4) 4) (zrange (-16) 16)) with l.
    repeat (apply Forall_cons; [vm_compute; reflexivity|]).
    apply Forall_nil. }
  rewrite Forall_forall in Hall.
  apply (Hall (x, s)). apply in_prod; now apply In_zrange.
Qed.

(** X22: for four anchors with coordinates between -4 and 4 (the inputs of
    [tests/tests.c] are among them), the position that [pos] computes in
    [double] for two anchors seen from the barycentre is the one of the sign
    test in exact arithmetic, on four times the anchors minus their sum. *)
Theorem X22_pos_is_the_exact_sign_test (a b c d p q : pixel) :
  forallb (within (-4) 4) [a; b; c; d] = true ->
  In p [a; b; c; d] -> In q [a; b; c; d] ->
  let bar := barycentre a b c d in
  let sx := px a + px b + px c + px d in
  let sy := py a + py b + py c + py d in
  pos (rel bar p) (rel bar q)
  = pos_exact (4 * px p - sx) (4 * py p - sy) (4 * px q - sx) (4 * py q - sy).
Proof.
  intros Hw Hp Hq bar sx sy.
  assert (Hb : forall r, In r [a; b; c; d] ->
            -4 <= px r <= 4 /\ -4 <= py r <= 4).
  { rewrite forallb_forall in Hw. intros r Hr. specialize (Hw r Hr).
    unfold within in Hw. rewrite !andb_true_iff, !Z.leb_le in Hw. lia. }
  pose proof (Hb a ltac:(simpl; auto)) as Ha.
  pose proof (Hb b ltac:(simpl; auto)) as Hb'.
  pose proof (Hb c ltac:(simpl; auto)) as Hc.
  pose proof (Hb d ltac:(simpl; auto)) as Hd.
  assert (Hrel : forall r, In r [a; b; c; d] ->
            rel bar r = mkpoint (quarter (4 * px r - sx)) (quarter (4 * py r - sy))
            /\ -24 <= 4 * px r - sx <= 24 /\ -24 <= 4 * py r - sy <= 24).
  { intros r Hr. split.
    - unfold rel, bar, barycentre. cbn [ptx pty]. fold sx sy.
      specialize (Hb r Hr).
      rewrite (rel_coordinate_exact (px r) sx) by (unfold sx; lia).
      rewrite (rel_coordinate_exact (py r) sy) by (unfold sy; lia).
      reflexivity.
    - unfold sx, sy. simpl in Hr.
      destruct Hr as [<-|[<-|[<-|[<-|[]]]]]; lia. }
  destruct (Hrel p Hp) as (-> & Hpx & Hpy).
  destruct (Hrel q Hq) as (-> & Hqx & Hqy).
  apply (pos_agrees_upto_spec 24 pos_agrees_upto_24); assumption.
Qed.

(** The theorem applies to the first and the third anchor of the test named
    Order dependent, which are opposed. *)
Lemma X22_pos_is_the_exact_sign_test_witness :
  let a := mkpixel 0 0 in
  let b := mkpixel 3 2 in
  let c := mkpixel 4 3 in
  let d := mkpixel 1 1 in
  pos (rel (barycentre a b c d) a) (rel (barycentre a b c d) c)
  = pos_exact (-8) (-6) 8 6.
Proof.
  cbv zeta.
  apply (X22_pos_is_the_exact_sign_test
           (mkpixel 0 0) (mkpixel 3 2) (mkpixel 4 3) (mkpixel 1 1)
           (mkpixel 0 0) (mkpixel 4 3)).
  - reflexivity.
  - simpl. auto.
  - simpl. auto.
Defined.

(** ** Calls that return false *)

(** X6: a call of [perspector] that returns false leaves the destination
    raster as it was, and the cause is the classifier exactly when
    [projectable] rejects the anchors. *)
Theorem X6_failed_call_leaves_raster
  (qsort : (pixel -> pixel -> Z) -> list pixel -> list pixel)
  (svd : list float -> list float) (calloc : Z -> bool) (fuel : nat)
  (sink : buffer color) (sink_width sink_height : coord)
  (bg_data : buffer color) (bg_width bg_height : coord)
  (anchors : pixelset) (why : failure) (sink' : buffer color) :
  perspector qsort svd calloc fuel sink sink_width sink_height
             bg_data bg_width bg_height anchors = Returns_false why sink' ->
  sink' = sink
  /\ (why = Not_projectable <-> projectable qsort anchors = None).
Proof.
  unfold perspector, make_transform_matrix.
  destruct (projectable qsort anchors) as [v|].
  - destruct (sink_width =? 0); [discriminate|].
    destruct (Z.quot COORD_MAX sink_width <? sink_height).
    { intros E; inversion E; subst. split; [reflexivity|].
      split; discriminate. }
    destruct (negb _); [discriminate|].
    destruct (negb _).
    { intros E; inversion E; subst. split; [reflexivity|].
      split; discriminate. }
    destruct (forward_pass _ _ _ _ _ _ _); [|discriminate].
    destruct (fill_pass _ _ _ _ _); discriminate.
  - intros E; inversion E; subst. tauto.
Qed.

(** The theorem applies to the call on anchors that the classifier rejects. *)
Lemma X6_failed_call_leaves_raster_witness :
  sink_data sink_blank = sink_data sink_blank
  /\ (Not_projectable = Not_projectable
      <-> projectable insertion_sort anchors_ambiguous = None).
Proof.
  apply (X6_failed_call_leaves_raster insertion_sort (fun v => v)
           (fun _ => true) 0 (sink_data sink_blank) 4 4 bg_demo 2 2
           anchors_ambiguous).
  vm_compute. reflexivity.
Defined.

(** ** The forward pass stays inside the two rasters *)

Lemma for_each_ext_in {A S : Type} (body1 body2 : S -> A -> option S) (l : list A) :
  (forall p, In p l -> forall s, body1 s p = body2 s p) ->
  forall s, for_each l body1 s = for_each l body2 s.
Proof.
  induction l as [|a l IH]; intros Hb s; simpl; [reflexivity|].
  rewrite (Hb a (or_introl eq_refl) s).
  destruct (body2 s a); [|reflexivity].
  apply IH. intros p Hp. apply Hb. now right.
Qed.

Lemma cell_index_in_range W H x y :
  0 <= x < W -> 0 <= y < H -> 0 <= y * W + x < W * H.
Proof. intros. nia. Qed.

(** X7: the forward pass writes the destination raster and the mask at
    indices from 0 to [sink_width * sink_height - 1] only, never clears a
    mark, and reads the source raster at indices from 0 to
    [bg_width * bg_height - 1] only. *)
Theorem X7_forward_pass_stays_in_bounds
  (transform_matrix : list float) (sink_width sink_height : coord)
  (bg_data : buffer color) (bg_width bg_height : coord) (st st' : sink_state) :
  forward_pass transform_matrix sink_width sink_height
               bg_data bg_width bg_height st = Some st' ->
  (forall k, ~ 0 <= k < sink_width * sink_height ->
     sink_data st' k = sink_data st k
     /\ transformed_mask st' k = transformed_mask st k)
  /\ (forall k, transformed_mask st k = true -> transformed_mask st' k = true)
  /\ (forall bg_data' : buffer color,
        (forall k, 0 <= k < bg_width * bg_height -> bg_data' k = bg_data k) ->
        forward_pass transform_matrix sink_width sink_height
                     bg_data' bg_width bg_height st = Some st').
Proof.
  unfold forward_pass. intros Hrun. split; [|split].
  - intros k Hk.
    pose proof (for_each_forward _ _ _ _ _ _ _ _ k Hrun) as Hf.
    pose proof (last_writer_sorted transform_matrix sink_width sink_height
                  _ k (scan_sorted bg_width bg_height)) as Hl.
    destruct (last_writer _ _ _ _ k) as [p|]; [exfalso|exact Hf].
    destruct Hl as (_ & Hw & _). unfold writes in Hw.
    destruct (dest_index _ _ _ p) as [k'|] eqn:E; [|discriminate].
    apply Z.eqb_eq in Hw. subst k'.
    apply dest_index_in_sink in E. destruct E as (i & j & _ & Hi & Hj & ->).
    apply Hk. now apply cell_index_in_range.
  - intros k Hk.
    pose proof (for_each_forward _ _ _ _ _ _ _ _ k Hrun) as Hf.
    destruct (last_writer _ _ _ _ k) as [p|]; destruct Hf as [_ Hf];
      congruence.
  - intros bg_data' Hbg. rewrite <- Hrun. apply for_each_ext_in.
    intros [x y] Hin s. apply In_scan in Hin. unfold forward_pixel.
    rewrite Hbg; [reflexivity|]. now apply cell_index_in_range.
Qed.

(** The theorem applies to a 2x2 source and a 2x2 destination: the indices
    4 and -1 are left as they were. *)
Lemma X7_forward_pass_stays_in_bounds_witness :
  let st' := match forward_pass matrix_flatten 2 2 bg_demo 2 2 sink_blank with
             | Some s => s
             | None => sink_blank
             end in
  sink_data st' 4 = sink_data sink_blank 4
  /\ transformed_mask st' (-1) = transformed_mask sink_blank (-1).
Proof.
  cbv zeta.
  assert (Hrun : forward_pass matrix_flatten 2 2 bg_demo 2 2 sink_blank
                 = Some (match forward_pass matrix_flatten 2 2 bg_demo 2 2
                                 sink_blank with
                         | Some s => s
                         | None => sink_blank
                         end)) by (vm_compute; reflexivity).
  destruct (X7_forward_pass_stays_in_bounds _ _ _ _ _ _ _ _ Hrun) as [Hout _].
  split.
  - apply (proj1 (Hout 4 ltac:(lia))).
  - apply (proj2 (Hout (-1) ltac:(lia))).
Defined.

(** ** The forward pass marks at most one cell for each source pixel *)

Lemma length_upto n : length (upto n) = Z.to_nat n.
Proof. unfold upto. now rewrite length_map, length_seq. Qed.

Lemma length_scan w h : length (scan w h) = (Z.to_nat w * Z.to_nat h)%nat.
Proof.
  unfold scan. rewrite length_flat_map.
  assert (E : forall l : list Z,
            list_sum (map (fun x => length (map (fun y => (x, y)) (upto h))) l)
            = (length l * Z.to_nat h)%nat).
  { induction l as [|a l IH]; simpl; [reflexivity|].
    rewrite IH, length_map, length_upto. reflexivity. }
  rewrite E, length_upto. reflexivity.
Qed.

(** X8: among any cells without repetition, the forward pass marks at most
    as many as the source raster has pixels. *)
Theorem X8_forward_pass_marks_at_most_the_source_size
  (transform_matrix : list float) (sink_width sink_height : coord)
  (bg_data : buffer color) (bg_width bg_height : coord) (st st' : sink_state)
  (cells : list Z) :
  NoDup cells ->
  forward_pass transform_matrix sink_width sink_height
               bg_data bg_width bg_height st = Some st' ->
  (marked_among (transformed_mask st') cells
   <= marked_among (transformed_mask st) cells
      + Z.to_nat bg_width * Z.to_nat bg_height)%nat.
Proof.
  intros Hnd Hrun. unfold forward_pass in Hrun.
  rewrite <- length_scan.
  exact (for_each_forward_marked_among _ _ _ _ _ cells _ Hnd st st' Hrun).
Qed.

(** The theorem applies to a 2x2 source and the nine cells of a 3x3
    destination. *)
Lemma X8_forward_pass_marks_at_most_the_source_size_witness :
  let st' := match forward_pass matrix_flatten 3 3 bg_demo 2 2 sink_blank with
             | Some s => s
             | None => sink_blank
             end in
  (marked_among (transformed_mask st') (upto 9) <= 4)%nat.
Proof.
  cbv zeta.
  apply (X8_forward_pass_marks_at_most_the_source_size
           matrix_flatten 3 3 bg_demo 2 2 sink_blank).
  - vm_compute. repeat constructor; simpl; intuition discriminate.
  - vm_compute. reflexivity.
Defined.

(** ** The gap filling on two rasters that agree inside the destination *)

Section FillExtensional.

Variables sink_width sink_height : coord.

Definition in_raster (c : Z * Z) : Prop :=
  0 <= fst c < sink_width /\ 0 <= snd c < sink_height.

(** Two masks that agree on the cells of the destination. *)
Definition masks_agree (mask1 mask2 : buffer bool) : Prop :=
  forall c, in_raster c ->
    mask1 (cell_index sink_width c) = mask2 (cell_index sink_width c).

(** Two rasters that agree on the marked cells of the destination. *)
Definition marked_cells_agree (mask1 : buffer bool) (s1 s2 : buffer color)
  : Prop :=
  forall c, in_raster c -> mask1 (cell_index sink_width c) = true ->
    s1 (cell_index sink_width c) = s2 (cell_index sink_width c).

Lemma sample_ext mask1 mask2 s1 s2 i j acc :
  masks_agree mask1 mask2 -> marked_cells_agree mask1 s1 s2 ->
  in_raster (i, j) ->
  sample mask1 s1 sink_width i j acc = sample mask2 s2 sink_width i j acc.
Proof.
  intros Hm Hs Hin. unfold sample.
  pose proof (Hm (i, j) Hin) as E. pose proof (Hs (i, j) Hin) as E'.
  unfold cell_index in E, E'; simpl in E, E'.
  rewrite <- E. destruct (mask1 (j * sink_width + i)); [|reflexivity].
  now rewrite E'.
Qed.

Lemma accumulate_ext mask1 mask2 s1 s2 cells :
  masks_agree mask1 mask2 -> marked_cells_agree mask1 s1 s2 ->
  (forall c, In c cells -> in_raster c) ->
  forall acc,
  accumulate mask1 sink_width s1 cells acc
  = accumulate mask2 sink_width s2 cells acc.
Proof.
  intros Hm Hs.
  induction cells as [|c cells IH]; intros Hin acc; [reflexivity|].
  rewrite !accumulate_cons.
  rewrite (sample_ext mask1 mask2 s1 s2 (fst c) (snd c) acc Hm Hs).
  - apply IH. intros c' Hc'. apply Hin. now right.
  - destruct c. apply Hin. now left.
Qed.

(** The stepped loop runs its body between its bounds only. *)
Lemma stepped_ext (body1 body2 : Z -> accumulator -> accumulator)
  (lo hi step : Z) :
  (lo <= hi -> 0 <= step) ->
  (forall i a, lo <= i <= hi -> body1 i a = body2 i a) ->
  forall fuel i acc, lo <= i ->
  stepped fuel i hi step body1 acc = stepped fuel i hi step body2 acc.
Proof.
  intros Hstep Hb. induction fuel as [|fuel IH]; intros i acc Hi; simpl;
    [reflexivity|].
  destruct (Z.leb_spec i hi) as [Hle|Hgt]; [|reflexivity].
  rewrite Hb by lia. apply IH. lia.
Qed.

(** The cells of a window are cells of the destination. *)
Lemma window_in_raster x y radius i j :
  clip_low (x - radius) <= i <= clip_high (x + radius) sink_width ->
  clip_low (y - radius) <= j <= clip_high (y + radius) sink_height ->
  in_raster (i, j).
Proof.
  rewrite !clip_low_max, !clip_high_min. unfold in_raster; simpl. lia.
Qed.

Lemma ring_ext mask1 mask2 s1 s2 fuel x y radius acc :
  masks_agree mask1 mask2 -> marked_cells_agree mask1 s1 s2 ->
  ring fuel mask1 s1 sink_width sink_height x y radius acc
  = ring fuel mask2 s2 sink_width sink_height x y radius acc.
Proof.
  intros Hm Hs. unfold ring.
  set (x_min := clip_low (x - radius)).
  set (x_max := clip_high (x + radius) sink_width).
  set (y_min := clip_low (y - radius)).
  set (y_max := clip_high (y + radius) sink_height).
  rewrite (stepped_ext
             (fun i a => fold_left (fun a' j => sample mask1 s1 sink_width i j a')
                                   (zrange y_min y_max) a)
             (fun i a => fold_left (fun a' j => sample mask2 s2 sink_width i j a')
                                   (zrange y_min y_max) a)
             x_min x_max (x_max - x_min)); try lia.
  - destruct (stepped fuel x_min x_max _ _ acc) as [acc'|]; [|reflexivity].
    apply (stepped_ext _ _ y_min y_max (y_max - y_min)); try lia.
    intros j a Hj. rewrite !fold_row. apply accumulate_ext; auto.
    intros c Hc. apply in_map_iff in Hc. destruct Hc as (i & <- & Hi).
    apply In_zrange in Hi. now apply (window_in_raster x y radius).
  - intros i a Hi. rewrite !fold_column. apply accumulate_ext; auto.
    intros c Hc. apply in_map_iff in Hc. destruct Hc as (j & <- & Hj).
    apply In_zrange in Hj. now apply (window_in_raster x y radius).
Qed.

Lemma search_ext mask1 mask2 s1 s2 fuel x y :
  masks_agree mask1 mask2 -> marked_cells_agree mask1 s1 s2 ->
  forall radius acc,
  search fuel mask1 s1 sink_width sink_height x y radius acc
  = search fuel mask2 s2 sink_width sink_height x y radius acc.
Proof.
  intros Hm Hs. induction fuel as [|fuel IH]; intros radius acc; simpl;
    [reflexivity|].
  destruct (acc_count acc =? 0); [|reflexivity].
  rewrite (ring_ext mask1 mask2 s1 s2 fuel x y radius acc Hm Hs).
  destruct (ring fuel mask2 s2 _ _ x y radius acc); [apply IH|reflexivity].
Qed.

(** One step of the interpolation loops on two masks and two rasters that
    agree. *)
Lemma fill_pixel_ext mask1 mask2 fuel s1 s2 c :
  masks_agree mask1 mask2 -> marked_cells_agree mask1 s1 s2 -> in_raster c ->
  match fill_pixel fuel mask1 sink_width sink_height s1 c,
        fill_pixel fuel mask2 sink_width sink_height s2 c with
  | Some t1, Some t2 =>
      (mask1 (cell_index sink_width c) = false ->
       t1 (cell_index sink_width c) = t2 (cell_index sink_width c))
      /\ (forall k, s1 k = s2 k -> t1 k = t2 k)
      /\ marked_cells_agree mask1 t1 t2
  | None, None => True
  | _, _ => False
  end.
Proof.
  intros Hm Hs Hc. destruct c as [x y]. unfold fill_pixel.
  pose proof (Hm (x, y) Hc) as Em. unfold cell_index in *; simpl in Em.
  cbn [fst snd]. rewrite <- Em.
  destruct (mask1 (y * sink_width + x)) eqn:E1.
  - split; [discriminate|]. split; [auto|exact Hs].
  - rewrite (search_ext mask1 mask2 s1 s2 fuel x y Hm Hs 1 acc_zero).
    destruct (search fuel mask2 s2 _ _ x y 1 acc_zero) as [acc|]; [|exact I].
    split; [|split].
    + intros _. unfold store. now rewrite Z.eqb_refl.
    + intros k Hk. unfold store. destruct (k =? _); [reflexivity|exact Hk].
    + intros c' Hc' Hmk. unfold store.
      destruct (_ =? _); [reflexivity|now apply Hs].
Qed.

(** The interpolation loops on two masks and two rasters that agree: both
    runs end or neither does, the cells they fill receive the same colours,
    and an index at which the rasters agreed before still agrees after. *)
Lemma fill_ext mask1 mask2 fuel (l : list (Z * Z)) :
  masks_agree mask1 mask2 ->
  (forall c, In c l -> in_raster c) ->
  forall s1 s2,
  marked_cells_agree mask1 s1 s2 ->
  match for_each l (fill_pixel fuel mask1 sink_width sink_height) s1,
        for_each l (fill_pixel fuel mask2 sink_width sink_height) s2 with
  | Some r1, Some r2 =>
      (forall c, In c l -> mask1 (cell_index sink_width c) = false ->
                 r1 (cell_index sink_width c) = r2 (cell_index sink_width c))
      /\ (forall k, s1 k = s2 k -> r1 k = r2 k)
  | None, None => True
  | _, _ => False
  end.
Proof.
  intros Hm. induction l as [|c l IH]; intros Hin s1 s2 Hs; cbn [for_each].
  - split; [intros c []|auto].
  - assert (Hc : in_raster c) by (apply Hin; now left).
    assert (Hl : forall c', In c' l -> in_raster c')
      by (intros c' Hc'; apply Hin; now right).
    pose proof (fill_pixel_ext mask1 mask2 fuel s1 s2 c Hm Hs Hc) as Hstep.
    destruct (fill_pixel fuel mask1 _ _ s1 c) as [t1|],
             (fill_pixel fuel mask2 _ _ s2 c) as [t2|]; try contradiction;
      [|exact I].
    destruct Hstep as (Hcell & Hkeep & Hs').
    specialize (IH Hl t1 t2 Hs').
    destruct (for_each l _ t1) as [r1|], (for_each l _ t2) as [r2|]; auto.
    destruct IH as [IHc IHk]. split.
    + intros c' [<-|Hc'] Hu; [|now apply IHc]. apply IHk. now apply Hcell.
    + intros k Hk. apply IHk. now apply Hkeep.
Qed.

End FillExtensional.

Lemma scan_in_raster sink_width sink_height c :
  In c (scan sink_width sink_height) -> in_raster sink_width sink_height c.
Proof. destruct c as [x y]. intros H. now apply In_scan in H. Qed.

(** X9: the gap-filling pass writes the destination raster at indices from 0
    to [sink_width * sink_height - 1] only, and reads the mask and the raster
    at such indices only: run on a mask and a raster that are the same at
    these indices, it ends as well and gives the same colours there. *)
Theorem X9_fill_pass_stays_in_bounds
  (fuel : nat) (mask : buffer bool) (sink_width sink_height : coord)
  (sink sink' : buffer color) :
  fill_pass fuel mask sink_width sink_height sink = Some sink' ->
  (forall k, ~ 0 <= k < sink_width * sink_height -> sink' k = sink k)
  /\ (forall (mask2 : buffer bool) (sink2 : buffer color),
        (forall k, 0 <= k < sink_width * sink_height ->
                   mask2 k = mask k /\ sink2 k = sink k) ->
        exists sink2',
          fill_pass fuel mask2 sink_width sink_height sink2 = Some sink2'
          /\ forall k, 0 <= k < sink_width * sink_height -> sink2' k = sink' k).
Proof.
  unfold fill_pass. intros Hrun. split.
  - intros k Hk.
    destruct (fill_cells mask sink_width sink_height fuel sink
                (scan sink_width sink_height)
                (scan_indices_NoDup sink_width sink_height)
                sink sink' (fun k _ => eq_refl) Hrun) as [_ Hother].
    apply Hother. intros [x y] Hin _ E. apply In_scan in Hin.
    apply Hk. rewrite <- E. unfold cell_index; simpl.
    now apply cell_index_in_range.
  - intros mask2 sink2 Hsame.
    assert (Hm : masks_agree sink_width sink_height mask mask2).
    { intros [x y] [Hx Hy]; simpl in *. symmetry.
      apply Hsame. unfold cell_index; simpl. now apply cell_index_in_range. }
    assert (Hs : marked_cells_agree sink_width sink_height mask sink sink2).
    { intros [x y] [Hx Hy] _; simpl in *. symmetry.
      apply Hsame. unfold cell_index; simpl. now apply cell_index_in_range. }
    pose proof (fill_ext sink_width sink_height mask mask2 fuel
                  (scan sink_width sink_height) Hm
                  (scan_in_raster sink_width sink_height)
                  sink sink2 Hs) as H.
    rewrite Hrun in H. revert H.
    destruct (for_each _ _ sink2) as [sink2'|]; [intros H|contradiction].
    exists sink2'. split; [reflexivity|].
    intros k Hk. symmetry. apply (proj2 H). symmetry. now apply Hsame.
Qed.

(** The theorem applies to a 2x2 destination: the index 4 is left as it
    was. *)
Lemma X9_fill_pass_stays_in_bounds_witness :
  let sink' := match fill_pass 8 mask_origin 2 2 bg_demo with
               | Some s => s
               | None => bg_demo
               end in
  sink' 4 = bg_demo 4.
Proof.
  cbv zeta.
  assert (Hrun : fill_pass 8 mask_origin 2 2 bg_demo
                 = Some (match fill_pass 8 mask_origin 2 2 bg_demo with
                         | Some s => s
                         | None => bg_demo
                         end)) by (vm_compute; reflexivity).
  apply (proj1 (X9_fill_pass_stays_in_bounds 8 mask_origin 2 2 bg_demo _ Hrun)).
  lia.
Defined.

(** ** What a ring samples *)

Lemma cell_eq_dec (c c' : Z * Z) : {c = c'} + {c <> c'}.
Proof. decide equality; apply Z.eq_dec. Defined.

Definition b2n (b : bool) : nat := if b then 1%nat else 0%nat.

Lemma zrange_NoDup lo hi : NoDup (zrange lo hi).
Proof.
  unfold zrange. apply NoDup_map_on; [|apply seq_NoDup].
  intros a b _ _ E. lia.
Qed.

Lemma count_occ_column i0 lo hi i j :
  count_occ cell_eq_dec (map (fun j' => (i0, j')) (zrange lo hi)) (i, j)
  = b2n ((i =? i0) && (lo <=? j) && (j <=? hi)).
Proof.
  assert (Hnd : NoDup (map (fun j' : Z => (i0, j')) (zrange lo hi))).
  { apply NoDup_map_on; [|apply zrange_NoDup]. intros a b _ _ E. congruence. }
  assert (Hin : In (i, j) (map (fun j' : Z => (i0, j')) (zrange lo hi))
                <-> i = i0 /\ lo <= j <= hi).
  { rewrite in_map_iff. split.
    - intros (k & E & Hk). inversion E; subst. apply In_zrange in Hk. tauto.
    - intros (-> & Hj). exists j. split; [reflexivity|now apply In_zrange]. }
  destruct (Z.eqb_spec i i0), (Z.leb_spec lo j), (Z.leb_spec j hi); simpl;
    try (apply count_occ_not_In; rewrite Hin; lia).
  apply (proj1 (NoDup_count_occ' cell_eq_dec _) Hnd). apply Hin. lia.
Qed.

Lemma count_occ_row j0 lo hi i j :
  count_occ cell_eq_dec (map (fun i' => (i', j0)) (zrange lo hi)) (i, j)
  = b2n ((j =? j0) && (lo <=? i) && (i <=? hi)).
Proof.
  assert (Hnd : NoDup (map (fun i' : Z => (i', j0)) (zrange lo hi))).
  { apply NoDup_map_on; [|apply zrange_NoDup]. intros a b _ _ E. congruence. }
  assert (Hin : In (i, j) (map (fun i' : Z => (i', j0)) (zrange lo hi))
                <-> j = j0 /\ lo <= i <= hi).
  { rewrite in_map_iff. split.
    - intros (k & E & Hk). inversion E; subst. apply In_zrange in Hk. tauto.
    - intros (-> & Hi). exists i. split; [reflexivity|now apply In_zrange]. }
  destruct (Z.eqb_spec j j0), (Z.leb_spec lo i), (Z.leb_spec i hi); simpl;
    try (apply count_occ_not_In; rewrite Hin; lia).
  apply (proj1 (NoDup_count_occ' cell_eq_dec _) Hnd). apply Hin. lia.
Qed.

Lemma accumulate_count mask sink_width sink cells : forall acc,
  acc_count (accumulate mask sink_width sink cells acc)
  = acc_count acc + Z.of_nat (length (filter (marked mask sink_width) cells)).
Proof.
  unfold accumulate, marked.
  induction cells as [|c cells IH]; intros acc; simpl; [lia|].
  rewrite IH. unfold sample, coord. cbv zeta.
  destruct (mask (snd c * sink_width + fst c)); cbn [length acc_count]; lia.
Qed.

(** X10: one turn of the radius loop, when the clipped window has two distinct
    columns and two distinct rows.  The cells of the border of the window are
    sampled, each once, except the four corners, which the column loops and
    the row loops both visit: they are sampled twice.  No other cell is
    sampled, and the count grows by the number of marked samples. *)
Theorem X10_ring_samples_corners_twice
  (mask : buffer bool) (sink : buffer color) (sink_width sink_height : coord)
  (x y radius : coord) (fuel : nat) (acc : accumulator) :
  let x_min := clip_low (x - radius) in
  let x_max := clip_high (x + radius) sink_width in
  let y_min := clip_low (y - radius) in
  let y_max := clip_high (y + radius) sink_height in
  let cells := ring_cells sink_width sink_height x y radius in
  x_min < x_max -> y_min < y_max ->
  (forall i j,
     count_occ cell_eq_dec cells (i, j)
     = if (x_min <=? i) && (i <=? x_max) && (y_min <=? j) && (j <=? y_max)
       then (b2n (Z.eqb i x_min) + b2n (Z.eqb i x_max)
             + b2n (Z.eqb j y_min) + b2n (Z.eqb j y_max))%nat
       else 0%nat)
  /\ exists acc',
       ring (S (S (S fuel))) mask sink sink_width sink_height x y radius acc
       = Some acc'
       /\ acc_count acc'
          = acc_count acc
            + Z.of_nat (length (filter (marked mask sink_width) cells)).
Proof.
  intros x_min x_max y_min y_max cells Hx Hy. split.
  - intros i j. unfold cells, ring_cells. fold x_min x_max y_min y_max.
    simpl flat_map. rewrite !app_nil_r, !count_occ_app.
    rewrite !count_occ_column, !count_occ_row.
    destruct (Z.eqb_spec i x_min), (Z.eqb_spec i x_max),
             (Z.eqb_spec j y_min), (Z.eqb_spec j y_max),
             (Z.leb_spec x_min i), (Z.leb_spec i x_max),
             (Z.leb_spec y_min j), (Z.leb_spec j y_max);
      simpl; try reflexivity; lia.
  - exists (accumulate mask sink_width sink cells acc). split.
    + now apply ring_accumulates.
    + apply accumulate_count.
Qed.

(** The theorem applies to the ring of radius 1 around the centre of a 3x3
    destination. *)
Lemma X10_ring_samples_corners_twice_witness :
  count_occ cell_eq_dec (ring_cells 3 3 1 1 1) (0, 0) = 2%nat
  /\ count_occ cell_eq_dec (ring_cells 3 3 1 1 1) (1, 0) = 1%nat
  /\ count_occ cell_eq_dec (ring_cells 3 3 1 1 1) (1, 1) = 0%nat.
Proof.
  destruct (X10_ring_samples_corners_twice mask_origin bg_demo 3 3 1 1 1 0
              acc_zero) as [H _]; [vm_compute; reflexivity ..|].
  split; [exact (H 0 0)|split; [exact (H 1 0)|exact (H 1 1)]].
Defined.

(** ** Calls that return true *)

(** The steps behind a call that returns true. *)
Lemma perspector_true_inv
  (qsort : (pixel -> pixel -> Z) -> list pixel -> list pixel)
  (svd : list float -> list float) (calloc : Z -> bool) (fuel : nat)
  (sink : buffer color) (sink_width sink_height : coord)
  (bg_data : buffer color) (bg_width bg_height : coord)
  (anchors : pixelset) (sink' : buffer color) :
  perspector qsort svd calloc fuel sink sink_width sink_height
             bg_data bg_width bg_height anchors = Returns_true sink' ->
  exists m st,
    make_transform_matrix qsort svd anchors sink_width sink_height = Some m
    /\ forward_pass m sink_width sink_height bg_data bg_width bg_height
                    (mksink sink (fun _ => false)) = Some st
    /\ fill_pass fuel (transformed_mask st) sink_width sink_height
                 (sink_data st) = Some sink'.
Proof.
  unfold perspector.
  destruct (make_transform_matrix _ _ _ _ _) as [m|]; [|discriminate].
  destruct (sink_width =? 0); [discriminate|].
  destruct (Z.quot COORD_MAX sink_width <? sink_height); [discriminate|].
  destruct (negb _); [discriminate|].
  destruct (negb _); [discriminate|].
  destruct (forward_pass _ _ _ _ _ _ _) as [st|] eqn:F; [|discriminate].
  destruct (fill_pass _ _ _ _ _) as [s|] eqn:G; [|discriminate].
  intros E; inversion E; subst. exists m, st. auto.
Qed.

Lemma stepped_count_le (body : Z -> accumulator -> accumulator) :
  (forall i a, acc_count a <= acc_count (body i a)) ->
  forall fuel i hi step acc acc',
  stepped fuel i hi step body acc = Some acc' ->
  acc_count acc <= acc_count acc'.
Proof.
  intros Hb. induction fuel as [|fuel IH]; intros i hi step acc acc'; simpl;
    [discriminate|].
  destruct (i <=? hi).
  - intros E. apply IH in E.
    apply Z.le_trans with (acc_count (body i acc)); [apply Hb|exact E].
  - intros E; inversion E; subst. apply Z.le_refl.
Qed.

Lemma ring_count_le fuel mask sink sink_width sink_height x y radius acc acc' :
  ring fuel mask sink sink_width sink_height x y radius acc = Some acc' ->
  acc_count acc <= acc_count acc'.
Proof.
  unfold ring.
  destruct (stepped fuel _ _ _ _ acc) as [acc1|] eqn:E1; [|discriminate].
  intros E2.
  apply stepped_count_le in E1, E2.
  - apply Z.le_trans with (acc_count acc1); assumption.
  - intros j a. rewrite fold_row. apply accumulate_count_le.
  - intros i a. rewrite fold_column. apply accumulate_count_le.
Qed.

(** The search returns with a positive count only. *)
Lemma search_count_pos mask sink sink_width sink_height x y fuel :
  forall radius acc acc',
  0 <= acc_count acc ->
  search fuel mask sink sink_width sink_height x y radius acc = Some acc' ->
  0 < acc_count acc'.
Proof.
  induction fuel as [|fuel IH]; intros radius acc acc' Hacc; simpl;
    [discriminate|].
  destruct (Z.eqb_spec (acc_count acc) 0) as [E0|Hne].
  - destruct (ring fuel mask sink _ _ x y radius acc) as [acc1|] eqn:E1;
      [|discriminate].
    apply ring_count_le in E1. apply IH. lia.
  - intros E; inversion E; subst. lia.
Qed.

(** X11: after a call of [perspector] that returns true, every cell of the
    destination has been set.  A cell marked by the forward pass holds the
    colour of a pixel of the source raster that the matrix sends to this cell;
    every other cell holds the channel means of a search that has counted at
    least one marked pixel, so the means are not quotients by zero. *)
Theorem X11_returned_raster_is_fully_set
  (qsort : (pixel -> pixel -> Z) -> list pixel -> list pixel)
  (svd : list float -> list float) (calloc : Z -> bool) (fuel : nat)
  (sink : buffer color) (sink_width sink_height : coord)
  (bg_data : buffer color) (bg_width bg_height : coord)
  (anchors : pixelset) (sink' : buffer color) :
  perspector qsort svd calloc fuel sink sink_width sink_height
             bg_data bg_width bg_height anchors = Returns_true sink' ->
  exists m st,
    make_transform_matrix qsort svd anchors sink_width sink_height = Some m
    /\ forward_pass m sink_width sink_height bg_data bg_width bg_height
                    (mksink sink (fun _ => false)) = Some st
    /\ forall x y, 0 <= x < sink_width -> 0 <= y < sink_height ->
         (transformed_mask st (y * sink_width + x) = true
          /\ exists sx sy,
               0 <= sx < bg_width /\ 0 <= sy < bg_height
               /\ project m sx sy = Some (x, y)
               /\ sink' (y * sink_width + x) = bg_data (sy * bg_width + sx))
         \/ (transformed_mask st (y * sink_width + x) = false
             /\ exists acc,
                  search fuel (transformed_mask st) (sink_data st)
                         sink_width sink_height x y 1 acc_zero = Some acc
                  /\ 0 < acc_count acc
                  /\ sink' (y * sink_width + x) = mean_color acc).
Proof.
  intros Hrun. apply perspector_true_inv in Hrun.
  destruct Hrun as (m & st & Hm & Hfwd & Hfill).
  exists m, st. split; [exact Hm|]. split; [exact Hfwd|].
  intros x y Hx Hy.
  unfold fill_pass in Hfill.
  destruct (fill_cells (transformed_mask st) sink_width sink_height fuel
              (sink_data st) (scan sink_width sink_height)
              (scan_indices_NoDup sink_width sink_height)
              (sink_data st) sink' (fun k _ => eq_refl) Hfill)
    as [Hcells Hother].
  destruct (transformed_mask st (y * sink_width + x)) eqn:Hmask.
  - left. split; [reflexivity|].
    assert (Hkeep : sink' (y * sink_width + x) = sink_data st (y * sink_width + x)).
    { apply Hother. intros [x' y'] _ Hu E.
      unfold cell_index in *; simpl in *. congruence. }
    unfold forward_pass in Hfwd.
    pose proof (for_each_forward _ _ _ _ _ _ _ _ (y * sink_width + x) Hfwd) as Hf.
    pose proof (last_writer_sorted m sink_width sink_height _
                  (y * sink_width + x) (scan_sorted bg_width bg_height)) as Hl.
    destruct (last_writer _ _ _ _ _) as [[sx sy]|].
    + destruct Hl as (Hin & Hw & _). apply In_scan in Hin.
      apply (writes_cell m sink_width sink_height (sx, sy) x y Hx Hy) in Hw.
      exists sx, sy. simpl in *. destruct Hf as [Hf _].
      repeat split; try tauto. congruence.
    + destruct Hf as [_ Hf]. simpl in Hf. congruence.
  - right. split; [reflexivity|].
    destruct (Hcells (x, y)) as (acc & Hacc & Hval);
      [apply In_scan; tauto|exact Hmask|].
    exists acc. simpl in Hacc. split; [exact Hacc|]. split; [|exact Hval].
    eapply search_count_pos; [|exact Hacc]. apply Z.le_refl.
Qed.

(** ** The result does not depend on what the destination held *)

Lemma forward_pass_ends_from_any_state transform_matrix sink_width sink_height
  bg_data bg_width (l : list (Z * Z)) :
  forall st st',
  for_each l (forward_pixel transform_matrix sink_width sink_height
                            bg_data bg_width) st = Some st' ->
  forall st2, exists st2',
    for_each l (forward_pixel transform_matrix sink_width sink_height
                              bg_data bg_width) st2 = Some st2'.
Proof.
  induction l as [|[x y] l IH]; intros st st' Hrun st2; simpl in *; [eauto|].
  destruct (project transform_matrix x y) as [[x2 y2]|]; [|discriminate].
  destruct (in_sink sink_width sink_height x2 y2); eapply IH; exact Hrun.
Qed.

(** X12: the colours that a call of [perspector] that returns true leaves in
    the cells of the destination do not depend on what the destination raster
    held before the call: from any other initial content the call returns
    true as well, with the same colours in these cells. *)
Theorem X12_result_independent_of_initial_raster
  (qsort : (pixel -> pixel -> Z) -> list pixel -> list pixel)
  (svd : list float -> list float) (calloc : Z -> bool) (fuel : nat)
  (sink1 sink2 : buffer color) (sink_width sink_height : coord)
  (bg_data : buffer color) (bg_width bg_height : coord)
  (anchors : pixelset) (result1 : buffer color) :
  perspector qsort svd calloc fuel sink1 sink_width sink_height
             bg_data bg_width bg_height anchors = Returns_true result1 ->
  exists result2,
    perspector qsort svd calloc fuel sink2 sink_width sink_height
               bg_data bg_width bg_height anchors = Returns_true result2
    /\ forall x y, 0 <= x < sink_width -> 0 <= y < sink_height ->
         result2 (y * sink_width + x) = result1 (y * sink_width + x).
Proof.
  unfold perspector.
  destruct (make_transform_matrix _ _ _ _ _) as [m|]; [|discriminate].
  destruct (sink_width =? 0); [discriminate|].
  destruct (Z.quot COORD_MAX sink_width <? sink_height); [discriminate|].
  destruct (negb _); [discriminate|].
  destruct (negb _); [discriminate|].
  destruct (forward_pass m _ _ _ _ _ (mksink sink1 _)) as [st1|] eqn:F1;
    [|discriminate].
  destruct (fill_pass fuel (transformed_mask st1) _ _ _) as [r1|] eqn:G1;
    [|discriminate].
  intros E; inversion E; subst r1; clear E.
  unfold forward_pass in *.
  destruct (forward_pass_ends_from_any_state _ _ _ _ _ _ _ _ F1
              (mksink sink2 (fun _ => false))) as (st2 & F2).
  rewrite F2.
  assert (Hsame : forall k,
            transformed_mask st1 k = transformed_mask st2 k
            /\ (transformed_mask st1 k = true -> sink_data st1 k = sink_data st2 k)).
  { intros k.
    pose proof (for_each_forward _ _ _ _ _ _ _ _ k F1) as H1.
    pose proof (for_each_forward _ _ _ _ _ _ _ _ k F2) as H2.
    destruct (last_writer _ _ _ _ k).
    - destruct H1 as [-> ->], H2 as [-> ->]. auto.
    - destruct H1 as [_ ->], H2 as [_ ->]. simpl. split; [reflexivity|discriminate]. }
  unfold fill_pass in *.
  pose proof (fill_ext sink_width sink_height
                (transformed_mask st1) (transformed_mask st2) fuel
                (scan sink_width sink_height)
                (fun c _ => proj1 (Hsame _))
                (scan_in_raster sink_width sink_height)
                (sink_data st1) (sink_data st2)
                (fun c _ Hc => proj2 (Hsame _) Hc)) as H.
  rewrite G1 in H. revert H.
  destruct (for_each _ _ (sink_data st2)) as [r2|]; [intros [Hc Hk]|contradiction].
  exists r2. split; [reflexivity|].
  intros x y Hx Hy. symmetry.
  destruct (transformed_mask st1 (y * sink_width + x)) eqn:Hmask.
  - apply Hk. now apply (proj2 (Hsame _)).
  - apply (Hc (x, y)); [apply In_scan; tauto|exact Hmask].
Qed.

(** ** A run on which the theorems on calls that return true apply *)

(** A decomposition that gives the matrix of the scaling by 3, and the call
    on the unit square of [tests/tests.c], a 2x2 source and a 3x3
    destination. *)
Definition svd_scaling : list float -> list float :=
  decomposition_with_last_column
    (map double_of_coord [3; 0; 0; 0; 3; 0; 0; 0; 1]).

Definition run_scaling (sink : buffer color) : outcome :=
  perspector insertion_sort svd_scaling (fun _ => true) 8 sink 3 3
             bg_demo 2 2 anchors_square.

Definition raster_of (o : outcome) : buffer color :=
  match o with
  | Returns_true sink => sink
  | _ => sink_data sink_blank
  end.

(** The three theorems on calls that return true apply to this run. *)
Lemma X11_returned_raster_is_fully_set_witness :
  let sink' := raster_of (run_scaling (sink_data sink_blank)) in
  exists m st,
    make_transform_matrix insertion_sort svd_scaling anchors_square 3 3 = Some m
    /\ forward_pass m 3 3 bg_demo 2 2
                    (mksink (sink_data sink_blank) (fun _ => false)) = Some st
    /\ forall x y, 0 <= x < 3 -> 0 <= y < 3 ->
         (transformed_mask st (y * 3 + x) = true
          /\ exists sx sy,
               0 <= sx < 2 /\ 0 <= sy < 2
               /\ project m sx sy = Some (x, y)
               /\ sink' (y * 3 + x) = bg_demo (sy * 2 + sx))
         \/ (transformed_mask st (y * 3 + x) = false
             /\ exists acc,
                  search 8 (transformed_mask st) (sink_data st)
                         3 3 x y 1 acc_zero = Some acc
                  /\ 0 < acc_count acc
                  /\ sink' (y * 3 + x) = mean_color acc).
Proof.
  cbv zeta.
  apply (X11_returned_raster_is_fully_set insertion_sort svd_scaling
           (fun _ => true) 8 (sink_data sink_blank) 3 3 bg_demo 2 2
           anchors_square).
  vm_compute. reflexivity.
Defined.

Lemma X12_result_independent_of_initial_raster_witness :
  exists result2,
    run_scaling bg_demo = Returns_true result2
    /\ forall x y, 0 <= x < 3 -> 0 <= y < 3 ->
         result2 (y * 3 + x)
         = raster_of (run_scaling (sink_data sink_blank)) (y * 3 + x).
Proof.
  apply (X12_result_independent_of_initial_raster insertion_sort svd_scaling
           (fun _ => true) 8 (sink_data sink_blank) bg_demo 3 3 bg_demo 2 2
           anchors_square).
  vm_compute. reflexivity.
Defined.

Lemma perspector_returns_true_witness :
  exists sink', run_scaling (sink_data sink_blank) = Returns_true sink'.
Proof.
  unfold run_scaling.
  apply (perspector_returns_true insertion_sort svd_scaling (fun _ => true)
           (sink_data sink_blank) 3 3 bg_demo 2 2 anchors_square
           (match make_transform_matrix insertion_sort svd_scaling
                    anchors_square 3 3 with
            | Some m => m
            | None => []
            end)
           (match forward_pass
                    (map double_of_coord [3; 0; 0; 0; 3; 0; 0; 0; 1]) 3 3
                    bg_demo 2 2 (mksink (sink_data sink_blank) (fun _ => false))
            with
            | Some st => st
            | None => sink_blank
            end)).
  - vm_compute. reflexivity.
  - lia.
  - lia.
  - vm_compute. discriminate.
  - reflexivity.
  - vm_compute. reflexivity.
  - exists 0, 0. repeat split; try lia.
  - simpl. lia.
Defined.

(** ** A destination without a marked pixel *)

Lemma stepped_unchanged (body : Z -> accumulator -> accumulator) :
  (forall i a, body i a = a) ->
  forall fuel i hi step acc acc',
  stepped fuel i hi step body acc = Some acc' -> acc' = acc.
Proof.
  intros Hb. induction fuel as [|fuel IH]; intros i hi step acc acc'; simpl;
    [discriminate|].
  destruct (i <=? hi).
  - rewrite Hb. apply IH.
  - intros E; now inversion E.
Qed.

Lemma ring_unmarked fuel sink sink_width sink_height x y radius acc acc' :
  ring fuel (fun _ => false) sink sink_width sink_height x y radius acc
  = Some acc' ->
  acc' = acc.
Proof.
  unfold ring.
  destruct (stepped fuel _ _ _ _ acc) as [acc1|] eqn:E1; [|discriminate].
  intros E2.
  apply stepped_unchanged in E1, E2.
  - congruence.
  - intros j a. rewrite fold_row. now apply accumulate_unmarked.
  - intros i a. rewrite fold_column. now apply accumulate_unmarked.
Qed.

Lemma search_unmarked sink sink_width sink_height x y fuel :
  forall radius acc,
  acc_count acc = 0 ->
  search fuel (fun _ => false) sink sink_width sink_height x y radius acc = None.
Proof.
  induction fuel as [|fuel IH]; intros radius acc Hacc; simpl; [reflexivity|].
  rewrite Hacc. simpl.
  destruct (ring fuel _ sink _ _ x y radius acc) as [acc1|] eqn:E1;
    [|reflexivity].
  apply ring_unmarked in E1. subst acc1. now apply IH.
Qed.

(** Without a marked pixel in the destination the interpolation pass does
    not end. *)
Lemma fill_pass_unmarked fuel mask sink_width sink_height sink :
  1 <= sink_width -> 1 <= sink_height ->
  (forall x y, 0 <= x < sink_width -> 0 <= y < sink_height ->
               mask (y * sink_width + x) = false) ->
  fill_pass fuel mask sink_width sink_height sink = None.
Proof.
  intros HW HH Hnone. unfold fill_pass.
  apply (for_each_stuck _ (0, 0)).
  - apply In_scan. lia.
  - intros s. unfold fill_pixel.
    rewrite Hnone by lia.
    rewrite (search_ext sink_width sink_height mask (fun _ => false) s s).
    + now rewrite search_unmarked.
    + intros [i j] [Hi Hj]. unfold cell_index; simpl in *. now apply Hnone.
    + intros c _ _. reflexivity.
Qed.

(** X20: when the anchors are accepted, the destination has at least one
    cell and passes the size precheck, the mask is allocated and the forward
    pass ends without having marked a cell of the destination, the radius
    loop of the first cell never finds a pixel: the call does not return,
    whatever the fuel. *)
Theorem X20_no_marked_pixel_never_returns
  (qsort : (pixel -> pixel -> Z) -> list pixel -> list pixel)
  (svd : list float -> list float) (calloc : Z -> bool)
  (sink : buffer color) (sink_width sink_height : coord)
  (bg_data : buffer color) (bg_width bg_height : coord)
  (anchors : pixelset) (m : list float) (st : sink_state) :
  make_transform_matrix qsort svd anchors sink_width sink_height = Some m ->
  1 <= sink_width -> 1 <= sink_height ->
  sink_width * sink_height <= COORD_MAX ->
  calloc (size_t_of (sink_width * sink_height)) = true ->
  forward_pass m sink_width sink_height bg_data bg_width bg_height
               (mksink sink (fun _ => false)) = Some st ->
  (forall x y, 0 <= x < sink_width -> 0 <= y < sink_height ->
               transformed_mask st (y * sink_width + x) = false) ->
  forall fuel,
    perspector qsort svd calloc fuel sink sink_width sink_height
               bg_data bg_width bg_height anchors = Out_of_fuel.
Proof.
  intros Hm HW HH Hfit Hcalloc Hfwd Hnone fuel.
  unfold perspector. rewrite Hm.
  replace (sink_width =? 0) with false by (symmetry; apply Z.eqb_neq; lia).
  replace (Z.quot COORD_MAX sink_width <? sink_height) with false.
  2: { symmetry. apply Z.ltb_ge.
       rewrite Z.quot_div_nonneg by (unfold COORD_MAX; lia).
       apply Z.div_le_lower_bound; lia. }
  replace (INT32_MIN <=? sink_width * sink_height) with true
    by (symmetry; apply Z.leb_le; unfold INT32_MIN; nia).
  replace (sink_width * sink_height <=? COORD_MAX) with true
    by (symmetry; apply Z.leb_le; lia).
  rewrite Hcalloc. simpl negb. cbv iota. rewrite Hfwd.
  now rewrite fill_pass_unmarked.
Qed.

(** The theorem applies to an empty source raster: the forward pass has no
    pixel to map. *)
Lemma X20_no_marked_pixel_never_returns_witness :
  perspector insertion_sort svd_scaling (fun _ => true) 1000
             (sink_data sink_blank) 3 3 bg_demo 0 0 anchors_square
  = Out_of_fuel.
Proof.
  apply (X20_no_marked_pixel_never_returns insertion_sort svd_scaling
           (fun _ => true) (sink_data sink_blank) 3 3 bg_demo 0 0
           anchors_square
           (map double_of_coord [3; 0; 0; 0; 3; 0; 0; 0; 1])
           (mksink (sink_data sink_blank) (fun _ => false))).
  - vm_compute. reflexivity.
  - lia.
  - lia.
  - vm_compute. discriminate.
  - reflexivity.
  - reflexivity.
  - reflexivity.
Defined.

(** ** The anchors of the user interface *)

Lemma array_set_length l : forall i p, length (array_set l i p) = length l.
Proof.
  induction l as [|q l IH]; intros [|i] p; simpl; auto.
Qed.

Lemma firstn_snoc {A : Type} (d : A) (l : list A) : forall n,
  (n < length l)%nat -> firstn (S n) l = firstn n l ++ [nth n l d].
Proof.
  induction l as [|a l IH]; intros [|n] H; simpl in *; try lia; auto.
  f_equal. apply IH. lia.
Qed.

Lemma firstn_array_set_last l : forall n p,
  (n < length l)%nat -> firstn (S n) (array_set l n p) = firstn n l ++ [p].
Proof.
  induction l as [|q l IH]; intros [|n] p H; simpl in *; try lia; auto.
  f_equal. apply IH. lia.
Qed.

(** Storing the last anchor in use at the index [i] and dropping the last
    one removes the anchor that was at [i]. *)
Lemma firstn_array_set_swap (d : pixel) : forall i l n,
  (i < n)%nat -> (n <= length l)%nat ->
  Permutation (firstn n l)
    (nth i l d :: firstn (Nat.pred n) (array_set l i (nth (Nat.pred n) l d))).
Proof.
  induction i as [|i IH]; intros l n Hi Hn;
    (destruct l as [|q l]; [simpl in Hn; lia|]);
    (destruct n as [|n]; [lia|]); simpl in Hn;
    cbn [nth Nat.pred array_set]; rewrite firstn_cons.
  - apply perm_skip. destruct n as [|n]; [reflexivity|].
    cbn [nth]. rewrite firstn_cons, (firstn_snoc d) by lia.
    apply Permutation_sym, Permutation_cons_append.
  - destruct n as [|n]; [lia|].
    cbn [nth]. rewrite firstn_cons.
    eapply perm_trans; [|apply perm_swap].
    apply perm_skip. apply (IH l (S n)); lia.
Qed.

Lemma existsb_pixel_eqb l p :
  existsb (fun q => pixel_eqb q p) l = true <-> In p l.
Proof.
  rewrite existsb_exists. split.
  - intros (q & Hq & E). apply pixel_eqb_eq in E. now subst.
  - intros H. exists p. split; [exact H|apply pixel_eqb_refl].
Qed.

Lemma add_anchor_placed s x y :
  (count s <= length (pixels s))%nat ->
  (count s < ANCHORS_MAX)%nat -> (count s < length (pixels s))%nat ->
  ~ In (mkpixel x y) (placed s) ->
  placed (add_anchor s x y) = placed s ++ [mkpixel x y]
  /\ count (add_anchor s x y) = S (count s).
Proof.
  intros _ Hmax Hlen Hnew. unfold add_anchor.
  replace (ANCHORS_MAX <=? count s)%nat with false
    by (symmetry; apply Nat.leb_gt; exact Hmax).
  destruct (existsb _ (placed s)) eqn:E.
  - apply existsb_pixel_eqb in E. contradiction.
  - unfold placed; simpl. split; [|reflexivity].
    now apply firstn_array_set_last.
Qed.

Lemma last_in_reach_spec s x y radius : forall n,
  match last_in_reach s x y radius n with
  | Some i =>
      (i < n)%nat /\ in_reach x y radius (pix s i) = true
      /\ forall j, (i < j < n)%nat -> in_reach x y radius (pix s j) = false
  | None => forall j, (j < n)%nat -> in_reach x y radius (pix s j) = false
  end.
Proof.
  induction n as [|n IH]; simpl.
  - intros j Hj. lia.
  - destruct (in_reach x y radius (pix s n)) eqn:E.
    + repeat split; auto. intros j Hj. lia.
    + destruct (last_in_reach s x y radius n) as [i|].
      * destruct IH as (Hi & Hr & Hafter). repeat split; auto.
        intros j Hj. destruct (Nat.eq_dec j n) as [->|Hne]; [exact E|].
        apply Hafter. lia.
      * intros j Hj. destruct (Nat.eq_dec j n) as [->|Hne]; [exact E|].
        apply IH. lia.
Qed.

Lemma nth_firstn_lt {A : Type} (l : list A) (n i : nat) (d : A) :
  (i < n)%nat -> nth i (firstn n l) d = nth i l d.
Proof.
  intros H. rewrite nth_firstn.
  now replace (i <? n)%nat with true by (symmetry; apply Nat.ltb_lt; exact H).
Qed.

Lemma In_placed s p :
  (count s <= length (pixels s))%nat ->
  (In p (placed s) <-> exists j, (j < count s)%nat /\ pix s j = p).
Proof.
  intros Hlen. unfold placed, pix. split.
  - intros H. apply (In_nth _ _ (mkpixel 0 0)) in H.
    destruct H as (j & Hj & E). rewrite length_firstn in Hj.
    exists j. split; [lia|]. rewrite <- E. symmetry.
    apply nth_firstn_lt. lia.
  - intros (j & Hj & <-).
    rewrite <- (nth_firstn_lt _ (count s)) by lia.
    apply nth_In. rewrite length_firstn. lia.
Qed.

(** X15: a secondary click removes at most one anchor.  When no anchor in
    use is in reach the anchors are left as they are; otherwise the anchor in
    reach with the highest index is removed: the count drops by one and the
    anchors in use are the former ones without it, the last one taking its
    place. *)
Theorem X15_secondary_click_removes_the_last_anchor_in_reach
  (s : pixelset) (x y radius : coord) :
  (count s <= length (pixels s))%nat ->
  ((forall p, In p (placed s) -> in_reach x y radius p = false) ->
   remove_anchor s x y radius = s)
  /\ ((exists p, In p (placed s) /\ in_reach x y radius p = true) ->
      exists i,
        (i < count s)%nat /\ in_reach x y radius (pix s i) = true
        /\ (forall j, (i < j < count s)%nat ->
                      in_reach x y radius (pix s j) = false)
        /\ count (remove_anchor s x y radius) = Nat.pred (count s)
        /\ Permutation (placed s)
             (pix s i :: placed (remove_anchor s x y radius))).
Proof.
  intros Hlen. unfold remove_anchor.
  pose proof (last_in_reach_spec s x y radius (count s)) as H.
  destruct (last_in_reach s x y radius (count s)) as [i|].
  - destruct H as (Hi & Hr & Hafter). split.
    + intros Hnone. exfalso.
      rewrite Hnone in Hr; [discriminate|].
      apply In_placed; eauto.
    + intros _. exists i. repeat split; auto.
      unfold placed, pix; simpl.
      now apply firstn_array_set_swap.
  - split; [reflexivity|].
    intros (p & Hp & Hr). exfalso.
    apply In_placed in Hp; [|exact Hlen].
    destruct Hp as (j & Hj & <-). rewrite (H j Hj) in Hr. discriminate.
Qed.

(** The theorem applies to three anchors of which the first and the third
    are in reach: the third is removed. *)
Lemma X15_secondary_click_removes_the_last_anchor_in_reach_witness :
  let s := mkpixelset [mkpixel 0 0; mkpixel 9 9; mkpixel 1 1; mkpixel 5 5] 3 in
  exists i,
    (i < 3)%nat /\ in_reach 0 1 1 (pix s i) = true
    /\ (forall j, (i < j < 3)%nat -> in_reach 0 1 1 (pix s j) = false)
    /\ count (remove_anchor s 0 1 1) = 2%nat
    /\ Permutation (placed s) (pix s i :: placed (remove_anchor s 0 1 1)).
Proof.
  cbv zeta.
  apply (proj2 (X15_secondary_click_removes_the_last_anchor_in_reach
                  (mkpixelset [mkpixel 0 0; mkpixel 9 9; mkpixel 1 1; mkpixel 5 5] 3)
                  0 1 1 ltac:(simpl; lia))).
  exists (mkpixel 1 1). split; [simpl; auto|reflexivity].
Defined.

(** The invariant of the anchors: at most four, in an array of four, and no
    pixel twice among those in use. *)
Definition anchors_ok (s : pixelset) : Prop :=
  (count s <= ANCHORS_MAX)%nat /\ length (pixels s) = ANCHORS_MAX
  /\ NoDup (placed s).

Lemma add_anchor_ok s x y : anchors_ok s -> anchors_ok (add_anchor s x y).
Proof.
  intros (Hc & Hl & Hnd).
  destruct (Nat.leb_spec ANCHORS_MAX (count s)) as [Hfull|Hroom].
  { unfold add_anchor.
    replace (ANCHORS_MAX <=? count s)%nat with true
      by (symmetry; now apply Nat.leb_le).
    repeat split; assumption. }
  destruct (existsb (fun p => pixel_eqb p (mkpixel x y)) (placed s)) eqn:E.
  { unfold add_anchor.
    replace (ANCHORS_MAX <=? count s)%nat with false
      by (symmetry; now apply Nat.leb_gt).
    rewrite E. repeat split; assumption. }
  assert (Hnew : ~ In (mkpixel x y) (placed s)).
  { intros Hin. apply existsb_pixel_eqb in Hin. congruence. }
  destruct (add_anchor_placed s x y) as [Hp Hn]; try lia; auto.
  repeat split.
  - rewrite Hn. lia.
  - unfold add_anchor.
    replace (ANCHORS_MAX <=? count s)%nat with false
      by (symmetry; now apply Nat.leb_gt).
    rewrite E. simpl. now rewrite array_set_length.
  - rewrite Hp. apply NoDup_app; [exact Hnd|repeat constructor; simpl; tauto|].
    intros p Hin [<-|[]]. contradiction.
Qed.

Lemma remove_anchor_ok s x y radius :
  anchors_ok s -> anchors_ok (remove_anchor s x y radius).
Proof.
  intros (Hc & Hl & Hnd).
  pose proof (last_in_reach_spec s x y radius (count s)) as H.
  unfold remove_anchor.
  destruct (last_in_reach s x y radius (count s)) as [i|];
    [|repeat split; assumption].
  destruct H as (Hi & _ & _). repeat split; simpl.
  - lia.
  - now rewrite array_set_length.
  - unfold placed; simpl.
    assert (Hp : Permutation (placed s)
                   (pix s i :: firstn (Nat.pred (count s))
                                 (array_set (pixels s) i
                                    (pix s (Nat.pred (count s))))))
      by (apply firstn_array_set_swap; lia).
    apply (Permutation_NoDup Hp) in Hnd. now inversion Hnd.
Qed.

(** X16: whatever the clicks since the start, there are at most four
    anchors and no pixel is an anchor twice; so the four anchors that
    [event_process] hands over to [perspector] are four distinct pixels. *)
Theorem X16_anchors_are_distinct (events : list button_press) :
  let s := fold_left event_button_press events anchors_initial in
  (count s <= 4)%nat /\ NoDup (placed s)
  /\ (count s = 4%nat ->
      exists a b c d, s = anchors_of a b c d /\ NoDup [a; b; c; d]).
Proof.
  cbv zeta.
  assert (Hok : anchors_ok (fold_left event_button_press events anchors_initial)).
  { assert (H0 : anchors_ok anchors_initial).
    { repeat split; simpl; [unfold ANCHORS_MAX; lia|constructor]. }
    revert H0. generalize anchors_initial.
    induction events as [|e events IH]; intros s Hs; simpl; [exact Hs|].
    apply IH. destruct e; [apply add_anchor_ok|apply remove_anchor_ok]; exact Hs. }
  destruct Hok as (Hc & Hl & Hnd).
  split; [exact Hc|]. split; [exact Hnd|].
  intros H4.
  destruct (fold_left event_button_press events anchors_initial)
    as [l n]; simpl in *. subst n.
  destruct l as [|a [|b [|c [|d [|e l]]]]]; try discriminate.
  exists a, b, c, d. split; [reflexivity|exact Hnd].
Qed.

(** X17: an anchor that a primary click has just placed is the one that a
    secondary click at the same pixel removes, whatever the radius: the
    anchors in use are back to what they were. *)
Theorem X17_placing_then_removing_an_anchor
  (s : pixelset) (x y radius : coord) :
  (count s < 4)%nat -> length (pixels s) = 4%nat ->
  ~ In (mkpixel x y) (placed s) -> 0 <= radius ->
  placed (remove_anchor (add_anchor s x y) x y radius) = placed s
  /\ count (remove_anchor (add_anchor s x y) x y radius) = count s.
Proof.
  intros Hc Hl Hnew Hr.
  destruct (add_anchor_placed s x y) as [Hp Hn];
    try (unfold ANCHORS_MAX; lia); auto.
  assert (Hpix : pix (add_anchor s x y) (count s) = mkpixel x y).
  { unfold pix.
    rewrite <- (nth_firstn_lt _ (count (add_anchor s x y))) by lia.
    fold (placed (add_anchor s x y)). rewrite Hp.
    rewrite app_nth2; unfold placed; rewrite length_firstn;
      replace (Nat.min (count s) (length (pixels s))) with (count s) by lia.
    - now rewrite Nat.sub_diag.
    - lia. }
  assert (Hsel : last_in_reach (add_anchor s x y) x y radius
                   (count (add_anchor s x y)) = Some (count s)).
  { rewrite Hn. simpl. rewrite Hpix. unfold in_reach; simpl.
    replace (x <=? x + radius) with true by (symmetry; apply Z.leb_le; lia).
    replace (x >=? x - radius) with true by (symmetry; apply Z.geb_le; lia).
    replace (y <=? y + radius) with true by (symmetry; apply Z.leb_le; lia).
    replace (y >=? y - radius) with true by (symmetry; apply Z.geb_le; lia).
    reflexivity. }
  unfold remove_anchor. rewrite Hsel, Hn. simpl Nat.pred.
  unfold placed at 1; simpl. split; [|reflexivity].
  assert (Hlen : length (pixels (add_anchor s x y)) = 4%nat).
  { unfold add_anchor.
    destruct (ANCHORS_MAX <=? count s)%nat; [exact Hl|].
    destruct (existsb _ _); [exact Hl|]. simpl. now rewrite array_set_length. }
  assert (E : forall l n p, (n < length l)%nat ->
                firstn n (array_set l n p) = firstn n l).
  { induction l as [|q l IH]; intros [|n] p H; simpl in *; try lia; auto.
    f_equal. apply IH. lia. }
  rewrite E by lia.
  pose proof Hp as Hp'. unfold placed in Hp'. rewrite Hn in Hp'.
  rewrite (firstn_snoc (mkpixel 0 0)) in Hp' by lia.
  apply app_inj_tail in Hp'. exact (proj1 Hp').
Qed.

(** The theorem applies to two anchors, a third one placed at (1, 1), and
    the largest radius of [gui.c]. *)
Lemma X17_placing_then_removing_an_anchor_witness :
  let s := mkpixelset [mkpixel 0 0; mkpixel 9 9; mkpixel 0 0; mkpixel 0 0] 2 in
  placed (remove_anchor (add_anchor s 1 1) 1 1 25) = placed s
  /\ count (remove_anchor (add_anchor s 1 1) 1 1 25) = count s.
Proof.
  cbv zeta. apply X17_placing_then_removing_an_anchor.
  - simpl. lia.
  - reflexivity.
  - simpl. intuition discriminate.
  - lia.
Defined.

(** ** The size of the destination in [event_process] *)

Lemma bounding_box_fold (l : list pixel) : forall minx miny maxx maxy : coord,
  minx <= maxx -> miny <= maxy ->
  let '(minx', miny', maxx', maxy') :=
    fold_left box_step l (minx, miny, maxx, maxy) in
  minx' <= minx /\ maxx <= maxx' /\ miny' <= miny /\ maxy <= maxy'
  /\ (forall p, In p l ->
        minx' <= px p <= maxx' /\ miny' <= py p <= maxy')
  /\ (minx' = minx \/ exists p, In p l /\ px p = minx')
  /\ (maxx' = maxx \/ exists p, In p l /\ px p = maxx')
  /\ (miny' = miny \/ exists p, In p l /\ py p = miny')
  /\ (maxy' = maxy \/ exists p, In p l /\ py p = maxy').
Proof.
  induction l as [|q l IH]; intros minx miny maxx maxy Hx Hy;
    cbn [fold_left box_step].
  - split; [lia|]. split; [lia|]. split; [lia|]. split; [lia|].
    split; [intros p []|]. auto.
  - set (minx1 := if px q <? minx then px q else minx).
    set (miny1 := if py q <? miny then py q else miny).
    set (maxx1 := if px q >? maxx then px q else maxx).
    set (maxy1 := if py q >? maxy then py q else maxy).
    assert (H1 : minx1 <= minx /\ minx1 <= px q /\ (minx1 = minx \/ minx1 = px q))
      by (unfold minx1; destruct (Z.ltb_spec (px q) minx); lia).
    assert (H2 : miny1 <= miny /\ miny1 <= py q /\ (miny1 = miny \/ miny1 = py q))
      by (unfold miny1; destruct (Z.ltb_spec (py q) miny); lia).
    assert (H3 : maxx <= maxx1 /\ px q <= maxx1 /\ (maxx1 = maxx \/ maxx1 = px q)).
    { unfold maxx1. rewrite Z.gtb_ltb. destruct (Z.ltb_spec maxx (px q)); lia. }
    assert (H4 : maxy <= maxy1 /\ py q <= maxy1 /\ (maxy1 = maxy \/ maxy1 = py q)).
    { unfold maxy1. rewrite Z.gtb_ltb. destruct (Z.ltb_spec maxy (py q)); lia. }
    specialize (IH minx1 miny1 maxx1 maxy1 ltac:(lia) ltac:(lia)).
    revert IH.
    destruct (fold_left box_step l (minx1, miny1, maxx1, maxy1))
      as [[[minx' miny'] maxx'] maxy'].
    cbv beta iota. intros IH.
    destruct IH as (I1 & I2 & I3 & I4 & Iin & J1 & J2 & J3 & J4).
    split; [lia|]. split; [lia|]. split; [lia|]. split; [lia|].
    split.
    { intros p [<-|Hp]; [lia|apply Iin, Hp]. }
    split; [|split; [|split]].
    + destruct J1 as [E|(p & Hp & E)]; [|right; exists p; simpl; auto].
      destruct H1 as (_ & _ & [E'|E']);
        [left; lia|right; exists q; split; [now left|lia]].
    + destruct J2 as [E|(p & Hp & E)]; [|right; exists p; simpl; auto].
      destruct H3 as (_ & _ & [E'|E']);
        [left; lia|right; exists q; split; [now left|lia]].
    + destruct J3 as [E|(p & Hp & E)]; [|right; exists p; simpl; auto].
      destruct H2 as (_ & _ & [E'|E']);
        [left; lia|right; exists q; split; [now left|lia]].
    + destruct J4 as [E|(p & Hp & E)]; [|right; exists p; simpl; auto].
      destruct H4 as (_ & _ & [E'|E']);
        [left; lia|right; exists q; split; [now left|lia]].
Qed.

(** X18: the box that [event_process] computes is the smallest one that holds
    the anchors in use: every anchor is inside it and each of its four sides
    goes through an anchor.  So the width and the height taken from it are
    not negative. *)
Theorem X18_bounding_box_is_the_smallest (s : pixelset) :
  (0 < count s <= length (pixels s))%nat ->
  let '(minx, miny, maxx, maxy) := bounding_box s in
  (forall p, In p (placed s) ->
     minx <= px p <= maxx /\ miny <= py p <= maxy)
  /\ (exists p, In p (placed s) /\ px p = minx)
  /\ (exists p, In p (placed s) /\ px p = maxx)
  /\ (exists p, In p (placed s) /\ py p = miny)
  /\ (exists p, In p (placed s) /\ py p = maxy)
  /\ sink_size s = (maxx - minx, maxy - miny)
  /\ 0 <= maxx - minx /\ 0 <= maxy - miny.
Proof.
  intros Hc. unfold sink_size, bounding_box.
  pose proof (bounding_box_fold (placed s)
                (px (pix s 0)) (py (pix s 0)) (px (pix s 0)) (py (pix s 0))
                (Z.le_refl _) (Z.le_refl _)) as H.
  assert (H0 : In (pix s 0) (placed s)).
  { apply In_placed; [lia|]. exists 0%nat. split; [lia|reflexivity]. }
  destruct (fold_left _ (placed s) _) as [[[minx miny] maxx] maxy].
  destruct H as (I1 & I2 & I3 & I4 & Iin & J1 & J2 & J3 & J4).
  split; [exact Iin|].
  split; [destruct J1 as [->|J]; [exists (pix s 0); auto|exact J]|].
  split; [destruct J2 as [->|J]; [exists (pix s 0); auto|exact J]|].
  split; [destruct J3 as [->|J]; [exists (pix s 0); auto|exact J]|].
  split; [destruct J4 as [->|J]; [exists (pix s 0); auto|exact J]|].
  split; [reflexivity|]. lia.
Qed.

(** The theorem applies to the anchors of [tests/tests.c]. *)
Lemma X18_bounding_box_is_the_smallest_witness :
  sink_size (anchors_of (mkpixel 32 64) (mkpixel 80 48) (mkpixel 48 96)
                        (mkpixel 16 384)) = (64, 336).
Proof.
  pose proof (X18_bounding_box_is_the_smallest
                (anchors_of (mkpixel 32 64) (mkpixel 80 48) (mkpixel 48 96)
                            (mkpixel 16 384)) ltac:(simpl; lia)) as H.
  vm_compute in H. exact (proj1 (proj2 (proj2 (proj2 (proj2 (proj2 H)))))).
Defined.

(** X19: for anchors that [projectable] accepts, the width and the height
    that [event_process] takes from the box of the anchors, before it adjusts
    them to the ratio, are at least 1: the anchors are neither all in one
    column nor all in one row. *)
Theorem X19_accepted_anchors_span_a_box
  (qsort : (pixel -> pixel -> Z) -> list pixel -> list pixel)
  (a b c d : pixel) (r : rect) :
  (forall cmp l, Permutation l (qsort cmp l)) ->
  projectable qsort (anchors_of a b c d) = Some r ->
  1 <= fst (sink_size (anchors_of a b c d))
  /\ 1 <= snd (sink_size (anchors_of a b c d)).
Proof.
  intros Hp Hacc.
  pose proof (Hbox := bounding_box_fold (placed (anchors_of a b c d))
                (px a) (py a) (px a) (py a) (Z.le_refl _) (Z.le_refl _)).
  unfold sink_size, bounding_box.
  change (pix (anchors_of a b c d) 0) with a.
  destruct (fold_left _ (placed (anchors_of a b c d)) _)
    as [[[minx miny] maxx] maxy].
  destruct Hbox as (_ & _ & _ & _ & Iin & _).
  change (placed (anchors_of a b c d)) with [a; b; c; d] in Iin.
  cbn [fst snd].
  destruct (sorted_anchors_inv qsort comparex a b c d Hp)
    as (p0 & p1 & p2 & p3 & Ex & Hx).
  destruct (sorted_anchors_inv qsort comparey a b c d Hp)
    as (q0 & q1 & q2 & q3 & Ey & Hy).
  unfold projectable in Hacc. rewrite !psort_anchors, Ex, Ey in Hacc.
  unfold direct_case, split_axis_case, pix in Hacc; simpl in Hacc.
  destruct (perm4_in _ _ _ _ _ _ _ _ Hx) as (X0 & X1 & X2 & X3).
  destruct (perm4_in _ _ _ _ _ _ _ _ Hy) as (Y0 & Y1 & Y2 & Y3).
  pose proof (Iin _ X1) as B1. pose proof (Iin _ X2) as B2.
  pose proof (Iin _ X3) as B3.
  pose proof (Iin _ Y1) as C1. pose proof (Iin _ Y2) as C2.
  split.
  - destruct (Z.le_gt_cases 1 (maxx - minx)) as [|Hflat]; [assumption|exfalso].
    assert (E : px p1 = px p2) by lia.
    rewrite E, Z.eqb_refl in Hacc. simpl in Hacc. discriminate.
  - destruct (Z.le_gt_cases 1 (maxy - miny)) as [|Hflat]; [assumption|exfalso].
    assert (E : py p2 = py p3) by lia.
    assert (E' : py q1 = py q2) by lia.
    rewrite E, E', !Z.eqb_refl, !andb_false_r, orb_true_r in Hacc.
    discriminate.
Qed.

(** The theorem applies to the unit square of [tests/tests.c]. *)
Lemma X19_accepted_anchors_span_a_box_witness :
  1 <= fst (sink_size anchors_square) /\ 1 <= snd (sink_size anchors_square).
Proof.
  apply (X19_accepted_anchors_span_a_box insertion_sort _ _ _ _
           (mkrect (mkpixel 0 0) (mkpixel 1 0) (mkpixel 1 1) (mkpixel 0 1))).
  - intros cmp l. apply insertion_sort_perm.
  - vm_compute. reflexivity.
Defined.
